(** * pi-backup-tool: the operation controller of [src/index.js]

    A shallow embedding of the backup and restore pipelines of the Ink
    application ([validateAndBackup], [checkSourceAndBackup], [runBackup],
    [runPishrink], [validateAndRestore], [runRestore]), of the inline
    parser of [dd]'s progress text, of the device list ([getDisks] and
    the effect that loads it), of the callbacks that [renderContent]
    attaches to the menus, of the name filter of [ImagePicker], and of
    the regular expressions and string methods they use.

    Text.  A JavaScript string is a sequence of UTF-16 code units; here a
    string is a [list ascii] whose characters stand for the code units
    below 256 (the output of [dd], [diskutil] and [pishrink] is ASCII).
    Within that range the white space of [\s] and [trim] is
    U+0009..U+000D, U+0020 and U+00A0, and the line terminators that [.]
    refuses are U+000A and U+000D.

    Processes.  [spawn] starts a child process and the callbacks
    registered on it ([data] on its pipes, then [close], after [error]
    for a child that could not be started) drive the next stage.  A
    process is given by the chunks it writes, in arrival order, followed
    by the way it ends; the callbacks are run over that description in
    order, and what a callback starts is followed to its end before the
    next callback runs.  So where the two callbacks of a child that
    could not be started each begin a pipeline, which the program then
    has in flight together, the second one begins here when the first
    has ended.  The React state of [App] is threaded through a state
    monad; three fields that the program does not have record what a run
    did: the states it passed through, the commands it spawned, and
    [error] events nobody listened to.

    States.  In the words of the specification, Validating is VALIDATING,
    Copying is BACKING_UP or RESTORING, Shrinking is SHRINKING, Completed
    is COMPLETE and Errored is ERROR; unmounting has no state of its own
    and happens in VALIDATING, and Idle is every state of the menus. *)

From Stdlib Require Import String Ascii DecimalString ZArith Lia Bool List.
Import ListNotations.
Open Scope list_scope.

(** ** Text *)

Definition str := list ascii.

Definition txt (s : string) : str := list_ascii_of_string s.

Arguments txt : simpl never.

Definition code_unit (c : ascii) : nat := nat_of_ascii c.

Definition is_digit (c : ascii) : bool :=
  (48 <=? code_unit c)%nat && (code_unit c <=? 57)%nat.

(** [\s], and the characters [trim] strips. *)
Definition is_space (c : ascii) : bool :=
  ((9 <=? code_unit c)%nat && (code_unit c <=? 13)%nat)
  || (code_unit c =? 32)%nat || (code_unit c =? 160)%nat.

Definition is_line_terminator (c : ascii) : bool :=
  (code_unit c =? 10)%nat || (code_unit c =? 13)%nat.

Definition str_eqb (a b : str) : bool :=
  if list_eq_dec ascii_dec a b then true else false.

(** A string in a boolean position: only the empty string is falsy. *)
Definition truthy (s : str) : bool :=
  match s with [] => false | _ :: _ => true end.

(** [a || b] on strings. *)
Definition or_else (a b : str) : str := if truthy a then a else b.

Fixpoint trimStart (s : str) : str :=
  match s with
  | c :: s' => if is_space c then trimStart s' else s
  | [] => []
  end.

Definition trimEnd (s : str) : str := rev (trimStart (rev s)).

Definition trim (s : str) : str := trimEnd (trimStart s).

(** [s.substring(0, n)] *)
Definition substring0 (n : nat) (s : str) : str := firstn n s.

Definition endsWith (s suffix : str) : bool :=
  str_eqb (skipn (length s - length suffix) s) suffix.

(** [l.slice(-n)] *)
Definition slice_last {A : Type} (n : nat) (l : list A) : list A :=
  skipn (length l - n) l.

(** ** Numbers

    Exit codes and byte counts are integers.  A JavaScript number is a
    double: it holds an integer exactly up to 2^53, and a larger one
    rounded to 53 significant bits, ties to even, or to Infinity when
    that reaches 2^1024 ([to_double]).  [None] stands for NaN and the
    integer 2^1024, which no double equals, for Infinity. *)

Definition two53 : Z := (2 ^ 53)%Z.

Definition round_to_53_bits (z : Z) : Z :=
  let e := (Z.log2 z - 52)%Z in
  let q := Z.shiftr z e in
  let r := (z - Z.shiftl q e)%Z in
  let half := Z.shiftl 1 (e - 1) in
  let q' := if (half <? r)%Z || ((half =? r)%Z && Z.odd q) then (q + 1)%Z else q in
  Z.shiftl q' e.

Definition infinity : Z := (2 ^ 1024)%Z.

(** The double nearest to an integer. *)
Definition to_double (z : Z) : Z :=
  if (Z.abs z <? two53)%Z then z
  else
    let r := round_to_53_bits (Z.abs z) in
    let r := if (infinity <=? r)%Z then infinity else r in
    if (z <? 0)%Z then (- r)%Z else r.

Definition decimal (z : Z) : str :=
  txt (NilEmpty.string_of_int (Z.to_int z)).

Definition digit_value (c : ascii) : Z := (Z.of_nat (code_unit c) - 48)%Z.

Fixpoint leading_digits (s : str) : str :=
  match s with
  | c :: s' => if is_digit c then c :: leading_digits s' else []
  | [] => []
  end.

Definition digits_value (s : str) : Z :=
  fold_left (fun (acc : Z) c => (10 * acc + digit_value c)%Z) s 0%Z.

(** [parseInt(s)] on decimal text: leading white space, an optional sign,
    then the longest run of decimal digits, as a double; NaN when there
    is no digit.  (The [0x] prefix form cannot occur in what [(\d+)]
    captures and is left out.) *)
Definition parseInt (s : str) : option Z :=
  let s1 := trimStart s in
  let '(neg, s2) :=
    match s1 with
    | c :: s' =>
        if Ascii.eqb c "-" then (true, s')
        else if Ascii.eqb c "+" then (false, s') else (false, s1)
    | [] => (false, s1)
    end in
  match leading_digits s2 with
  | [] => None
  | ds => Some (to_double (if neg then (- digits_value ds)%Z else digits_value ds))
  end.

(** [Number::toString] of an integer double [x] of 10^21 or more: the
    fewest digits that read back as [x], the nearest to [x] among those
    (the even one on a tie), in exponent form.  [candidate x p] is the
    multiple of [p] that reads back as [x], if there is one, and
    [shortest x zeros] tries the powers of ten from [10 ^ zeros]
    down. *)
Definition candidate (x p : Z) : option Z :=
  let lo := (x / p * p)%Z in
  let hi := (lo + p)%Z in
  match (to_double lo =? x)%Z, (to_double hi =? x)%Z with
  | true, true =>
      Some (if (x - lo <? hi - x)%Z then lo
            else if (hi - x <? x - lo)%Z then hi
            else if Z.even (lo / p) then lo else hi)
  | true, false => Some lo
  | false, true => Some hi
  | false, false => None
  end.

Fixpoint shortest (x : Z) (zeros : nat) : Z :=
  match candidate x (10 ^ Z.of_nat zeros) with
  | Some c => c
  | None =>
      match zeros with
      | O => x
      | S zeros' => shortest x zeros'
      end
  end.

Fixpoint trimStart_zeros (s : str) : str :=
  match s with
  | c :: s' => if Ascii.eqb c "0" then trimStart_zeros s' else s
  | [] => []
  end.

Definition exponent_form (x : Z) : str :=
  let all := decimal (shortest x (length (decimal x) - 1)) in
  let exponent := decimal (Z.of_nat (length all - 1)) in
  match rev (trimStart_zeros (rev all)) with
  | [] => all
  | [d] => [d] ++ txt "e+" ++ exponent
  | d :: more => [d] ++ txt "." ++ more ++ txt "e+" ++ exponent
  end.

(** [(bytes / 1024 / 1024).toFixed(1)]: the quotient is exact (a division
    by a power of two).  Below 10^21 [toFixed(1)] picks the integer [n]
    for which [n / 10] is nearest to it, the larger one on a tie, printed
    with one fractional digit; from 10^21 on, where the quotient of a
    double is an integer, it is [Number::toString]. *)
Definition tenths_of_MiB (bytes : Z) : Z := ((10 * bytes + 524288) / 1048576)%Z.

Definition mebibytes_toFixed1 (bytes : option Z) : str :=
  match bytes with
  | None => txt "NaN"
  | Some b =>
      (if (b <? 0)%Z then txt "-" else [])
        ++ (if (infinity <=? Z.abs b)%Z then txt "Infinity"
            else if (10 ^ 21 * 1048576 <=? Z.abs b)%Z
                 then exponent_form (Z.abs b / 1048576)
                 else
                   let n := tenths_of_MiB (Z.abs b) in
                   decimal (n / 10) ++ txt "." ++ decimal (n mod 10))
  end.

(** ** Regular expressions

    The patterns of the program use character classes, literals,
    concatenation, alternation, greedy [*], [+] and [?] on a single class,
    and capture groups.  [exec r s] lists, in the order in which a
    backtracking matcher tries them, the ways [r] can match a prefix of
    [s]: the captures of its groups and the text left over.  The first
    element is the match a JavaScript engine reports at that position.
    Groups are numbered by their opening parenthesis; a group inside an
    alternative that is not taken would have no entry here (JavaScript
    has [undefined] there), and no pattern of the program has one. *)

Inductive regex : Type :=
| Eps : regex
| Class (p : ascii -> bool)
| Cat (r1 r2 : regex)
| Alt (r1 r2 : regex)
| Star (p : ascii -> bool)
| Group (r : regex).

Definition Chr (c : ascii) : regex := Class (Ascii.eqb c).

Fixpoint Lit_chars (s : str) : regex :=
  match s with
  | [] => Eps
  | c :: s' => Cat (Chr c) (Lit_chars s')
  end.

Definition Lit (s : string) : regex := Lit_chars (txt s).

Definition Plus (p : ascii -> bool) : regex := Cat (Class p) (Star p).

Definition Opt (p : ascii -> bool) : regex := Alt (Class p) Eps.

(** The text a match consumed: [s] without what is left over. *)
Definition consumed (s rest : str) : str := firstn (length s - length rest) s.

(** Greedy [p*]: the longest run first, then each shorter one. *)
Fixpoint star_exec (p : ascii -> bool) (s : str) : list str :=
  match s with
  | c :: s' => if p c then star_exec p s' ++ [s] else [s]
  | [] => [[]]
  end.

Fixpoint exec (r : regex) (s : str) : list (list str * str) :=
  match r with
  | Eps => [([], s)]
  | Class p =>
      match s with
      | c :: s' => if p c then [([], s')] else []
      | [] => []
      end
  | Cat r1 r2 =>
      flat_map (fun m1 =>
                  map (fun m2 => (fst m1 ++ fst m2, snd m2)) (exec r2 (snd m1)))
               (exec r1 s)
  | Alt r1 r2 => exec r1 s ++ exec r2 s
  | Star p => map (fun s' => ([], s')) (star_exec p s)
  | Group r1 => map (fun m => (consumed s (snd m) :: fst m, snd m)) (exec r1 s)
  end.

(** The result of [s.match(r)] for a pattern without the [g] flag: the
    text of the leftmost match and its captures, or [None] for [null]. *)
Record MatchResult : Type := mkMatch {
  whole : str;
  groups : list str
}.

Fixpoint js_match (r : regex) (s : str) : option MatchResult :=
  match exec r s with
  | m :: _ => Some (mkMatch (consumed s (snd m)) (fst m))
  | [] =>
      match s with
      | [] => None
      | _ :: s' => js_match r s'
      end
  end.

(** [matchResult[i]] for [i >= 1]; a group that is not there reads as the
    empty text. *)
Definition group (i : nat) (m : MatchResult) : str := nth (i - 1) (groups m) [].

(** A match result in a boolean position. *)
Definition matches (r : regex) (s : str) : bool :=
  match js_match r s with Some _ => true | None => false end.

Definition dot (c : ascii) : bool := negb (is_line_terminator c).

Definition one_of (s : string) (c : ascii) : bool :=
  existsb (Ascii.eqb c) (txt s).

(** [/bytes.*copied/] *)
Definition re_bytes_copied : regex :=
  Cat (Lit "bytes") (Cat (Star dot) (Lit "copied")).

(** [/records (in|out)/] *)
Definition re_records : regex :=
  Cat (Lit "records ") (Group (Alt (Lit "in") (Lit "out"))).

(** [/(\d+)\s+bytes/] *)
Definition re_bytes : regex :=
  Cat (Group (Plus is_digit)) (Cat (Plus is_space) (Lit "bytes")).

(** [[\d.]] *)
Definition digit_or_dot (c : ascii) : bool := is_digit c || Ascii.eqb c ".".

(** [/([\d.]+)\s*([MGK]?B\/s)/] *)
Definition re_speed : regex :=
  Cat (Group (Plus digit_or_dot))
      (Cat (Star is_space) (Group (Cat (Opt (one_of "MGK")) (Lit "B/s")))).

(** [/r?(disk\d+)/] *)
Definition re_disk : regex :=
  Cat (Opt (Ascii.eqb "r")) (Group (Cat (Lit "disk") (Plus is_digit))).

(** What a pattern can match and what its groups then hold, without
    regard to the order of the search: [parses r a g] when [r] matches
    the whole of [a] with captures [g]. *)
Inductive parses : regex -> str -> list str -> Prop :=
| P_Eps : parses Eps [] []
| P_Class p c : p c = true -> parses (Class p) [c] []
| P_Cat r1 r2 a b g1 g2 :
    parses r1 a g1 -> parses r2 b g2 -> parses (Cat r1 r2) (a ++ b) (g1 ++ g2)
| P_AltL r1 r2 a g : parses r1 a g -> parses (Alt r1 r2) a g
| P_AltR r1 r2 a g : parses r2 a g -> parses (Alt r1 r2) a g
| P_Star p a : Forall (fun c => p c = true) a -> parses (Star p) a []
| P_Group r a g : parses r a g -> parses (Group r) a (a :: g).

(** The language of a pattern. *)
Definition lang (r : regex) (a : str) : Prop := exists g, parses r a g.

(** ** The application state *)

Inductive MODES : Type := BACKUP | RESTORE.

Inductive STATES : Type :=
| MAIN_MENU | SELECT_SOURCE | SELECT_DEST | CONFIRM | VALIDATING
| BACKING_UP | SHRINKING | RESTORING | COMPLETE | ERROR.

(** What [spawn] is given. *)
Record Cmd : Type := mkCmd {
  command : str;
  args : list str
}.

(** What a child process does: chunks on its two pipes, then the way it
    ends.  A child that was started ends with [close] and its exit code
    ([null], here [None], when a signal ended it).  A child that could
    not be started ends with [error] and, after it, with [close] as
    well, whose code is then the negated errno of the failure ([-2] for
    ENOENT): Node emits both. *)
Inductive Output : Type :=
| stdout (data : str)
| stderr (data : str).

Inductive Ending : Type :=
| on_close (code : option Z)
| on_error (message : str) (errno : positive).

Record Process : Type := mkProcess {
  output : list Output;
  ending : Ending
}.

(** What a run finds outside the program. *)
Record World : Type := mkWorld {
  platform : str;
  existsSync : str -> bool;
  child : Cmd -> Process
}.

(** The [useState] cells of [App] that the pipelines and the menus read or
    write ([progress] is never written and [disks] only fills a menu), and
    after them the three records of what happened, with the flag set by
    [exit]. *)
Record App : Type := mkApp {
  mode : option MODES;
  state : STATES;
  source : str;
  destination : str;
  bytesWritten : str;
  speed : str;
  error : str;
  logs : list str;
  shrinkProgress : str;
  manualSource : str;
  showManualInput : bool;
  visited : list STATES;
  spawned : list Cmd;
  unhandled : list str;
  exited : bool
}.

Definition initialApp : App :=
  mkApp None MAIN_MENU [] [] (txt "0") (txt "0") [] [] [] [] false
        [] [] [] false.

(** ** The state monad *)

Definition M (A : Type) : Type := App -> A * App.

Definition ret {A : Type} (a : A) : M A := fun st => (a, st).

Definition bind {A B : Type} (m : M A) (k : A -> M B) : M B :=
  fun st => let (a, st') := m st in k a st'.

Declare Scope monad_scope.
Delimit Scope monad_scope with monad.
Notation "x <- m ;; k" := (bind m (fun x => k))
  (at level 61, m at next level, right associativity) : monad_scope.
Notation "m ;; k" := (bind m (fun _ => k))
  (at level 61, right associativity) : monad_scope.
Open Scope monad_scope.

(** The state a computation ends in. *)
Definition run {A : Type} (m : M A) (st : App) : App := snd (m st).

Definition gets {A : Type} (f : App -> A) : M A := fun st => (f st, st).

Definition setMode (v : option MODES) : M unit := fun st =>
  (tt, mkApp v (state st) (source st) (destination st) (bytesWritten st)
             (speed st) (error st) (logs st) (shrinkProgress st)
             (manualSource st) (showManualInput st)
             (visited st) (spawned st) (unhandled st) (exited st)).

Definition setState (v : STATES) : M unit := fun st =>
  (tt, mkApp (mode st) v (source st) (destination st) (bytesWritten st)
             (speed st) (error st) (logs st) (shrinkProgress st)
             (manualSource st) (showManualInput st)
             (visited st ++ [v]) (spawned st) (unhandled st) (exited st)).

Definition setSource (v : str) : M unit := fun st =>
  (tt, mkApp (mode st) (state st) v (destination st) (bytesWritten st)
             (speed st) (error st) (logs st) (shrinkProgress st)
             (manualSource st) (showManualInput st)
             (visited st) (spawned st) (unhandled st) (exited st)).

Definition setDestination (v : str) : M unit := fun st =>
  (tt, mkApp (mode st) (state st) (source st) v (bytesWritten st)
             (speed st) (error st) (logs st) (shrinkProgress st)
             (manualSource st) (showManualInput st)
             (visited st) (spawned st) (unhandled st) (exited st)).

Definition setBytesWritten (v : str) : M unit := fun st =>
  (tt, mkApp (mode st) (state st) (source st) (destination st) v
             (speed st) (error st) (logs st) (shrinkProgress st)
             (manualSource st) (showManualInput st)
             (visited st) (spawned st) (unhandled st) (exited st)).

Definition setSpeed (v : str) : M unit := fun st =>
  (tt, mkApp (mode st) (state st) (source st) (destination st)
             (bytesWritten st) v (error st) (logs st) (shrinkProgress st)
             (manualSource st) (showManualInput st)
             (visited st) (spawned st) (unhandled st) (exited st)).

Definition setError (v : str) : M unit := fun st =>
  (tt, mkApp (mode st) (state st) (source st) (destination st)
             (bytesWritten st) (speed st) v (logs st) (shrinkProgress st)
             (manualSource st) (showManualInput st)
             (visited st) (spawned st) (unhandled st) (exited st)).

Definition setLogs (f : list str -> list str) : M unit := fun st =>
  (tt, mkApp (mode st) (state st) (source st) (destination st)
             (bytesWritten st) (speed st) (error st) (f (logs st))
             (shrinkProgress st) (manualSource st) (showManualInput st)
             (visited st) (spawned st) (unhandled st) (exited st)).

Definition setShrinkProgress (v : str) : M unit := fun st =>
  (tt, mkApp (mode st) (state st) (source st) (destination st)
             (bytesWritten st) (speed st) (error st) (logs st) v
             (manualSource st) (showManualInput st)
             (visited st) (spawned st) (unhandled st) (exited st)).

Definition setManualSource (v : str) : M unit := fun st =>
  (tt, mkApp (mode st) (state st) (source st) (destination st)
             (bytesWritten st) (speed st) (error st) (logs st)
             (shrinkProgress st) v (showManualInput st)
             (visited st) (spawned st) (unhandled st) (exited st)).

Definition setShowManualInput (v : bool) : M unit := fun st =>
  (tt, mkApp (mode st) (state st) (source st) (destination st)
             (bytesWritten st) (speed st) (error st) (logs st)
             (shrinkProgress st) (manualSource st) v
             (visited st) (spawned st) (unhandled st) (exited st)).

(** [exit()] of [useApp]. *)
Definition exit : M unit := fun st =>
  (tt, mkApp (mode st) (state st) (source st) (destination st)
             (bytesWritten st) (speed st) (error st) (logs st)
             (shrinkProgress st) (manualSource st) (showManualInput st)
             (visited st) (spawned st) (unhandled st) true).

(** [spawn(command, args)]: the command is noted and the world says what
    the child does. *)
Definition spawn (w : World) (c : Cmd) : M Process := fun st =>
  (child w c,
   mkApp (mode st) (state st) (source st) (destination st)
         (bytesWritten st) (speed st) (error st) (logs st)
         (shrinkProgress st) (manualSource st) (showManualInput st)
         (visited st) (spawned st ++ [c]) (unhandled st) (exited st)).

(** An [error] event on a child that has no listener for it: Node throws
    it as an uncaught exception, and no callback of that child runs. *)
Definition uncaught (message : str) : M unit := fun st =>
  (tt, mkApp (mode st) (state st) (source st) (destination st)
             (bytesWritten st) (speed st) (error st) (logs st)
             (shrinkProgress st) (manualSource st) (showManualInput st)
             (visited st) (spawned st) (unhandled st ++ [message])
             (exited st)).

(** The [data] callbacks of a child, run over its chunks in order; [L] is
    what the callbacks keep in a variable of the enclosing function. *)
Fixpoint each_output {L : Type} (h : Output -> L -> M L)
         (os : list Output) (l : L) : M L :=
  match os with
  | [] => ret l
  | o :: os' => l' <- h o l ;; each_output h os' l'
  end.

(** The listeners for the end of a child that has both [close] and
    [error]: when the child could not be started, [error] runs first and
    [close] after it, with the negated errno. *)
Definition on_end (p : Process) (close : option Z -> M unit)
           (error : str -> M unit) : M unit :=
  match ending p with
  | on_close code => close code
  | on_error message errno => error message ;; close (Some (Z.neg errno))
  end.

(** [code === 0] *)
Definition is_zero (code : option Z) : bool :=
  match code with Some 0%Z => true | _ => false end.

(** [`${code}`] *)
Definition show_code (code : option Z) : str :=
  match code with Some z => decimal z | None => txt "null" end.

Definition quote : str := [ascii_of_nat 34].

Definition darwin : str := txt "darwin".

(** ** The pipelines *)

(** [addLog]: the last five lines and the new one. *)
Definition addLog (message : str) : M unit :=
  setLogs (fun prev => slice_last 5 prev ++ [message]).

(** *** The progress text of [dd]

    The [stderr] callback of the copy process, written twice in the source
    with the same text ([runBackup] and [runRestore]).  [isErrorLine],
    [bytes] and [rateText] are what it computes from one chunk. *)

Definition isErrorLine (output : str) : bool :=
  negb (matches re_bytes_copied output) && negb (matches re_records output).

Definition bytes (output : str) : option (option Z) :=
  match js_match re_bytes output with
  | Some bytesMatch => Some (parseInt (group 1 bytesMatch))
  | None => None
  end.

Definition rateText (output : str) : option str :=
  match js_match re_speed output with
  | Some speedMatch => Some (group 1 speedMatch ++ txt " " ++ group 2 speedMatch)
  | None => None
  end.

Definition copy_stderr_data (data : str) (lastError : str) : M str :=
  let output := data in
  let lastError := if isErrorLine output then trim output else lastError in
  match bytes output with
  | Some b => setBytesWritten (mebibytes_toFixed1 b ++ txt " MB")
  | None => ret tt
  end ;;
  match rateText output with
  | Some r => setSpeed r
  | None => ret tt
  end ;;
  addLog (substring0 60 (trim output)) ;;
  ret lastError.

Definition copy_stdout_data (data : str) : M unit :=
  let output := trim data in
  if truthy output then addLog (substring0 60 output) else ret tt.

Definition copy_data (o : Output) (lastError : str) : M str :=
  match o with
  | stderr data => copy_stderr_data data lastError
  | stdout data => copy_stdout_data data ;; ret lastError
  end.

(** *** pishrink *)

Definition pishrinkPath : str := txt "/usr/local/bin/pishrink.sh".

Definition pishrinkCmd (destination : str) : Cmd :=
  mkCmd (txt "sudo") [txt "bash"; pishrinkPath; txt "-v"; destination].

Definition downloadCmd : Cmd :=
  mkCmd (txt "sudo")
        [txt "bash"; txt "-c";
         txt "curl -fsSL https://raw.githubusercontent.com/Drewsif/PiShrink/master/pishrink.sh -o "
           ++ pishrinkPath ++ txt " && chmod +x " ++ pishrinkPath].

Definition pishrink_data (o : Output) (_ : unit) : M unit :=
  match o with
  | stdout data | stderr data =>
      let output := trim data in
      setShrinkProgress (substring0 60 output) ;;
      addLog (substring0 60 output)
  end.

Definition runShrink (w : World) : M unit :=
  addLog (txt "Running pishrink to compress image...") ;;
  destination <- gets destination ;;
  pishrink <- spawn w (pishrinkCmd destination) ;;
  each_output pishrink_data (output pishrink) tt ;;
  on_end pishrink
    (fun code =>
       if is_zero code then
         addLog (txt "Shrink complete!") ;;
         setState COMPLETE
       else
         addLog (txt "pishrink exited with code " ++ show_code code
                   ++ txt " - image saved without shrinking") ;;
         setState COMPLETE)
    (fun message =>
       addLog (txt "pishrink not available: " ++ message
                 ++ txt " - image saved without shrinking") ;;
       setState COMPLETE).

(** The download has a [close] listener only: when it cannot be started
    the [error] event is thrown and the [close] callback never runs. *)
Definition runPishrink (w : World) : M unit :=
  setState SHRINKING ;;
  if negb (existsSync w pishrinkPath) then
    addLog (txt "pishrink not found, downloading...") ;;
    download <- spawn w downloadCmd ;;
    match ending download with
    | on_close code =>
        if is_zero code then runShrink w
        else
          addLog (txt "Could not download pishrink - image saved without shrinking") ;;
          setState COMPLETE
    | on_error message _ => uncaught message
    end
  else runShrink w.

(** *** Backup *)

Definition ddArgs (w : World) (source destination : str) : list str :=
  if str_eqb (platform w) darwin then
    [txt "if=" ++ source; txt "of=" ++ destination; txt "bs=4m";
     txt "status=progress"]
  else
    [txt "if=" ++ source; txt "of=" ++ destination; txt "bs=4M";
     txt "status=progress"; txt "conv=fsync"].

Definition ddCmd (w : World) (source destination : str) : Cmd :=
  mkCmd (txt "sudo") (txt "dd" :: ddArgs w source destination).

Definition runBackup (w : World) : M unit :=
  setState BACKING_UP ;;
  source <- gets source ;;
  destination <- gets destination ;;
  addLog (txt "Starting backup from " ++ source ++ txt " to " ++ destination) ;;
  dd <- spawn w (ddCmd w source destination) ;;
  lastError <- each_output copy_data (output dd) [] ;;
  on_end dd
    (fun code =>
       if is_zero code then
         addLog (txt "Backup complete! Starting pishrink...") ;;
         runPishrink w
       else
         let errorMsg := or_else lastError (txt "exit code " ++ show_code code) in
         setError (txt "dd failed: " ++ errorMsg) ;;
         setState ERROR)
    (fun message =>
       setError (txt "Failed to start dd: " ++ message) ;;
       setState ERROR).

Definition probeCmd (source : str) : Cmd :=
  mkCmd (txt "sudo") [txt "test"; txt "-e"; source].

Definition checkSourceAndBackup (w : World) : M unit :=
  addLog (txt "Checking source device...") ;;
  source <- gets source ;;
  checkSource <- spawn w (probeCmd source) ;;
  on_end checkSource
    (fun code =>
       if negb (is_zero code) then
         setError (txt "Source device not found: " ++ source) ;;
         setState ERROR
       else runBackup w)
    (fun message =>
       setError (txt "Cannot access source: " ++ message) ;;
       setState ERROR).

Definition sudoCheckCmd : Cmd := mkCmd (txt "sudo") [txt "-v"].

Definition unmountCmd (diskName : str) : Cmd :=
  mkCmd (txt "diskutil") [txt "unmountDisk"; diskName].

(** The callbacks of the unmount child of a backup; [unmountError]
    gathers its [stderr]. *)
Definition unmount_data (o : Output) (unmountError : str) : M str :=
  match o with
  | stderr data => ret (unmountError ++ data)
  | stdout data =>
      addLog (substring0 60 (trim data)) ;;
      ret unmountError
  end.

(** Both callbacks of the unmount child go on with
    [checkSourceAndBackup]: when the child cannot be started it is
    called by [error] and again by [close]. *)
Definition validateAndBackup (w : World) : M unit :=
  setState VALIDATING ;;
  addLog (txt "Validating sudo access...") ;;
  sudoCheck <- spawn w sudoCheckCmd ;;
  on_end sudoCheck
    (fun code =>
       if negb (is_zero code) then
         setError (txt "sudo authentication failed. Please run with sudo access.") ;;
         setState ERROR
       else
         source <- gets source ;;
         match js_match re_disk source with
         | Some diskMatch =>
             if str_eqb (platform w) darwin then
               let diskName := group 1 diskMatch in
               addLog (txt "Unmounting " ++ diskName ++ txt "...") ;;
               unmount <- spawn w (unmountCmd diskName) ;;
               unmountError <- each_output unmount_data (output unmount) [] ;;
               on_end unmount
                 (fun code =>
                    (if negb (is_zero code) then
                       addLog (txt "Unmount warning: "
                                 ++ or_else (trim unmountError)
                                            (txt "disk may already be unmounted"))
                     else addLog (txt "Disk unmounted successfully")) ;;
                    checkSourceAndBackup w)
                 (fun message =>
                    addLog (txt "Unmount skipped: " ++ message) ;;
                    checkSourceAndBackup w)
             else checkSourceAndBackup w
         | None => checkSourceAndBackup w
         end)
    (fun message =>
       setError (txt "sudo failed: " ++ message) ;;
       setState ERROR).

(** *** Restore *)

(** [source.endsWith('.gz')] *)
Definition isGzipped (source : str) : bool := endsWith source (txt ".gz").

(** The child that [gunzip]s into [dd]: one shell running a pipeline of
    the two. *)
Definition gunzipPipeCmd (source destination : str) : Cmd :=
  mkCmd (txt "sudo")
        [txt "bash"; txt "-c";
         txt "gunzip -c " ++ quote ++ source ++ quote ++ txt " | dd of="
           ++ destination ++ txt " bs=4m status=progress"].

Definition restoreCmd (w : World) (source destination : str) : Cmd :=
  if isGzipped source then gunzipPipeCmd source destination
  else ddCmd w source destination.

Definition runRestore (w : World) : M unit :=
  setState RESTORING ;;
  source <- gets source ;;
  destination <- gets destination ;;
  addLog (txt "Restoring " ++ source ++ txt " to " ++ destination) ;;
  ddProcess <-
    (if isGzipped source then
       addLog (txt "Decompressing and writing image...") ;;
       spawn w (gunzipPipeCmd source destination)
     else spawn w (ddCmd w source destination)) ;;
  lastError <- each_output copy_data (output ddProcess) [] ;;
  on_end ddProcess
    (fun code =>
       if is_zero code then
         addLog (txt "Restore complete!") ;;
         setState COMPLETE
       else
         let errorMsg := or_else lastError (txt "exit code " ++ show_code code) in
         setError (txt "Restore failed: " ++ errorMsg) ;;
         setState ERROR)
    (fun message =>
       setError (txt "Failed to start restore: " ++ message) ;;
       setState ERROR).

(** Both callbacks of the unmount child call [runRestore]: when the
    child cannot be started, the copy onto the card is started by
    [error] and again by [close]. *)
Definition validateAndRestore (w : World) : M unit :=
  setState VALIDATING ;;
  addLog (txt "Validating sudo access...") ;;
  sudoCheck <- spawn w sudoCheckCmd ;;
  on_end sudoCheck
    (fun code =>
       if negb (is_zero code) then
         setError (txt "sudo authentication failed. Please run with sudo access.") ;;
         setState ERROR
       else
         destination <- gets destination ;;
         match js_match re_disk destination with
         | Some diskMatch =>
             if str_eqb (platform w) darwin then
               let diskName := group 1 diskMatch in
               addLog (txt "Unmounting " ++ diskName ++ txt "...") ;;
               unmount <- spawn w (unmountCmd diskName) ;;
               on_end unmount
                 (fun code =>
                    (if negb (is_zero code) then
                       addLog (txt "Unmount warning: disk may already be unmounted")
                     else addLog (txt "Disk unmounted successfully")) ;;
                    runRestore w)
                 (fun _ => runRestore w)
             else runRestore w
         | None => runRestore w
         end)
    (fun message =>
       setError (txt "sudo failed: " ++ message) ;;
       setState ERROR).

(** ** The menus

    The [onSelect] and [onSubmit] callbacks that [renderContent] attaches
    in each state; [value] is the [value] of the chosen item. *)

Definition mainMenu_onSelect (value : str) : M unit :=
  if str_eqb value (txt "backup") then
    setMode (Some BACKUP) ;; setState SELECT_SOURCE
  else if str_eqb value (txt "restore") then
    setMode (Some RESTORE) ;; setState SELECT_SOURCE
  else exit.

(** [ImagePicker] in SELECT_SOURCE of a restore. *)
Definition imagePicker_onSelect (path : str) : M unit :=
  setSource path ;; setState SELECT_DEST.

(** The device list in SELECT_SOURCE of a backup. *)
Definition sourceList_onSelect (value : str) : M unit :=
  if str_eqb value (txt "manual") then setShowManualInput true
  else if truthy value then setSource value ;; setState SELECT_DEST
  else ret tt.

Definition manualSource_onSubmit : M unit :=
  manualSource <- gets manualSource ;;
  setSource manualSource ;; setState SELECT_DEST.

(** The device list in SELECT_DEST of a restore. *)
Definition destList_onSelect (value : str) : M unit :=
  if str_eqb value (txt "manual") then setShowManualInput true
  else if truthy value then setDestination value ;; setState CONFIRM
  else ret tt.

(** [FileBrowser] in SELECT_DEST of a backup. *)
Definition fileBrowser_onSelect (path : str) : M unit :=
  setDestination path ;; setState CONFIRM.

Definition isRestore (st : App) : bool :=
  match mode st with Some RESTORE => true | _ => false end.

Definition confirm_onSelect (w : World) (value : str) : M unit :=
  if str_eqb value (txt "start") then
    restore <- gets isRestore ;;
    if restore then validateAndRestore w else validateAndBackup w
  else if str_eqb value (txt "back") then setState SELECT_SOURCE
  else if str_eqb value (txt "cancel") then exit
  else ret tt.

Definition errorMenu_onSelect (value : str) : M unit :=
  if str_eqb value (txt "retry") then
    setError [] ;; setState SELECT_SOURCE
  else if str_eqb value (txt "menu") then
    setError [] ;; setSource [] ;; setDestination [] ;; setMode None ;;
    setState MAIN_MENU
  else exit.

(** ** Sample worlds *)

(** A process that writes nothing and exits with [code]. *)
Definition exits (code : Z) : Process := mkProcess [] (on_close (Some code)).

Definition cmd_eqb (a b : Cmd) : bool :=
  str_eqb (command a) (command b)
  && (if list_eq_dec (list_eq_dec ascii_dec) (args a) (args b) then true else false).

(** [override c p f]: as [f], but command [c] behaves as [p]. *)
Definition override (c : Cmd) (p : Process) (f : Cmd -> Process) : Cmd -> Process :=
  fun c' => if cmd_eqb c' c then p else f c'.

(** A macOS machine on which every command succeeds silently and pishrink
    is installed. *)
Definition quiet_mac : World :=
  mkWorld darwin (fun _ => true) (fun _ => exits 0).

Definition quiet_linux : World :=
  mkWorld (txt "linux") (fun _ => true) (fun _ => exits 0).

Definition with_child (w : World) (c : Cmd) (p : Process) : World :=
  mkWorld (platform w) (existsSync w) (override c p (child w)).

Definition without_pishrink (w : World) : World :=
  mkWorld (platform w) (fun _ => false) (child w).

Definition backup_of (src dst : string) : App :=
  run (mainMenu_onSelect (txt "backup") ;;
       sourceList_onSelect (txt src) ;;
       fileBrowser_onSelect (txt dst)) initialApp.

Definition restore_of (src dst : string) : App :=
  run (mainMenu_onSelect (txt "restore") ;;
       imagePicker_onSelect (txt src) ;;
       destList_onSelect (txt dst)) initialApp.

(** ** The vocabulary of the statements *)

Definition contains (needle hay : str) : Prop :=
  exists a b, hay = a ++ needle ++ b.

(** A chunk with the word bytes and, later on the same line, the word
    copied. *)
Definition bytes_copied_line (chunk : str) : Prop :=
  exists a m b,
    chunk = a ++ txt "bytes" ++ m ++ txt "copied" ++ b
    /\ Forall (fun c => is_line_terminator c = false) m.

(** A chunk with [records in] or [records out] in it. *)
Definition records_line (chunk : str) : Prop :=
  contains (txt "records in") chunk \/ contains (txt "records out") chunk.

(** The inputs of an operation, and its metrics. *)
Definition inputs (st : App) : option MODES * str * str :=
  (mode st, source st, destination st).

Definition metrics (st : App) : str * str := (bytesWritten st, speed st).

(** Everything but the log, the metrics and the pishrink line. *)
Definition control (st : App)
  : option MODES * str * str * STATES * str * list STATES * list Cmd * list str :=
  (mode st, source st, destination st, state st, error st, visited st,
   spawned st, unhandled st).

(** The shrink tool can be started: it is installed, or its download
    exits with 0. *)
Definition shrink_tool_ready (w : World) : Prop :=
  existsSync w pishrinkPath = true
  \/ (existsSync w pishrinkPath = false
      /\ ending (child w downloadCmd) = on_close (Some 0%Z)).

(** Three ways the shrink stage can fail.  The fourth, a download child
    that cannot be started, is the one that no callback handles. *)
Inductive shrink_stage_fails (w : World) (destination : str) : Prop :=
| shrink_exits_nonzero (code : option Z) :
    shrink_tool_ready w ->
    ending (child w (pishrinkCmd destination)) = on_close code ->
    code <> Some 0%Z ->
    shrink_stage_fails w destination
| shrink_fails_to_launch (message : str) (errno : positive) :
    shrink_tool_ready w ->
    ending (child w (pishrinkCmd destination)) = on_error message errno ->
    shrink_stage_fails w destination
| download_fails (code : option Z) :
    existsSync w pishrinkPath = false ->
    ending (child w downloadCmd) = on_close code ->
    code <> Some 0%Z ->
    shrink_stage_fails w destination.

(** What [lastError] holds after one more chunk. *)
Definition keep_error (lastError : str) (o : Output) : str :=
  match o with
  | stderr data => if isErrorLine data then trim data else lastError
  | stdout _ => lastError
  end.

(** What a failed copy leaves, for either direction. *)
Definition failure_reason (os : list Output) (code : option Z) : str :=
  or_else (fold_left keep_error os []) (txt "exit code " ++ show_code code).

(** The unmount child the validation starts for a device path, if any. *)
Definition unmount_spawned (w : World) (path : str) : list Cmd :=
  match js_match re_disk path with
  | Some diskMatch =>
      if str_eqb (platform w) darwin then [unmountCmd (group 1 diskMatch)] else []
  | None => []
  end.

Definition by_sudo (c : Cmd) : Prop := command c = txt "sudo".

(** The last [stderr] chunk that was classified as an error line. *)
Fixpoint last_error_chunk (os : list Output) : option str :=
  match os with
  | [] => None
  | o :: os' =>
      match last_error_chunk os' with
      | Some data => Some data
      | None =>
          match o with
          | stderr data => if isErrorLine data then Some data else None
          | stdout _ => None
          end
      end
  end.

Definition not_error_chunk (o : Output) : Prop :=
  match o with
  | stderr data => isErrorLine data = false
  | stdout _ => True
  end.

(** The text after the prefix of a copy failure. *)
Definition reported (os : list Output) (code : option Z) : str :=
  match last_error_chunk os with
  | Some data =>
      if truthy (trim data) then trim data
      else txt "exit code " ++ show_code code
  | None => txt "exit code " ++ show_code code
  end.

Definition newline : str := [ascii_of_nat 10].

Definition no_byte_count (o : Output) : Prop :=
  match o with
  | stderr data => bytes data = None
  | stdout _ => True
  end.

(** The states of a session in which no run has been started yet. *)
Inductive only_menus : App -> Prop :=
| menus_initial : only_menus initialApp
| menus_main value st :
    only_menus st -> only_menus (run (mainMenu_onSelect value) st)
| menus_image path st :
    only_menus st -> only_menus (run (imagePicker_onSelect path) st)
| menus_source value st :
    only_menus st -> only_menus (run (sourceList_onSelect value) st)
| menus_manual_typed value st :
    only_menus st -> only_menus (run (setManualSource value) st)
| menus_manual_submitted st :
    only_menus st -> only_menus (run manualSource_onSubmit st)
| menus_dest value st :
    only_menus st -> only_menus (run (destList_onSelect value) st)
| menus_file path st :
    only_menus st -> only_menus (run (fileBrowser_onSelect path) st)
| menus_confirm w value st :
    value <> txt "start" ->
    only_menus st -> only_menus (run (confirm_onSelect w value) st)
| menus_error value st :
    only_menus st -> only_menus (run (errorMenu_onSelect value) st).

(** The text [rest] does not go on with a character of class [p]. *)
Definition stops (p : ascii -> bool) (rest : str) : Prop :=
  match rest with
  | [] => True
  | c :: _ => p c = false
  end.

(** ** The stages as functions of the world

    What a stage starts, which states it enters and how it ends are
    decided by the world and the two paths alone. *)

(** A computation keeps a property of the state. *)
Definition keeps (P : App -> Prop) {A : Type} (m : M A) : Prop :=
  forall st, P st -> P (snd (m st)).

(** The child exits with code 0. *)
Definition zero_exit (p : Process) : bool :=
  match ending p with
  | on_close code => is_zero code
  | on_error _ _ => false
  end.

(** The child cannot be started. *)
Definition fails_to_start (p : Process) : bool :=
  match ending p with
  | on_close _ => false
  | on_error _ _ => true
  end.

(** The code the [close] callback of the child is called with. *)
Definition close_code (p : Process) : option Z :=
  match ending p with
  | on_close code => code
  | on_error _ errno => Some (Z.neg errno)
  end.

(** What two callbacks that do the same leave behind, one after the
    other. *)
Definition twice_if {A : Type} (b : bool) (l : list A) : list A :=
  if b then l ++ l else l.

(** The unmount child of the validation cannot be started. *)
Definition unmount_fails_to_start (w : World) (path : str) : bool :=
  existsb (fun c => fails_to_start (child w c)) (unmount_spawned w path).

(** The children of the shrink stage, of a backup and of a restore, in
    the order in which they are started. *)
Definition shrink_commands (w : World) (destination : str) : list Cmd :=
  if existsSync w pishrinkPath then [pishrinkCmd destination]
  else downloadCmd
         :: (if zero_exit (child w downloadCmd) then [pishrinkCmd destination]
             else []).

Definition copy_commands (w : World) (source destination : str) : list Cmd :=
  ddCmd w source destination
    :: (if zero_exit (child w (ddCmd w source destination))
        then shrink_commands w destination else []).

Definition probe_commands (w : World) (source destination : str) : list Cmd :=
  probeCmd source
    :: (if zero_exit (child w (probeCmd source))
        then copy_commands w source destination else []).

Definition backup_commands (w : World) (source destination : str) : list Cmd :=
  sudoCheckCmd
    :: (if zero_exit (child w sudoCheckCmd)
        then unmount_spawned w source
               ++ twice_if (unmount_fails_to_start w source)
                           (probe_commands w source destination)
        else []).

Definition restore_commands (w : World) (source destination : str) : list Cmd :=
  sudoCheckCmd
    :: (if zero_exit (child w sudoCheckCmd)
        then unmount_spawned w destination
               ++ twice_if (unmount_fails_to_start w destination)
                           [restoreCmd w source destination]
        else []).

(** The states the same stages enter, in order.  A child that cannot be
    started has its end handled twice. *)
Definition shrink_states (w : World) (destination : str) : list STATES :=
  if fails_to_start (child w (pishrinkCmd destination))
  then [COMPLETE; COMPLETE] else [COMPLETE].

Definition pishrink_states (w : World) (destination : str) : list STATES :=
  SHRINKING
    :: (if existsSync w pishrinkPath then shrink_states w destination
        else if zero_exit (child w downloadCmd) then shrink_states w destination
        else if fails_to_start (child w downloadCmd) then []
        else [COMPLETE]).

Definition failed_states (p : Process) : list STATES :=
  if fails_to_start p then [ERROR; ERROR] else [ERROR].

Definition copy_states (w : World) (source destination : str) : list STATES :=
  BACKING_UP
    :: (if zero_exit (child w (ddCmd w source destination))
        then pishrink_states w destination
        else failed_states (child w (ddCmd w source destination))).

Definition probe_states (w : World) (source destination : str) : list STATES :=
  if zero_exit (child w (probeCmd source)) then copy_states w source destination
  else failed_states (child w (probeCmd source)).

Definition backup_states (w : World) (source destination : str) : list STATES :=
  VALIDATING
    :: (if zero_exit (child w sudoCheckCmd)
        then twice_if (unmount_fails_to_start w source)
                      (probe_states w source destination)
        else failed_states (child w sudoCheckCmd)).

Definition restore_copy_states (w : World) (source destination : str) : list STATES :=
  RESTORING
    :: (if zero_exit (child w (restoreCmd w source destination)) then [COMPLETE]
        else failed_states (child w (restoreCmd w source destination))).

Definition restore_states (w : World) (source destination : str) : list STATES :=
  VALIDATING
    :: (if zero_exit (child w sudoCheckCmd)
        then twice_if (unmount_fails_to_start w destination)
                      (restore_copy_states w source destination)
        else failed_states (child w sudoCheckCmd)).

(** How a stage ends: in COMPLETE, in ERROR with a reason, or left in
    SHRINKING by a download that could not be started. *)
Inductive Outcome : Type :=
| Completed
| Errored (reason : str)
| Stalled.

Definition pishrink_outcome (w : World) : Outcome :=
  if existsSync w pishrinkPath then Completed
  else if fails_to_start (child w downloadCmd) then Stalled
  else Completed.

Definition copy_outcome (w : World) (source destination : str) : Outcome :=
  let dd := child w (ddCmd w source destination) in
  if zero_exit dd then pishrink_outcome w
  else Errored (txt "dd failed: " ++ failure_reason (output dd) (close_code dd)).

Definition probe_outcome (w : World) (source destination : str) : Outcome :=
  if zero_exit (child w (probeCmd source)) then copy_outcome w source destination
  else Errored (txt "Source device not found: " ++ source).

Definition sudo_failure : str :=
  txt "sudo authentication failed. Please run with sudo access.".

Definition backup_outcome (w : World) (source destination : str) : Outcome :=
  if zero_exit (child w sudoCheckCmd) then probe_outcome w source destination
  else Errored sudo_failure.

Definition restore_copy_outcome (w : World) (source destination : str) : Outcome :=
  let copy := child w (restoreCmd w source destination) in
  if zero_exit copy then Completed
  else Errored (txt "Restore failed: "
                  ++ failure_reason (output copy) (close_code copy)).

Definition restore_outcome (w : World) (source destination : str) : Outcome :=
  if zero_exit (child w sudoCheckCmd) then restore_copy_outcome w source destination
  else Errored sudo_failure.

Definition outcome_of (o : Outcome) (st st' : App) : Prop :=
  match o with
  | Completed => state st' = COMPLETE /\ error st' = error st
  | Errored reason => state st' = ERROR /\ error st' = reason
  | Stalled => state st' = SHRINKING /\ error st' = error st
  end.

(** A stage run from [st] to [st']: the states it entered, the children
    it started, and how it ended; it never writes the inputs. *)
Definition follows (st st' : App) (states : list STATES) (commands : list Cmd)
           (o : Outcome) : Prop :=
  visited st' = visited st ++ states
  /\ spawned st' = spawned st ++ commands
  /\ inputs st' = inputs st
  /\ outcome_of o st st'.

(** The metrics after the chunks of a copy child. *)
Definition copy_metrics_step (m : str * str) (o : Output) : str * str :=
  match o with
  | stdout _ => m
  | stderr data =>
      let m1 := match bytes data with
                | Some b => (mebibytes_toFixed1 b ++ txt " MB", snd m)
                | None => m
                end in
      match rateText data with
      | Some rate => (fst m1, rate)
      | None => m1
      end
  end.

Definition copy_metrics (os : list Output) (m : str * str) : str * str :=
  fold_left copy_metrics_step os m.

(** The state with other metrics. *)
Definition rebase (m : str * str) (st : App) : App :=
  mkApp (mode st) (state st) (source st) (destination st) (fst m) (snd m)
        (error st) (logs st) (shrinkProgress st)
        (manualSource st) (showManualInput st)
        (visited st) (spawned st) (unhandled st) (exited st).

(** A computation that does not read the metrics. *)
Definition blind {A : Type} (c : M A) : Prop :=
  forall m st,
    fst (c (rebase m st)) = fst (c st)
    /\ rebase m (snd (c (rebase m st))) = rebase m (snd (c st)).

(** The state with its log cut to the last five lines. *)
Definition cut_logs (st : App) : App :=
  mkApp (mode st) (state st) (source st) (destination st) (bytesWritten st)
        (speed st) (error st) (slice_last 5 (logs st)) (shrinkProgress st)
        (manualSource st) (showManualInput st)
        (visited st) (spawned st) (unhandled st) (exited st).

(** ** The device list

    [getDisks] asks [diskutil] (on darwin) or [lsblk] (elsewhere) through
    [execSync], which returns what the command printed or throws;
    [execSync] is here a function from the command line to its output,
    [None] when it throws. *)

(** [s.startsWith(prefix)] *)
Fixpoint startsWith (s prefix : str) : bool :=
  match prefix, s with
  | [], _ => true
  | p :: prefix', c :: s' => Ascii.eqb c p && startsWith s' prefix'
  | _ :: _, [] => false
  end.

(** [s.includes(needle)] *)
Fixpoint includes (s needle : str) : bool :=
  startsWith s needle
  || match s with
     | [] => false
     | _ :: s' => includes s' needle
     end.

(** [s.split(c)] for a separator of one character. *)
Fixpoint split_on (sep : ascii) (s : str) : list str :=
  match s with
  | [] => [[]]
  | c :: s' =>
      if Ascii.eqb c sep then [] :: split_on sep s'
      else match split_on sep s' with
           | piece :: pieces => (c :: piece) :: pieces
           | [] => [[c]]
           end
  end.

(** [s.split(/\s+/)]: the pieces between the maximal runs of white
    space; a run at either end of [s] leaves an empty piece there.
    [piece] is what was read of the current piece and [in_run] tells
    that the last character belonged to a run. *)
Fixpoint split_spaces (s piece : str) (in_run : bool) : list str :=
  match s with
  | [] => [piece]
  | c :: s' =>
      if is_space c then
        if in_run then split_spaces s' [] true
        else piece :: split_spaces s' [] true
      else split_spaces s' (piece ++ [c]) false
  end.

(** [l.join(sep)] *)
Fixpoint join (sep : str) (l : list str) : str :=
  match l with
  | [] => []
  | [x] => x
  | x :: l' => x ++ sep ++ join sep l'
  end.

(** [l.slice(start, -from_end)] *)
Definition slice {A : Type} (start from_end : nat) (l : list A) : list A :=
  firstn (length l - from_end - start) (skipn start l).

(** [l.map((x, idx) => f x idx)], counting from [idx]. *)
Fixpoint map_indexed {A B : Type} (f : A -> nat -> B) (idx : nat) (l : list A)
  : list B :=
  match l with
  | [] => []
  | x :: l' => f x idx :: map_indexed f (S idx) l'
  end.

(** [l.map(f)] for an [f] that can throw ([None]): the first throw ends
    the whole. *)
Fixpoint map_throwing {A B : Type} (f : A -> option B) (l : list A)
  : option (list B) :=
  match l with
  | [] => Some []
  | x :: l' =>
      match f x with
      | Some y =>
          match map_throwing f l' with
          | Some ys => Some (y :: ys)
          | None => None
          end
      | None => None
      end
  end.

(** [[...new Set(l)]]: the elements of [l] in the order of their first
    occurrence. *)
Definition set_add (seen : list str) (x : str) : list str :=
  if existsb (str_eqb x) seen then seen else seen ++ [x].

Definition set_of (l : list str) : list str := fold_left set_add l [].

(** [s.match(r)] for a pattern with the [g] flag: the texts of the
    matches found from left to right, each search starting where the
    last match ended, one character further after an empty match.  The
    result is empty where JavaScript has [null].  [skip] counts the
    characters of [s] that the last match still covers. *)
Fixpoint match_all (r : regex) (s : str) (skip : nat) {struct s} : list str :=
  match skip with
  | S skip' =>
      match s with
      | [] => []
      | _ :: s' => match_all r s' skip'
      end
  | O =>
      match exec r s with
      | m :: _ =>
          consumed s (snd m)
            :: match s with
               | [] => []
               | _ :: s' => match_all r s' (length (consumed s (snd m)) - 1)
               end
      | [] =>
          match s with
          | [] => []
          | _ :: s' => match_all r s' 0
          end
      end
  end.

Definition disk_number : regex := Cat (Lit "disk") (Plus is_digit).

(** [/<string>(disk\d+)<\/string>/g] *)
Definition re_plist_disk : regex :=
  Cat (Lit "<string>") (Cat (Group disk_number) (Lit "</string>")).

(** [/disk\d+/] *)
Definition re_disk_name : regex := disk_number.

(** [/Media Name:\s+(.+)/] *)
Definition re_media_name : regex :=
  Cat (Lit "Media Name:") (Cat (Plus is_space) (Group (Plus dot))).

(** [[^\(]] *)
Definition not_paren (c : ascii) : bool := negb (Ascii.eqb c "(").

(** [/Disk Size:\s+([^\(]+)/] *)
Definition re_disk_size : regex :=
  Cat (Lit "Disk Size:") (Cat (Plus is_space) (Group (Plus not_paren))).

(** The entries of the device lists.  [key] is missing in the entry that
    reports a failure, and only the entries of [lsblk] have
    [removable]. *)
Module Item.

Record t : Type := mk {
  key : option str;
  label : str;
  value : str;
  removable : option bool
}.

End Item.

Definition listCmd : str := txt "diskutil list -plist external".

Definition infoCmd (disk : str) : str := txt "diskutil info " ++ disk.

Definition lsblkCmd : str := txt "lsblk -d -o NAME,SIZE,MODEL,RM -n".

Definition diskKey (idx : nat) (name : str) : str :=
  txt "disk-" ++ decimal (Z.of_nat idx) ++ txt "-" ++ name.

(** The entry of one disk of [diskutil list]; the inner [try] falls back
    to the bare identifier when [diskutil info] throws. *)
Definition diskItem (execSync : str -> option str) (disk : str) (idx : nat)
  : Item.t :=
  match execSync (infoCmd disk) with
  | Some info =>
      let nameMatch := js_match re_media_name info in
      let sizeMatch := js_match re_disk_size info in
      let name :=
        match nameMatch with
        | Some m => trim (group 1 m)
        | None => txt "Unknown"
        end in
      let size :=
        match sizeMatch with
        | Some m => trim (group 1 m)
        | None => txt "Unknown size"
        end in
      Item.mk (Some (diskKey idx disk))
              (disk ++ txt " - " ++ name ++ txt " (" ++ size ++ txt ")")
              (txt "/dev/r" ++ disk) None
  | None =>
      Item.mk (Some (diskKey idx disk)) disk (txt "/dev/r" ++ disk) None
  end.

(** The entry of one line of [lsblk].  ([split] returns at least one
    piece, so [parts[0]] and the last of [parts] are always there.) *)
Definition lsblkItem (line : str) (idx : nat) : Item.t :=
  let parts := split_spaces (trim line) [] false in
  let name := nth 0 parts [] in
  let size := or_else (nth 1 parts []) (txt "Unknown") in
  let model := or_else (join (txt " ") (slice 2 1 parts)) (txt "Unknown") in
  let removable := str_eqb (last parts []) (txt "1") in
  Item.mk (Some (diskKey idx name))
          (name ++ txt " - " ++ model ++ txt " (" ++ size ++ txt ")"
             ++ (if removable then txt " [Removable]" else []))
          (txt "/dev/" ++ name) (Some removable).

Definition keepItem (d : Item.t) : bool :=
  match Item.removable d with Some true => true | _ => false end
  || includes (Item.value d) (txt "mmcblk")
  || includes (Item.value d) (txt "sd").

Definition detectionFailed : Item.t :=
  Item.mk None (txt "Error detecting disks - enter manually") [] None.

(** [m.match(/disk\d+/)[0]]; reading [[0]] of [null] throws. *)
Definition diskOf (m : str) : option str :=
  match js_match re_disk_name m with
  | Some found => Some (whole found)
  | None => None
  end.

Definition getDisks (platform : str) (execSync : str -> option str)
  : list Item.t :=
  if str_eqb platform darwin then
    match execSync listCmd with
    | Some output =>
        let diskMatches := match_all re_plist_disk output 0 in
        match map_throwing diskOf diskMatches with
        | Some names => map_indexed (diskItem execSync) 0 (set_of names)
        | None => [detectionFailed]
        end
    | None => [detectionFailed]
    end
  else
    match execSync lsblkCmd with
    | Some output =>
        filter keepItem
          (map_indexed lsblkItem 0
             (filter (fun line => truthy (trim line))
                     (split_on (ascii_of_nat 10) (trim output))))
    | None => [detectionFailed]
    end.

(** The first character of the label of the manual entry is outside the
    code units that [str] holds; it stands here as its four bytes in
    UTF-8. *)
Definition memo : str :=
  [ascii_of_nat 240; ascii_of_nat 159; ascii_of_nat 147; ascii_of_nat 157].

Definition noDisks : Item.t :=
  Item.mk (Some (txt "no-disks")) (txt "No external disks found") [] None.

Definition manualEntry : Item.t :=
  Item.mk (Some (txt "manual-entry"))
          (memo ++ txt " Enter device path manually...") (txt "manual") None.

(** The effect that loads [disks] when [App] is mounted. *)
Definition loadDisks (platform : str) (execSync : str -> option str)
  : list Item.t :=
  let diskList := getDisks platform execSync in
  let diskList :=
    if (length diskList =? 0)%nat then diskList ++ [noDisks] else diskList in
  diskList ++ [manualEntry].

(** [field] is the first white-space separated field of [line], and the
    last one. *)
Definition first_field (field line : str) : Prop :=
  field <> [] /\ Forall (fun c => is_space c = false) field
  /\ exists rest,
      line = field ++ rest /\ stops (fun c => negb (is_space c)) rest.

Definition last_field (field line : str) : Prop :=
  Forall (fun c => is_space c = false) field
  /\ exists pre,
      line = pre ++ field
      /\ (pre = [] \/ exists pre' c, pre = pre' ++ [c] /\ is_space c = true).

(** ** The session

    [renderContent] mounts one component for each state, and the
    callbacks of that component are what the user can trigger there: a
    [SelectInput] calls [onSelect] with one of its [items], the text
    field calls [onChange] and [onSubmit], [ImagePicker] and
    [FileBrowser] call [onSelect] with a path, and [useInput] quits on
    [q] in every state.  [step w disks st st'] is one such callback run
    in [st]; a run started from the confirmation menu is taken as a
    whole.  [disks] is the list that the effect has loaded. *)

Definition mainMenuItems : list str := [txt "backup"; txt "restore"; txt "exit"].

Definition confirmItems : list str := [txt "start"; txt "back"; txt "cancel"].

Definition errorItems : list str := [txt "retry"; txt "menu"; txt "exit"].

Inductive step (w : World) (disks : list Item.t) (st : App) : App -> Prop :=
| step_main value :
    state st = MAIN_MENU -> In value mainMenuItems ->
    step w disks st (run (mainMenu_onSelect value) st)
| step_image path :
    state st = SELECT_SOURCE -> mode st = Some RESTORE ->
    step w disks st (run (imagePicker_onSelect path) st)
| step_manual_typed text :
    state st = SELECT_SOURCE -> mode st <> Some RESTORE ->
    showManualInput st = true ->
    step w disks st (run (setManualSource text) st)
| step_manual_submitted :
    state st = SELECT_SOURCE -> mode st <> Some RESTORE ->
    showManualInput st = true ->
    step w disks st (run manualSource_onSubmit st)
| step_source item :
    state st = SELECT_SOURCE -> mode st <> Some RESTORE ->
    showManualInput st = false -> In item disks ->
    step w disks st (run (sourceList_onSelect (Item.value item)) st)
| step_dest item :
    state st = SELECT_DEST -> mode st = Some RESTORE -> In item disks ->
    step w disks st (run (destList_onSelect (Item.value item)) st)
| step_file path :
    state st = SELECT_DEST -> mode st <> Some RESTORE ->
    step w disks st (run (fileBrowser_onSelect path) st)
| step_confirm value :
    state st = CONFIRM -> In value confirmItems ->
    step w disks st (run (confirm_onSelect w value) st)
| step_error value :
    state st = ERROR -> In value errorItems ->
    step w disks st (run (errorMenu_onSelect value) st)
| step_quit :
    step w disks st (run exit st).

(** The states of a session: [App] as it is mounted, and what the
    callbacks make of it until [exit]. *)
Inductive reachable (w : World) (disks : list Item.t) : App -> Prop :=
| reach_mounted : reachable w disks initialApp
| reach_step st st' :
    reachable w disks st -> exited st = false -> step w disks st st' ->
    reachable w disks st'.

(** [v] is the value of an entry of [disks] that stands for a device. *)
Definition listed (disks : list Item.t) (v : str) : Prop :=
  v <> [] /\ v <> txt "manual" /\ exists d, In d disks /\ Item.value d = v.

Definition session_invariant (disks : list Item.t) (st : App) : Prop :=
  (state st = MAIN_MENU <-> mode st = None)
  /\ (state st = MAIN_MENU ->
      source st = [] /\ destination st = [] /\ error st = [])
  /\ (mode st = Some RESTORE ->
      destination st = [] \/ listed disks (destination st))
  /\ (mode st = Some RESTORE ->
      state st <> SELECT_SOURCE -> state st <> SELECT_DEST ->
      destination st <> []).

(** ** The image picker

    [ImagePicker] lists the files whose name passes
    [/\.(img|img\.gz|iso|dmg)$/i].  Under the [i] flag two code units
    match when their upper cases are equal; below 256 only the letters
    [a] to [z] have an upper case that a letter of the pattern can
    equal, so [upper] maps those and leaves the rest.  [$] holds at the
    end of the name: [test_to_end r s] looks, from left to right, for a
    place where one of the ways [r] can match reaches the end of [s]. *)

Definition upper (c : ascii) : ascii :=
  if (97 <=? code_unit c)%nat && (code_unit c <=? 122)%nat
  then ascii_of_nat (code_unit c - 32)
  else c.

Definition Chr_i (c : ascii) : regex :=
  Class (fun x => Ascii.eqb (upper x) (upper c)).

Fixpoint Lit_chars_i (s : str) : regex :=
  match s with
  | [] => Eps
  | c :: s' => Cat (Chr_i c) (Lit_chars_i s')
  end.

Definition Lit_i (s : string) : regex := Lit_chars_i (txt s).

Fixpoint test_to_end (r : regex) (s : str) : bool :=
  existsb (fun m => negb (truthy (snd m))) (exec r s)
  || match s with
     | [] => false
     | _ :: s' => test_to_end r s'
     end.

(** [\.(img|img\.gz|iso|dmg)] under [i] *)
Definition re_image_name : regex :=
  Cat (Chr_i ".")
      (Group (Alt (Lit_i "img")
                  (Alt (Cat (Lit_i "img") (Cat (Chr_i ".") (Lit_i "gz")))
                       (Alt (Lit_i "iso") (Lit_i "dmg"))))).

Definition isImageName (name : str) : bool := test_to_end re_image_name name.

Definition imageExtensions : list str :=
  [txt "IMG"; txt "IMG.GZ"; txt "ISO"; txt "DMG"].

(** * Properties *)

Lemma is_zero_false (code : option Z) : code <> Some 0%Z -> is_zero code = false.
Proof.
  destruct code as [[| p | p] |]; simpl; intros H; try reflexivity.
  exfalso; apply H; reflexivity.
Qed.

Lemma is_zero_true (code : option Z) : is_zero code = true -> code = Some 0%Z.
Proof.
  destruct code as [[| p | p] |]; simpl; intros H; try discriminate; reflexivity.
Qed.

Ltac monad_simpl :=
  unfold run, on_end, bind, ret, gets, spawn, addLog, setLogs, setState, setError,
    setBytesWritten, setSpeed, setShrinkProgress, setMode, setSource,
    setDestination, uncaught; simpl.

(** ** The matcher against the language of a pattern *)

Section Matcher.

Lemma star_exec_self (p : ascii -> bool) (s : str) : In s (star_exec p s).
Proof.
  destruct s as [| c s]; simpl; [now left |].
  destruct (p c); [apply in_or_app; right |]; now left.
Qed.

Lemma star_exec_sound (p : ascii -> bool) (s s' : str) :
  In s' (star_exec p s) ->
  exists a, s = a ++ s' /\ Forall (fun c => p c = true) a.
Proof.
  revert s'; induction s as [| c s IH]; simpl; intros s' H.
  - destruct H as [<- | []]. exists []. split; [reflexivity | constructor].
  - destruct (p c) eqn:Hc.
    + apply in_app_or in H. destruct H as [H | [<- | []]].
      * destruct (IH _ H) as (a & -> & Ha).
        exists (c :: a). split; [reflexivity | now constructor].
      * exists []. split; [reflexivity | constructor].
    + destruct H as [<- | []]. exists []. split; [reflexivity | constructor].
Qed.

Lemma star_exec_complete (p : ascii -> bool) (a s' : str) :
  Forall (fun c => p c = true) a -> In s' (star_exec p (a ++ s')).
Proof.
  induction 1 as [| c a Hc _ IH]; simpl.
  - apply star_exec_self.
  - rewrite Hc. apply in_or_app. now left.
Qed.

Lemma consumed_app (a s' : str) : consumed (a ++ s') s' = a.
Proof.
  unfold consumed. rewrite length_app.
  replace (length a + length s' - length s') with (length a) by lia.
  rewrite firstn_app, firstn_all, Nat.sub_diag. simpl. apply app_nil_r.
Qed.

Lemma exec_sound (r : regex) :
  forall s g s', In (g, s') (exec r s) -> exists a, s = a ++ s' /\ parses r a g.
Proof.
  induction r as [| p | r1 IH1 r2 IH2 | r1 IH1 r2 IH2 | p | r IH];
    simpl; intros s g s' H.
  - destruct H as [H | []]. inversion H; subst.
    exists []. split; [reflexivity | constructor].
  - destruct s as [| c s]; [destruct H |].
    destruct (p c) eqn:Hc; [| destruct H].
    destruct H as [H | []]. inversion H; subst.
    exists [c]. split; [reflexivity | now constructor].
  - apply in_flat_map in H. destruct H as ([g1 s1] & H1 & H).
    apply in_map_iff in H. destruct H as ([g2 s2] & E & H2).
    simpl in E, H2. inversion E; subst.
    destruct (IH1 _ _ _ H1) as (a1 & -> & L1).
    destruct (IH2 _ _ _ H2) as (a2 & -> & L2).
    exists (a1 ++ a2). split; [now rewrite app_assoc | now constructor].
  - apply in_app_or in H. destruct H as [H | H].
    + destruct (IH1 _ _ _ H) as (a & -> & L).
      exists a. split; [reflexivity | now apply P_AltL].
    + destruct (IH2 _ _ _ H) as (a & -> & L).
      exists a. split; [reflexivity | now apply P_AltR].
  - apply in_map_iff in H. destruct H as (t & E & H). inversion E; subst.
    destruct (star_exec_sound _ _ _ H) as (a & -> & Ha).
    exists a. split; [reflexivity | now constructor].
  - apply in_map_iff in H. destruct H as ([g1 s1] & E & H). simpl in E.
    inversion E; subst.
    destruct (IH _ _ _ H) as (a & -> & L).
    exists a. split; [reflexivity |]. rewrite consumed_app. now constructor.
Qed.

Lemma exec_complete (r : regex) (a : str) (g : list str) :
  parses r a g -> forall s', In (g, s') (exec r (a ++ s')).
Proof.
  induction 1 as [| p c Hc | r1 r2 a b g1 g2 _ IH1 _ IH2 | r1 r2 a g _ IH
                  | r1 r2 a g _ IH | p a Ha | r a g _ IH]; intros s'; simpl.
  - now left.
  - rewrite Hc. now left.
  - rewrite <- app_assoc.
    apply in_flat_map. exists (g1, b ++ s'). split; [apply IH1 |].
    apply in_map_iff. exists (g2, s'). split; [reflexivity | apply IH2].
  - apply in_or_app. left. apply IH.
  - apply in_or_app. right. apply IH.
  - apply in_map_iff. exists s'. split; [reflexivity |].
    now apply star_exec_complete.
  - apply in_map_iff. exists (g, s'). split; [| apply IH].
    simpl. now rewrite consumed_app.
Qed.

Lemma exec_head (r : regex) (t : str) g s' l :
  exec r t = (g, s') :: l ->
  exists a, t = a ++ s' /\ consumed t s' = a /\ parses r a g.
Proof.
  intros E.
  assert (Hin : In (g, s') (exec r t)) by (rewrite E; now left).
  destruct (exec_sound _ _ _ _ Hin) as (a & -> & L).
  exists a. split; [reflexivity |]. split; [apply consumed_app | exact L].
Qed.

(** What [s.match(r)] returns is a match, and no match starts before
    it. *)
Lemma js_match_some (r : regex) (s : str) (m : MatchResult) :
  js_match r s = Some m ->
  exists a c,
    s = a ++ whole m ++ c
    /\ parses r (whole m) (groups m)
    /\ forall a' b' c', s = a' ++ b' ++ c' -> lang r b' -> length a <= length a'.
Proof.
  revert m. induction s as [| x s IH]; intros m; simpl.
  - destruct (exec r []) as [| [g s'] l] eqn:E; [discriminate |].
    intros H. injection H as <-. cbn [whole groups fst snd].
    destruct (exec_head _ _ _ _ _ E) as (a & Hs & Hc & L).
    exists [], s'. rewrite Hc.
    split; [exact Hs |]. split; [exact L |]. intros; simpl; lia.
  - destruct (exec r (x :: s)) as [| [g s'] l] eqn:E.
    + intros H. destruct (IH m H) as (a & c & -> & L & Hleft).
      exists (x :: a), c. split; [reflexivity |]. split; [exact L |].
      intros a' b' c' Hs (g' & L').
      destruct a' as [| y a'].
      * simpl in Hs. pose proof (exec_complete _ _ _ L' c') as Hin.
        rewrite <- Hs, E in Hin. destruct Hin.
      * simpl in Hs. injection Hs as _ Hs. simpl.
        apply le_n_S. apply (Hleft a' b' c' Hs). now exists g'.
    + intros H. injection H as <-. cbn [whole groups fst snd].
      destruct (exec_head _ _ _ _ _ E) as (a & Hs & Hc & L).
      exists [], s'. rewrite Hc.
      split; [exact Hs |]. split; [exact L |]. intros; simpl; lia.
Qed.

Lemma js_match_none (r : regex) (s : str) :
  js_match r s = None ->
  forall a b c, s = a ++ b ++ c -> ~ lang r b.
Proof.
  induction s as [| x s IH]; simpl.
  - destruct (exec r []) as [| m l] eqn:E; [| discriminate].
    intros _ a b c Hs (g & L).
    symmetry in Hs. apply app_eq_nil in Hs. destruct Hs as [-> Hs].
    apply app_eq_nil in Hs. destruct Hs as [-> ->].
    pose proof (exec_complete _ _ _ L []) as Hin. simpl in Hin.
    rewrite E in Hin. destruct Hin.
  - destruct (exec r (x :: s)) as [| m l] eqn:E; [| discriminate].
    intros H a b c Hs (g & L). destruct a as [| y a].
    + simpl in Hs. pose proof (exec_complete _ _ _ L c) as Hin.
      rewrite <- Hs, E in Hin. destruct Hin.
    + simpl in Hs. injection Hs as _ Hs.
      apply (IH H a b c Hs). now exists g.
Qed.

(** [s.match(r)] finds something exactly when some piece of [s] is in
    the language of [r]. *)
Lemma matches_spec (r : regex) (s : str) :
  matches r s = true <-> exists a b c, s = a ++ b ++ c /\ lang r b.
Proof.
  unfold matches. destruct (js_match r s) as [m |] eqn:E.
  - split; [intros _ | reflexivity].
    destruct (js_match_some _ _ _ E) as (a & c & Hs & L & _).
    exists a, (whole m), c. split; [exact Hs | now exists (groups m)].
  - split; [discriminate |]. intros (a & b & c & Hs & L).
    exfalso. exact (js_match_none _ _ E a b c Hs L).
Qed.

Lemma lang_Lit_chars (s a : str) : lang (Lit_chars s) a <-> a = s.
Proof.
  revert a; induction s as [| c s IH]; intros a; simpl.
  - split.
    + intros (g & H). now inversion H.
    + intros ->. exists []. constructor.
  - split.
    + intros (g & H). inversion H as [| | r1 r2 a1 a2 g1 g2 H1 H2 | | | |]; subst.
      inversion H1; subst.
      assert (L2 : lang (Lit_chars s) a2) by now exists g2.
      apply IH in L2. subst.
      match goal with Hc : Ascii.eqb _ _ = true |- _ =>
        apply Ascii.eqb_eq in Hc; subst end.
      reflexivity.
    + intros ->. destruct (proj2 (IH s) eq_refl) as (g & Hg).
      exists ([] ++ g). change (c :: s) with ([c] ++ s). constructor.
      * constructor. apply Ascii.eqb_refl.
      * exact Hg.
Qed.

End Matcher.

Section Languages.

Lemma lang_Cat (r1 r2 : regex) (a : str) :
  lang (Cat r1 r2) a <-> exists a1 a2, a = a1 ++ a2 /\ lang r1 a1 /\ lang r2 a2.
Proof.
  split.
  - intros (g & H). inversion H; subst.
    eexists _, _. split; [reflexivity |]. split; eexists; eassumption.
  - intros (a1 & a2 & -> & (g1 & H1) & (g2 & H2)).
    exists (g1 ++ g2). now constructor.
Qed.

Lemma lang_Alt (r1 r2 : regex) (a : str) :
  lang (Alt r1 r2) a <-> lang r1 a \/ lang r2 a.
Proof.
  split.
  - intros (g & H). inversion H; subst; [left | right]; eexists; eassumption.
  - intros [(g & H) | (g & H)]; exists g; [now apply P_AltL | now apply P_AltR].
Qed.

Lemma lang_Star (p : ascii -> bool) (a : str) :
  lang (Star p) a <-> Forall (fun c => p c = true) a.
Proof.
  split.
  - intros (g & H). now inversion H.
  - intros H. exists []. now constructor.
Qed.

Lemma lang_Group (r : regex) (a : str) : lang (Group r) a <-> lang r a.
Proof.
  split.
  - intros (g & H). inversion H; subst. eexists; eassumption.
  - intros (g & H). exists (a :: g). now constructor.
Qed.

Lemma lang_Class (p : ascii -> bool) (a : str) :
  lang (Class p) a <-> exists c, a = [c] /\ p c = true.
Proof.
  split.
  - intros (g & H). inversion H; subst. eauto.
  - intros (c & -> & H). exists []. now constructor.
Qed.

Lemma lang_Lit (s : string) (a : str) : lang (Lit s) a <-> a = txt s.
Proof. apply lang_Lit_chars. Qed.

Lemma lang_Plus (p : ascii -> bool) (a : str) :
  lang (Plus p) a <-> a <> [] /\ Forall (fun c => p c = true) a.
Proof.
  unfold Plus. rewrite lang_Cat. split.
  - intros (a1 & a2 & -> & H1 & H2). apply lang_Class in H1.
    destruct H1 as (c & -> & Hc). apply lang_Star in H2.
    split; [discriminate | now constructor].
  - intros (Hne & Ha). destruct a as [| c a]; [contradiction |].
    inversion Ha; subst. exists [c], a. split; [reflexivity |].
    split; [apply lang_Class; eauto | now apply lang_Star].
Qed.

Lemma lang_Opt (p : ascii -> bool) (a : str) :
  lang (Opt p) a <-> a = [] \/ exists c, a = [c] /\ p c = true.
Proof.
  unfold Opt. rewrite lang_Alt, lang_Class. split.
  - intros [H | (g & H)]; [now right | left; now inversion H].
  - intros [-> | H]; [right; exists []; constructor | now left].
Qed.

(** A disk identifier: the word disk and at least one digit, with the
    [r] of a raw device before it when there is one. *)
Lemma lang_disk (b : str) :
  lang re_disk b <->
  exists r ds,
    b = r ++ txt "disk" ++ ds
    /\ (r = [] \/ r = txt "r")
    /\ ds <> [] /\ Forall (fun c => is_digit c = true) ds.
Proof.
  unfold re_disk. rewrite lang_Cat. split.
  - intros (r & a2 & -> & H1 & H2).
    apply lang_Opt in H1. apply lang_Group, lang_Cat in H2.
    destruct H2 as (k & ds & -> & Hk & Hds).
    apply lang_Lit in Hk. apply lang_Plus in Hds. subst k.
    exists r, ds. split; [reflexivity |]. split; [| exact Hds].
    destruct H1 as [-> | (c & -> & Hc)]; [now left | right].
    apply Ascii.eqb_eq in Hc. now subst.
  - intros (r & ds & -> & Hr & Hds). exists r, (txt "disk" ++ ds).
    split; [reflexivity |]. split.
    + apply lang_Opt. destruct Hr as [-> | ->]; [now left | right].
      exists "r"%char. split; reflexivity.
    + apply lang_Group, lang_Cat. exists (txt "disk"), ds.
      split; [reflexivity |]. split; [now apply lang_Lit | now apply lang_Plus].
Qed.

Lemma lang_bytes_copied (b : str) :
  lang re_bytes_copied b <->
  exists m, b = txt "bytes" ++ m ++ txt "copied"
            /\ Forall (fun c => is_line_terminator c = false) m.
Proof.
  unfold re_bytes_copied. rewrite lang_Cat. split.
  - intros (a1 & a2 & -> & H1 & H2).
    apply lang_Lit in H1. apply lang_Cat in H2.
    destruct H2 as (m & a3 & -> & Hm & H3).
    apply lang_Lit in H3. apply lang_Star in Hm. subst.
    exists m. split; [reflexivity |].
    eapply Forall_impl; [| exact Hm]. unfold dot. intros c Hc.
    now apply negb_true_iff in Hc.
  - intros (m & -> & Hm). exists (txt "bytes"), (m ++ txt "copied").
    split; [reflexivity |]. split; [now apply lang_Lit |].
    apply lang_Cat. exists m, (txt "copied"). split; [reflexivity |].
    split; [| now apply lang_Lit]. apply lang_Star.
    eapply Forall_impl; [| exact Hm]. unfold dot. intros c Hc.
    now apply negb_true_iff.
Qed.

Lemma lang_records (b : str) :
  lang re_records b <-> b = txt "records in" \/ b = txt "records out".
Proof.
  unfold re_records. rewrite lang_Cat. split.
  - intros (a1 & a2 & -> & H1 & H2).
    apply lang_Lit in H1. apply lang_Group, lang_Alt in H2.
    destruct H2 as [H2 | H2]; apply lang_Lit in H2; subst; auto.
  - intros [-> | ->].
    + exists (txt "records "), (txt "in"). split; [reflexivity |].
      split; [now apply lang_Lit |].
      apply lang_Group, lang_Alt. left. now apply lang_Lit.
    + exists (txt "records "), (txt "out"). split; [reflexivity |].
      split; [now apply lang_Lit |].
      apply lang_Group, lang_Alt. right. now apply lang_Lit.
Qed.

End Languages.

(** ** The classification of a chunk *)

Lemma matches_bytes_copied (chunk : str) :
  matches re_bytes_copied chunk = true <-> bytes_copied_line chunk.
Proof.
  rewrite matches_spec. unfold bytes_copied_line. split.
  - intros (a & b & c & -> & L). apply lang_bytes_copied in L.
    destruct L as (m & -> & Hm). exists a, m, c. split; [| exact Hm].
    now rewrite <- !app_assoc.
  - intros (a & m & b & -> & Hm).
    exists a, (txt "bytes" ++ m ++ txt "copied"), b. split.
    + now rewrite <- !app_assoc.
    + apply lang_bytes_copied. now exists m.
Qed.

Lemma matches_records (chunk : str) :
  matches re_records chunk = true <-> records_line chunk.
Proof.
  rewrite matches_spec. unfold records_line, contains. split.
  - intros (a & b & c & -> & L). apply lang_records in L.
    destruct L as [-> | ->]; [left | right]; now exists a, c.
  - intros [(a & c & ->) | (a & c & ->)].
    + exists a, (txt "records in"), c. split; [reflexivity |].
      apply lang_records. now left.
    + exists a, (txt "records out"), c. split; [reflexivity |].
      apply lang_records. now right.
Qed.

(** C5. A chunk is classified as an error line exactly when it has
    neither the bytes ... copied shape nor the records in / records out
    shape; so a chunk of the form N+M records in (or out), whatever
    follows, is never an error line. *)
Theorem error_line_classification (chunk : str) :
  (isErrorLine chunk = true <->
   ~ bytes_copied_line chunk /\ ~ records_line chunk)
  /\ (forall n m direction rest,
        direction = txt "in" \/ direction = txt "out" ->
        chunk = n ++ txt "+" ++ m ++ txt " records " ++ direction ++ rest ->
        isErrorLine chunk = false).
Proof.
  assert (Hiff : isErrorLine chunk = true <->
                 ~ bytes_copied_line chunk /\ ~ records_line chunk).
  { unfold isErrorLine.
    rewrite andb_true_iff, !negb_true_iff, <- !not_true_iff_false.
    now rewrite matches_bytes_copied, matches_records. }
  split; [exact Hiff |].
  intros n m direction rest Hdir ->.
  apply not_true_iff_false. rewrite Hiff. intros [_ Hrec]. apply Hrec.
  destruct Hdir as [-> | ->]; [left | right];
    exists (n ++ txt "+" ++ m ++ txt " "), rest;
    now rewrite <- !app_assoc.
Qed.

Lemma error_line_classification_witness :
  isErrorLine (txt "5+0 records in") = false
  /\ isErrorLine (txt "1024+0 records out") = false.
Proof.
  split.
  - apply (proj2 (error_line_classification (txt "5+0 records in"))
                 (txt "5") (txt "0") (txt "in") []);
      [left; reflexivity | reflexivity].
  - apply (proj2 (error_line_classification (txt "1024+0 records out"))
                 (txt "1024") (txt "0") (txt "out") []);
      [right; reflexivity | reflexivity].
Defined.

(** ** The first match at a position *)

Section FirstMatch.

Lemma hd_error_app_some {A : Type} (l l' : list A) (x : A) :
  hd_error l = Some x -> hd_error (l ++ l') = Some x.
Proof. destruct l; [discriminate | trivial]. Qed.

Lemma star_exec_first (p : ascii -> bool) (d rest : str) :
  Forall (fun c => p c = true) d -> stops p rest ->
  hd_error (star_exec p (d ++ rest)) = Some rest.
Proof.
  intros Hd Hrest. induction Hd as [| c d Hc _ IH]; simpl.
  - destruct rest as [| c rest]; [reflexivity |].
    simpl in *. now rewrite Hrest.
  - rewrite Hc. now apply hd_error_app_some.
Qed.

Lemma first_Star (p : ascii -> bool) (d rest : str) :
  Forall (fun c => p c = true) d -> stops p rest ->
  hd_error (exec (Star p) (d ++ rest)) = Some ([], rest).
Proof.
  intros Hd Hrest. simpl.
  pose proof (star_exec_first p d rest Hd Hrest) as H.
  destruct (star_exec p (d ++ rest)); [discriminate |].
  simpl in *. now injection H as ->.
Qed.

Lemma first_Cat (r1 r2 : regex) (s s1 s2 : str) (g1 g2 : list str) :
  hd_error (exec r1 s) = Some (g1, s1) ->
  hd_error (exec r2 s1) = Some (g2, s2) ->
  hd_error (exec (Cat r1 r2) s) = Some (g1 ++ g2, s2).
Proof.
  simpl. destruct (exec r1 s) as [| m1 l1]; [discriminate |].
  simpl. intros H1. injection H1 as ->. simpl.
  destruct (exec r2 s1) as [| m2 l2]; [discriminate |].
  simpl. intros H2. now injection H2 as ->.
Qed.

Lemma first_Plus (p : ascii -> bool) (d rest : str) :
  d <> [] -> Forall (fun c => p c = true) d -> stops p rest ->
  hd_error (exec (Plus p) (d ++ rest)) = Some ([], rest).
Proof.
  intros Hne Hd Hrest. destruct d as [| c d]; [contradiction |].
  inversion Hd; subst. unfold Plus.
  apply (first_Cat (Class p) (Star p) _ (d ++ rest) rest [] []).
  - simpl. match goal with H : p c = true |- _ => now rewrite H end.
  - now apply first_Star.
Qed.

Lemma first_Lit_chars (s rest : str) :
  hd_error (exec (Lit_chars s) (s ++ rest)) = Some ([], rest).
Proof.
  induction s as [| c s IH]; [reflexivity |].
  apply (first_Cat (Chr c) (Lit_chars s) _ (s ++ rest) rest [] []);
    [| exact IH].
  simpl. now rewrite Ascii.eqb_refl.
Qed.

Lemma first_Group (r : regex) (a rest : str) (g : list str) :
  hd_error (exec r (a ++ rest)) = Some (g, rest) ->
  hd_error (exec (Group r) (a ++ rest)) = Some (a :: g, rest).
Proof.
  simpl. destruct (exec r (a ++ rest)) as [| m l]; [discriminate |].
  simpl. intros H. injection H as ->. simpl. now rewrite consumed_app.
Qed.

Lemma js_match_first (r : regex) (a rest : str) (g : list str) :
  hd_error (exec r (a ++ rest)) = Some (g, rest) ->
  js_match r (a ++ rest) = Some (mkMatch a g).
Proof.
  intros H.
  assert (E : exists l, exec r (a ++ rest) = (g, rest) :: l).
  { destruct (exec r (a ++ rest)) as [| m l]; [discriminate |].
    injection H as ->. now exists l. }
  destruct E as (l & E).
  destruct (a ++ rest) eqn:Es; simpl; rewrite E; simpl;
    rewrite <- Es, consumed_app; reflexivity.
Qed.

End FirstMatch.

Lemma space_not_digit (c : ascii) : is_space c = true -> is_digit c = false.
Proof.
  unfold is_space, is_digit. intros H.
  apply orb_true_iff in H. destruct H as [H | H].
  - apply orb_true_iff in H. destruct H as [H | H].
    + apply andb_true_iff in H. destruct H as [_ H].
      apply Nat.leb_le in H. apply andb_false_iff. left.
      apply Nat.leb_gt. lia.
    + apply Nat.eqb_eq in H. rewrite H. reflexivity.
  - apply Nat.eqb_eq in H. rewrite H. reflexivity.
Qed.

Lemma space_not_digit_or_dot (c : ascii) :
  is_space c = true -> digit_or_dot c = false.
Proof.
  intros H. unfold digit_or_dot. rewrite (space_not_digit c H). simpl.
  destruct (Ascii.eqb c ".") eqn:E; [| reflexivity].
  apply Ascii.eqb_eq in E. subst. discriminate H.
Qed.

Lemma stops_space_at_digit (d rest : str) :
  d <> [] -> Forall (fun c => is_space c = true) d -> stops is_digit (d ++ rest).
Proof.
  intros Hne Hd. destruct d as [| c d]; [contradiction |].
  inversion Hd; subst. simpl. now apply space_not_digit.
Qed.

(** The byte count at the head of a chunk is what [(\d+)\s+bytes]
    captures. *)
Lemma js_match_bytes_at_head (N ws rest : str) :
  N <> [] -> Forall (fun c => is_digit c = true) N ->
  ws <> [] -> Forall (fun c => is_space c = true) ws ->
  js_match re_bytes (N ++ ws ++ txt "bytes" ++ rest)
  = Some (mkMatch (N ++ ws ++ txt "bytes") [N]).
Proof.
  intros HN HNd Hws Hwsd.
  replace (N ++ ws ++ txt "bytes" ++ rest)
    with ((N ++ ws ++ txt "bytes") ++ rest) by now rewrite <- !app_assoc.
  apply js_match_first. rewrite <- !app_assoc. unfold re_bytes.
  apply (first_Cat _ _ _ (ws ++ txt "bytes" ++ rest) rest [N] []).
  - apply first_Group. apply first_Plus; [exact HN | exact HNd |].
    now apply stops_space_at_digit.
  - apply (first_Cat _ _ _ (txt "bytes" ++ rest) rest [] []).
    + apply first_Plus; [exact Hws | exact Hwsd | reflexivity].
    + apply first_Lit_chars.
Qed.

Lemma leading_digits_all (N : str) :
  Forall (fun c => is_digit c = true) N -> leading_digits N = N.
Proof.
  induction 1 as [| c N Hc _ IH]; simpl; [reflexivity |].
  now rewrite Hc, IH.
Qed.

Lemma parseInt_digits (N : str) :
  N <> [] -> Forall (fun c => is_digit c = true) N ->
  parseInt N = Some (to_double (digits_value N)).
Proof.
  intros HN Hd. destruct N as [| c N]; [contradiction |].
  pose proof (leading_digits_all _ Hd) as HL.
  inversion Hd as [| c' N' Hc HN']; subst.
  unfold parseInt. simpl trimStart.
  assert (Hs : is_space c = false).
  { destruct (is_space c) eqn:E; [| reflexivity].
    apply space_not_digit in E. congruence. }
  rewrite Hs.
  assert (Hm : Ascii.eqb c "-" = false).
  { destruct (Ascii.eqb c "-") eqn:E; [| reflexivity].
    apply Ascii.eqb_eq in E. subst. discriminate Hc. }
  assert (Hp : Ascii.eqb c "+" = false).
  { destruct (Ascii.eqb c "+") eqn:E; [| reflexivity].
    apply Ascii.eqb_eq in E. subst. discriminate Hc. }
  rewrite Hm, Hp, HL. reflexivity.
Qed.

(** ** Reading a pattern back from a match *)

Section Parses.

Lemma parses_Cat (r1 r2 : regex) (a : str) (g : list str) :
  parses (Cat r1 r2) a g ->
  exists a1 a2 g1 g2,
    a = a1 ++ a2 /\ g = g1 ++ g2 /\ parses r1 a1 g1 /\ parses r2 a2 g2.
Proof. inversion 1; subst. eexists _, _, _, _. eauto. Qed.

Lemma parses_Group (r : regex) (a : str) (g : list str) :
  parses (Group r) a g -> exists g', g = a :: g' /\ parses r a g'.
Proof. inversion 1; subst. eauto. Qed.

Lemma parses_Star (p : ascii -> bool) (a : str) (g : list str) :
  parses (Star p) a g -> g = [] /\ Forall (fun c => p c = true) a.
Proof. inversion 1; subst. auto. Qed.

Lemma parses_Class (p : ascii -> bool) (a : str) (g : list str) :
  parses (Class p) a g -> g = [] /\ exists c, a = [c] /\ p c = true.
Proof. inversion 1; subst. eauto. Qed.

Lemma parses_Plus (p : ascii -> bool) (a : str) (g : list str) :
  parses (Plus p) a g ->
  g = [] /\ a <> [] /\ Forall (fun c => p c = true) a.
Proof.
  intros H. apply parses_Cat in H.
  destruct H as (a1 & a2 & g1 & g2 & -> & -> & H1 & H2).
  apply parses_Class in H1. destruct H1 as (-> & c & -> & Hc).
  apply parses_Star in H2. destruct H2 as (-> & Ha).
  split; [reflexivity |]. split; [discriminate | now constructor].
Qed.

Lemma parses_Opt (p : ascii -> bool) (a : str) (g : list str) :
  parses (Opt p) a g ->
  g = [] /\ (a = [] \/ exists c, a = [c] /\ p c = true).
Proof.
  inversion 1 as [| | | r1 r2 a' g' H1 | r1 r2 a' g' H2 | |]; subst.
  - apply parses_Class in H1. destruct H1 as (-> & Hc). auto.
  - inversion H2; subst. auto.
Qed.

Lemma parses_Lit_chars (s a : str) (g : list str) :
  parses (Lit_chars s) a g -> a = s /\ g = [].
Proof.
  revert a g. induction s as [| c s IH]; intros a g H; simpl in H.
  - inversion H; subst. auto.
  - apply parses_Cat in H.
    destruct H as (a1 & a2 & g1 & g2 & -> & -> & H1 & H2).
    apply parses_Class in H1. destruct H1 as (-> & x & -> & Hx).
    apply Ascii.eqb_eq in Hx. subst x.
    destruct (IH _ _ H2) as (-> & ->). auto.
Qed.

(** A rate token: digits and dots, white space, an optional unit letter,
    then [B/s]; the groups are the number and the unit. *)
Lemma parses_speed (b : str) (g : list str) :
  parses re_speed b g ->
  exists d w u,
    b = d ++ w ++ u ++ txt "B/s"
    /\ g = [d; u ++ txt "B/s"]
    /\ d <> [] /\ Forall (fun c => digit_or_dot c = true) d
    /\ Forall (fun c => is_space c = true) w
    /\ (u = [] \/ exists c, u = [c] /\ one_of "MGK" c = true).
Proof.
  unfold re_speed. intros H.
  apply parses_Cat in H. destruct H as (d & a2 & g1 & g2 & -> & -> & H1 & H2).
  apply parses_Group in H1. destruct H1 as (g1' & -> & H1).
  apply parses_Plus in H1. destruct H1 as (-> & Hd & Hdd).
  apply parses_Cat in H2. destruct H2 as (w & a3 & g3 & g4 & -> & -> & H2 & H3).
  apply parses_Star in H2. destruct H2 as (-> & Hw).
  apply parses_Group in H3. destruct H3 as (g4' & -> & H3).
  apply parses_Cat in H3. destruct H3 as (u & a5 & g5 & g6 & -> & -> & H3 & H4).
  apply parses_Opt in H3. destruct H3 as (-> & Hu).
  apply parses_Lit_chars in H4. destruct H4 as (-> & ->).
  exists d, w, u. repeat split; assumption.
Qed.

Lemma speed_token (R ws' : str) :
  R <> [] -> Forall (fun c => digit_or_dot c = true) R ->
  Forall (fun c => is_space c = true) ws' ->
  lang re_speed (R ++ ws' ++ txt "MB/s").
Proof.
  intros HR HRd Hws. exists [R; txt "MB/s"]. unfold re_speed.
  apply (P_Cat _ _ R (ws' ++ txt "MB/s") [R] [txt "MB/s"]).
  - constructor. destruct R as [| c R]; [contradiction |].
    inversion HRd; subst.
    apply (P_Cat _ _ [c] R [] []); now constructor.
  - apply (P_Cat _ _ ws' (txt "MB/s") [] [txt "MB/s"]); [now constructor |].
    constructor.
    apply (P_Cat _ _ (txt "M") (txt "B/s") [] []).
    + apply P_AltL. now constructor.
    + destruct (proj2 (lang_Lit_chars (txt "B/s") (txt "B/s")) eq_refl) as (g & Hg).
      destruct (parses_Lit_chars _ _ _ Hg) as (_ & ->). exact Hg.
Qed.

End Parses.

(** ** Cutting texts *)

Section Cuts.

Context {A : Type}.

Lemma cut_before (l1 l2 p t : list A) :
  l1 ++ l2 = p ++ t -> length l1 <= length p ->
  exists x, p = l1 ++ x /\ l2 = x ++ t.
Proof.
  intros E Hlen. apply app_eq_app in E. destruct E as (l & [[E1 E2] | [E1 E2]]).
  - subst. rewrite length_app in Hlen.
    assert (l = []) by (destruct l; [reflexivity | simpl in Hlen; lia]).
    subst. exists []. rewrite !app_nil_r. auto.
  - exists l. auto.
Qed.

Lemma cut_after (l1 l2 p t : list A) :
  l1 ++ l2 = p ++ t -> length p <= length l1 ->
  exists y, l1 = p ++ y /\ t = y ++ l2.
Proof.
  intros E Hlen. symmetry in E.
  destruct (cut_before _ _ _ _ E Hlen) as (y & H1 & H2). eauto.
Qed.

(** A text is cut in one way only at the first place where a class
    ends. *)
Lemma span_unique (P : A -> bool) (l1 l2 t1 t2 : list A) (c1 c2 : A) :
  Forall (fun c => P c = true) l1 -> Forall (fun c => P c = true) l2 ->
  P c1 = false -> P c2 = false ->
  l1 ++ c1 :: t1 = l2 ++ c2 :: t2 ->
  l1 = l2 /\ c1 = c2 /\ t1 = t2.
Proof.
  intros H1. revert l2. induction H1 as [| x l1 Hx _ IH]; intros l2 H2 Hc1 Hc2 E.
  - destruct l2 as [| y l2]; simpl in E.
    + injection E as -> ->. auto.
    + injection E as -> _. inversion H2; subst. congruence.
  - destruct l2 as [| y l2]; simpl in E.
    + injection E as -> _. congruence.
    + injection E as -> E. inversion H2; subst.
      destruct (IH l2 ltac:(assumption) Hc1 Hc2 E) as (-> & -> & ->). auto.
Qed.

End Cuts.

Lemma unique_cut {A : Type} (c : A) (l1 l2 t1 t2 : list A) :
  ~ In c l1 -> ~ In c t1 ->
  l1 ++ c :: t1 = l2 ++ c :: t2 ->
  l1 = l2 /\ t1 = t2.
Proof.
  intros H1 Ht E. apply app_eq_app in E.
  destruct E as (l & [[E1 E2] | [E1 E2]]).
  - destruct l as [| x l]; simpl in E2.
    + injection E2 as ->. rewrite app_nil_r in E1. auto.
    + injection E2 as -> _. exfalso. apply H1. rewrite E1.
      apply in_or_app. right. now left.
  - destruct l as [| x l]; simpl in E2.
    + injection E2 as ->. rewrite app_nil_r in E1. auto.
    + injection E2 as -> E2. exfalso. apply Ht. rewrite E2.
      apply in_or_app. right. now left.
Qed.

Lemma digit_or_dot_not_space (c : ascii) :
  digit_or_dot c = true -> is_space c = false.
Proof.
  intros H. destruct (is_space c) eqn:E; [| reflexivity].
  apply space_not_digit_or_dot in E. congruence.
Qed.

(** A rate token that reaches over [R], white space and [MB/s] is the
    run of digits and dots ending in [R], that white space, and [MB/s]:
    nothing follows it. *)
Lemma speed_token_unique (d w u x R ws' y : str) :
  d <> [] -> Forall (fun c => digit_or_dot c = true) d ->
  Forall (fun c => is_space c = true) w ->
  (u = [] \/ exists c, u = [c] /\ one_of "MGK" c = true) ->
  R <> [] -> Forall (fun c => digit_or_dot c = true) R ->
  Forall (fun c => is_space c = true) ws' ->
  d ++ w ++ u ++ txt "B/s" = x ++ R ++ ws' ++ txt "MB/s" ++ y ->
  d = x ++ R /\ u = txt "M" /\ y = [].
Proof.
  intros Hd Hdd Hw Hu HR HRd Hws E.
  assert (Hslash : ~ In "/"%char (d ++ w ++ u ++ txt "B")).
  { intros Hin. apply in_app_or in Hin. destruct Hin as [Hin | Hin].
    - rewrite Forall_forall in Hdd. apply Hdd in Hin. discriminate Hin.
    - apply in_app_or in Hin. destruct Hin as [Hin | Hin].
      + rewrite Forall_forall in Hw. apply Hw in Hin. discriminate Hin.
      + apply in_app_or in Hin. destruct Hin as [Hin | Hin].
        * destruct Hu as [-> | (c & -> & Hc)]; [destruct Hin |].
          destruct Hin as [Hin | []]. subst c. discriminate Hc.
        * destruct Hin as [Hin | []]. discriminate Hin. }
  assert (E' : (d ++ w ++ u ++ txt "B") ++ "/"%char :: txt "s"
               = (x ++ R ++ ws' ++ txt "MB") ++ "/"%char :: (txt "s" ++ y)).
  { rewrite <- !app_assoc. exact E. }
  apply unique_cut in E'; [| exact Hslash | intros [F | []]; discriminate F].
  destruct E' as (E1 & E2).
  assert (Hy : y = []).
  { change (txt "s") with ["s"%char] in E2. simpl in E2. now injection E2. }
  assert (E3 : (d ++ w ++ u) ++ ["B"%char] = (x ++ R ++ ws' ++ txt "M") ++ ["B"%char]).
  { rewrite <- !app_assoc. exact E1. }
  apply app_inj_tail in E3. destruct E3 as (E3 & _).
  assert (HM : u = txt "M" /\ d ++ w = x ++ R ++ ws').
  { destruct Hu as [-> | (c & -> & Hc)].
    - exfalso. rewrite app_nil_r in E3.
      assert (Hin : In "M"%char (d ++ w)).
      { rewrite E3. rewrite !app_assoc. apply in_or_app. right. now left. }
      apply in_app_or in Hin. destruct Hin as [Hin | Hin].
      + rewrite Forall_forall in Hdd. apply Hdd in Hin. discriminate Hin.
      + rewrite Forall_forall in Hw. apply Hw in Hin. discriminate Hin.
    - assert (E4 : (d ++ w) ++ [c] = (x ++ R ++ ws') ++ ["M"%char]).
      { rewrite <- !app_assoc. exact E3. }
      apply app_inj_tail in E4. destruct E4 as (E4 & ->). auto. }
  destruct HM as (HuM & E5). split; [| split; assumption].
  apply (f_equal (@rev ascii)) in E5.
  rewrite !rev_app_distr in E5.
  destruct (rev d) as [| c1 t1] eqn:Erd.
  { exfalso. apply Hd. rewrite <- (rev_involutive d), Erd. reflexivity. }
  destruct (rev R) as [| c2 t2] eqn:ErR.
  { exfalso. apply HR. rewrite <- (rev_involutive R), ErR. reflexivity. }
  assert (Hc1 : is_space c1 = false).
  { apply digit_or_dot_not_space. rewrite Forall_forall in Hdd. apply Hdd.
    apply in_rev. rewrite Erd. now left. }
  assert (Hc2 : is_space c2 = false).
  { apply digit_or_dot_not_space. rewrite Forall_forall in HRd. apply HRd.
    apply in_rev. rewrite ErR. now left. }
  rewrite <- app_assoc in E5. simpl in E5.
  apply (span_unique is_space) in E5;
    [| now apply Forall_rev | now apply Forall_rev | exact Hc1 | exact Hc2].
  destruct E5 as (_ & -> & ->).
  rewrite <- (rev_involutive d), Erd.
  replace (c2 :: t2 ++ rev x) with (rev R ++ rev x) by now rewrite ErR.
  rewrite <- rev_app_distr. now rewrite rev_involutive.
Qed.

(** When no rate token ends before [R MB/s] does, the rate pattern finds
    that token, reaching back over the digits and dots that touch [R]. *)
Lemma js_match_speed_first_token (pre R ws' tail : str) :
  R <> [] -> Forall (fun c => digit_or_dot c = true) R ->
  Forall (fun c => is_space c = true) ws' ->
  matches re_speed (pre ++ R ++ ws' ++ txt "MB/") = false ->
  exists p0 x,
    pre = p0 ++ x /\ Forall (fun c => digit_or_dot c = true) x
    /\ js_match re_speed (pre ++ R ++ ws' ++ txt "MB/s" ++ tail)
       = Some (mkMatch (x ++ R ++ ws' ++ txt "MB/s") [x ++ R; txt "MB/s"]).
Proof.
  intros HR HRd Hws Hno.
  pose proof (speed_token R ws' HR HRd Hws) as L.
  assert (Hchunk : pre ++ R ++ ws' ++ txt "MB/s" ++ tail
                   = pre ++ (R ++ ws' ++ txt "MB/s") ++ tail)
    by now rewrite <- !app_assoc.
  destruct (js_match re_speed (pre ++ R ++ ws' ++ txt "MB/s" ++ tail))
    as [m |] eqn:E.
  2:{ exfalso. exact (js_match_none _ _ E _ _ _ Hchunk L). }
  destruct (js_match_some _ _ _ E) as (a & c & Hs & Hp & Hleft).
  pose proof (Hleft _ _ _ Hchunk L) as Ha.
  destruct (cut_before a (whole m ++ c) pre (R ++ ws' ++ txt "MB/s" ++ tail)
              (eq_sym Hs) Ha) as (x & Hpre & Hrest).
  assert (Hlen : length (x ++ R ++ ws' ++ txt "MB/s") <= length (whole m)).
  { destruct (Nat.le_gt_cases (length (x ++ R ++ ws' ++ txt "MB/s")) (length (whole m)))
      as [Hle | Hgt]; [exact Hle | exfalso].
    assert (Hcut : whole m ++ c = (x ++ R ++ ws' ++ txt "MB/") ++ txt "s" ++ tail).
    { rewrite Hrest, <- !app_assoc. reflexivity. }
    apply cut_before in Hcut.
    - destruct Hcut as (z & Hz & _).
      apply not_true_iff_false in Hno. apply Hno. apply matches_spec.
      exists a, (whole m), z. split; [| now exists (groups m)].
      rewrite Hpre, <- !app_assoc. f_equal. rewrite <- Hz.
      reflexivity.
    - rewrite !length_app in *.
      change (length (txt "MB/s")) with 4 in Hgt.
      change (length (txt "MB/")) with 3. lia. }
  assert (Hcut : whole m ++ c = (x ++ R ++ ws' ++ txt "MB/s") ++ tail).
  { rewrite Hrest, <- !app_assoc. reflexivity. }
  destruct (cut_after _ _ _ _ Hcut Hlen) as (y & Hwhole & _).
  destruct (parses_speed _ _ Hp) as (d & w & u & Hb & Hg & Hd & Hdd & Hw & Hu).
  assert (Eq : d ++ w ++ u ++ txt "B/s" = x ++ R ++ ws' ++ txt "MB/s" ++ y).
  { rewrite <- Hb, Hwhole, <- !app_assoc. reflexivity. }
  destruct (speed_token_unique d w u x R ws' y Hd Hdd Hw Hu HR HRd Hws Eq)
    as (-> & -> & ->).
  exists a, x. split; [exact Hpre |]. split.
  - apply Forall_app in Hdd. apply Hdd.
  - destruct m as [wh gs]. simpl in *. subst.
    rewrite app_nil_r. reflexivity.
Qed.

(** ** The progress line *)

Lemma digit_value_nonneg (c : ascii) : is_digit c = true -> (0 <= digit_value c)%Z.
Proof.
  unfold is_digit, digit_value. intros H. apply andb_true_iff in H.
  destruct H as [H _]. apply Nat.leb_le in H. lia.
Qed.

Lemma digits_value_nonneg (N : str) :
  Forall (fun c => is_digit c = true) N -> (0 <= digits_value N)%Z.
Proof.
  unfold digits_value. intros H.
  assert (G : forall acc, (0 <= acc)%Z ->
              (0 <= fold_left (fun (acc : Z) c => (10 * acc + digit_value c)%Z) N acc)%Z).
  { induction H as [| c N Hc _ IH]; intros acc Hacc; [exact Hacc |].
    cbn [fold_left]. apply IH. pose proof (digit_value_nonneg c Hc). lia. }
  apply G. lia.
Qed.

Lemma to_double_exact (v : Z) : (Z.abs v < two53)%Z -> to_double v = v.
Proof. unfold to_double. intros H. apply Z.ltb_lt in H. now rewrite H. Qed.

(** The tenths printed are the nearest to [bytes / 1024^2]. *)
Lemma tenths_of_MiB_nearest (v : Z) :
  (2 * Z.abs (10 * v - 1048576 * tenths_of_MiB v) <= 1048576)%Z.
Proof.
  unfold tenths_of_MiB.
  pose proof (Z.div_mod (10 * v + 524288) 1048576 ltac:(lia)) as H.
  pose proof (Z.mod_pos_bound (10 * v + 524288) 1048576 ltac:(lia)) as B.
  lia.
Qed.

(** Below 2^53 the amount is printed in plain digits. *)
Lemma mebibytes_toFixed1_below_two53 (v : Z) :
  (0 <= v < two53)%Z ->
  mebibytes_toFixed1 (Some v)
  = decimal (tenths_of_MiB v / 10) ++ txt "." ++ decimal (tenths_of_MiB v mod 10).
Proof.
  intros (Hv0 & Hv). unfold mebibytes_toFixed1.
  assert (Hneg : (v <? 0)%Z = false) by (apply Z.ltb_ge; lia).
  assert (Hinf : (infinity <=? v)%Z = false).
  { apply Z.leb_gt. apply (Z.lt_trans _ two53); [exact Hv | reflexivity]. }
  assert (Hexp : (10 ^ 21 * 1048576 <=? v)%Z = false).
  { apply Z.leb_gt. apply (Z.lt_trans _ two53); [exact Hv | reflexivity]. }
  rewrite Hneg, Z.abs_eq, Hinf, Hexp by lia. reflexivity.
Qed.

(** C6, as the program has it.  Take a chunk that begins with the digits
    [N], white space and the word bytes, goes on with the word copied and
    has later a number [R] followed by [MB/s], where [N] is below 2^53
    and no rate token ends before [R MB/s] does.  Then the byte count
    read is [N]; the rate text is the digits and dots ending in [R]
    followed by a blank and [MB/s], so it contains [R]; and the callback
    shows [N / 1024^2] rounded to the nearest tenth, followed by [MB]. *)
Theorem progress_chunk_parsed (N ws m1 m2 R ws' tail lastError : str) (st : App) :
  let pre := N ++ ws ++ txt "bytes" ++ m1 ++ txt "copied" ++ m2 in
  let chunk := pre ++ R ++ ws' ++ txt "MB/s" ++ tail in
  let v := digits_value N in
  let n := tenths_of_MiB v in
  let st' := snd (copy_stderr_data chunk lastError st) in
  N <> [] -> Forall (fun c => is_digit c = true) N ->
  ws <> [] -> Forall (fun c => is_space c = true) ws ->
  R <> [] -> Forall (fun c => digit_or_dot c = true) R ->
  Forall (fun c => is_space c = true) ws' ->
  (v < two53)%Z ->
  matches re_speed (pre ++ R ++ ws' ++ txt "MB/") = false ->
  bytes chunk = Some (Some v)
  /\ (exists x,
         Forall (fun c => digit_or_dot c = true) x
         /\ rateText chunk = Some (x ++ R ++ txt " MB/s")
         /\ speed st' = x ++ R ++ txt " MB/s")
  /\ bytesWritten st' = decimal (n / 10) ++ txt "." ++ decimal (n mod 10) ++ txt " MB"
  /\ (2 * Z.abs (10 * v - 1048576 * n) <= 1048576)%Z.
Proof.
  intros pre chunk v n st' HN HNd Hws Hwsd HR HRd Hws' Hv Hno.
  pose proof (digits_value_nonneg N HNd) as Hv0. fold v in Hv0.
  assert (Hbytes : bytes chunk = Some (Some v)).
  { unfold bytes, chunk, pre. rewrite <- !app_assoc.
    rewrite (js_match_bytes_at_head N ws _ HN HNd Hws Hwsd).
    unfold group. simpl nth. rewrite (parseInt_digits N HN HNd).
    rewrite to_double_exact; [reflexivity |]. fold v. lia. }
  destruct (js_match_speed_first_token pre R ws' tail HR HRd Hws' Hno)
    as (p0 & x & _ & Hx & Hm).
  assert (Hrate : rateText chunk = Some (x ++ R ++ txt " MB/s")).
  { unfold rateText, chunk. rewrite Hm. unfold group. simpl nth.
    now rewrite <- app_assoc. }
  split; [exact Hbytes |]. split; [| split].
  - exists x. split; [exact Hx |]. split; [exact Hrate |].
    unfold st', copy_stderr_data. rewrite Hbytes, Hrate. reflexivity.
  - unfold st', copy_stderr_data. rewrite Hbytes, Hrate.
    rewrite (mebibytes_toFixed1_below_two53 v) by (split; [exact Hv0 | exact Hv]).
    monad_simpl. fold n. now rewrite <- !app_assoc.
  - apply tenths_of_MiB_nearest.
Qed.

Lemma progress_chunk_parsed_witness :
  let chunk := txt "1234567890 bytes (1.2 GB, 1.1 GiB) copied, 10.5 s, 123 MB/s" in
  bytes chunk = Some (Some 1234567890%Z)
  /\ bytesWritten (snd (copy_stderr_data chunk [] initialApp)) = txt "1177.4 MB".
Proof.
  intros chunk.
  assert (D : forall s, Forall (fun c => is_digit c = true) (txt s) <->
                        forallb is_digit (txt s) = true).
  { intros s. rewrite forallb_forall, Forall_forall. reflexivity. }
  destruct (progress_chunk_parsed
              (txt "1234567890") (txt " ") (txt " (1.2 GB, 1.1 GiB) ")
              (txt ", 10.5 s, ") (txt "123") (txt " ") [] [] initialApp)
    as (H1 & _ & H3 & _).
  - discriminate.
  - apply D. reflexivity.
  - discriminate.
  - repeat constructor.
  - discriminate.
  - repeat constructor.
  - repeat constructor.
  - reflexivity.
  - reflexivity.
  - split; [exact H1 | exact H3].
Defined.

(** Why the byte count is bounded: from 2^53 on, [parseInt] rounds. *)
Remark byte_count_rounded :
  bytes (txt "9007199254740993 bytes copied") = Some (Some 9007199254740992%Z).
Proof. reflexivity. Qed.

(** C6 fails as it is written.  Two progress reports of [dd] arrive in
    one chunk: the chunk has the shape of the claim with [R] the second
    rate, and the rate text is the first rate, in which [R] does not
    occur. *)
Lemma merged_chunk_first_rate :
  let N := txt "1048576" in
  let m1 := txt " (1.0 MB, 1.0 MiB) " in
  let m2 := txt ", 1 s, 1.0 MB/s" ++ [ascii_of_nat 13]
              ++ txt "2097152 bytes (2.1 MB, 2.0 MiB) copied, 2 s, " in
  let R := txt "2.1" in
  let chunk := N ++ txt " " ++ txt "bytes" ++ m1 ++ txt "copied" ++ m2
                 ++ R ++ txt " " ++ txt "MB/s" in
  rateText chunk = Some (txt "1.0 MB/s")
  /\ ~ contains R (txt "1.0 MB/s").
Proof.
  intros N m1 m2 R chunk. split; [reflexivity |].
  intros (a & b & H). unfold R, txt in H. simpl in H.
  do 8 (destruct a as [| ? a]; simpl in H; [discriminate H | injection H as _ H]).
  destruct a; discriminate H.
Qed.

(** Byte counts beyond the exact range of a double: the count is read as
    the nearest double, and the amount is in exponent form from 10^21
    mebibytes on and [Infinity] when the count itself is read as that. *)
Example amounts_of_large_counts :
  map (fun N => mebibytes_toFixed1 (parseInt N))
      [txt "1572864"; txt "9007199254740993";
       txt "123456789012345678901234567890";
       txt "1" ++ repeat "0"%char 400]
  = [txt "1.5"; txt "8589934592.0"; txt "1.177375688670594e+23"; txt "Infinity"].
Proof. vm_compute. reflexivity. Qed.

(** ** The privilege check *)

(** C3. When the privilege check exits with a code other than 0, a backup
    and a restore both go from VALIDATING straight to ERROR, the reason
    contains the words authentication failed, and the check itself is the
    only process the run has started: neither an unmount nor a copy. *)
Theorem privilege_failure_aborts (w : World) (st : App) (code : option Z) :
  ending (child w sudoCheckCmd) = on_close code ->
  code <> Some 0%Z ->
  forall st', st' = run (validateAndBackup w) st \/ st' = run (validateAndRestore w) st ->
    state st' = ERROR
    /\ contains (txt "authentication failed") (error st')
    /\ visited st' = visited st ++ [VALIDATING; ERROR]
    /\ spawned st' = spawned st ++ [sudoCheckCmd].
Proof.
  intros Hend Hcode st' Hst'.
  apply is_zero_false in Hcode.
  assert (E : run (validateAndBackup w) st = run (validateAndRestore w) st).
  { unfold validateAndBackup, validateAndRestore. monad_simpl.
    rewrite Hend, Hcode. reflexivity. }
  assert (Hb : st' = run (validateAndBackup w) st) by (destruct Hst'; congruence).
  clear Hst' E. subst st'.
  unfold validateAndBackup. monad_simpl. rewrite Hend, Hcode. simpl.
  repeat split.
  - exists (txt "sudo "), (txt ". Please run with sudo access."). reflexivity.
  - rewrite <- app_assoc. reflexivity.
Qed.

Lemma privilege_failure_aborts_witness :
  let w := with_child quiet_mac sudoCheckCmd (exits 1) in
  let st' := run (validateAndBackup w) (backup_of "/dev/rdisk9" "/tmp/out.img") in
  state st' = ERROR /\ spawned st' = [sudoCheckCmd].
Proof.
  intros w st'.
  destruct (privilege_failure_aborts w (backup_of "/dev/rdisk9" "/tmp/out.img")
              (Some 1%Z) eq_refl
              (fun H => eq_ind (Some 1%Z)
                          (fun c => match c with Some 1%Z => True | _ => False end)
                          I _ H)
              st' (or_introl eq_refl))
    as (H1 & _ & _ & H4).
  exact (conj H1 H4).
Defined.

(** ** What the stages leave alone *)

Section Frames.

Context {X L : Type} (f : App -> X) (h : Output -> L -> M L).
Hypothesis h_keeps : forall o l st, f (snd (h o l st)) = f st.

Lemma each_output_keeps (os : list Output) :
  forall l st, f (snd (each_output h os l st)) = f st.
Proof.
  induction os as [| o os IH]; intros l st; simpl; [reflexivity |].
  unfold bind. specialize (h_keeps o l st).
  destruct (h o l st) as [l' st1]. simpl in h_keeps.
  now rewrite IH.
Qed.

End Frames.

Lemma copy_data_control (o : Output) (l : str) (st : App) :
  control (snd (copy_data o l st)) = control st.
Proof.
  destruct o as [data | data]; simpl.
  - unfold copy_stdout_data. destruct (truthy (trim data)); reflexivity.
  - unfold copy_stderr_data.
    destruct (bytes data), (rateText data); reflexivity.
Qed.

Lemma pishrink_data_control (o : Output) (l : unit) (st : App) :
  control (snd (pishrink_data o l st)) = control st.
Proof. destruct o; reflexivity. Qed.

Lemma pishrink_data_metrics (o : Output) (l : unit) (st : App) :
  metrics (snd (pishrink_data o l st)) = metrics st.
Proof. destruct o; reflexivity. Qed.

Lemma unmount_data_control (o : Output) (l : str) (st : App) :
  control (snd (unmount_data o l st)) = control st.
Proof. destruct o; reflexivity. Qed.

Lemma unmount_data_metrics (o : Output) (l : str) (st : App) :
  metrics (snd (unmount_data o l st)) = metrics st.
Proof. destruct o; reflexivity. Qed.

Lemma control_fields (a b : App) :
  control a = control b ->
  mode a = mode b /\ source a = source b /\ destination a = destination b
  /\ state a = state b /\ error a = error b /\ visited a = visited b
  /\ spawned a = spawned b /\ unhandled a = unhandled b.
Proof. unfold control. intros H. inversion H. repeat split; assumption. Qed.

Lemma control_tuple (a : App) m s d q e v sp u :
  control a = (m, s, d, q, e, v, sp, u) ->
  mode a = m /\ source a = s /\ destination a = d /\ state a = q
  /\ error a = e /\ visited a = v /\ spawned a = sp /\ unhandled a = u.
Proof. unfold control. intros H. inversion H. repeat split. Qed.

Lemma inputs_fields (a b : App) :
  inputs a = inputs b ->
  mode a = mode b /\ source a = source b /\ destination a = destination b.
Proof. unfold inputs. intros H. injection H as Hm Hs Hd. auto. Qed.

(** Runs the [data] callbacks of the child at hand and names what they
    leave: the state [st2], with [control st2] known. *)
Ltac feed_output lem l st2 H :=
  match goal with
  | |- context [each_output ?h ?os ?l0 ?st1] =>
      let E := fresh "E" in
      pose proof (each_output_keeps control h lem os l0 st1) as H;
      destruct (each_output h os l0 st1) as [l st2] eqn:E; clear E;
      simpl in H; apply control_fields in H; simpl in H;
      destruct H as (? & ? & ? & ? & ? & ? & ? & ?)
  end.

Lemma each_output_copy_data_value (os : list Output) :
  forall l st, fst (each_output copy_data os l st) = fold_left keep_error os l.
Proof.
  induction os as [| o os IH]; intros l st; simpl; [reflexivity |].
  unfold bind.
  assert (H : fst (copy_data o l st) = keep_error l o).
  { destruct o as [data | data]; simpl.
    - unfold copy_stdout_data, bind. destruct (truthy (trim data)); reflexivity.
    - unfold copy_stderr_data, bind.
      destruct (bytes data), (rateText data); reflexivity. }
  destruct (copy_data o l st) as [l' st1]. simpl in H. subst l'. apply IH.
Qed.

(** As [feed_output] for the copy child, with the value of [lastError]. *)
Ltac feed_copy l st2 :=
  match goal with
  | |- context [each_output copy_data ?os ?l0 ?st1] =>
      let E := fresh "E" in
      let H := fresh "H" in
      let V := fresh "Hlast" in
      pose proof (each_output_keeps control copy_data copy_data_control os l0 st1) as H;
      pose proof (each_output_copy_data_value os l0 st1) as V;
      destruct (each_output copy_data os l0 st1) as [l st2] eqn:E; clear E;
      simpl in H, V; apply control_fields in H; simpl in H;
      destruct H as (? & ? & ? & ? & ? & ? & ? & ?)
  end.

(** ** The stages, one after the other *)

Lemma zero_exit_spec (p : Process) :
  zero_exit p = true <-> ending p = on_close (Some 0%Z).
Proof.
  unfold zero_exit. destruct (ending p) as [code | message errno].
  - split; [intros H; now rewrite (is_zero_true code H) | intros H].
    injection H as ->. reflexivity.
  - split; discriminate.
Qed.

(** A stage that follows a few steps of its caller. *)
Lemma follows_after (st X st' : App) (s1 s2 : list STATES) (c1 c2 : list Cmd)
      (o : Outcome) :
  visited X = visited st ++ s1 -> spawned X = spawned st ++ c1 ->
  inputs X = inputs st -> error X = error st ->
  follows X st' s2 c2 o -> follows st st' (s1 ++ s2) (c1 ++ c2) o.
Proof.
  intros Hv Hs Hi He (Hv' & Hs' & Hi' & Ho). split; [| split; [| split]].
  - rewrite Hv', Hv, app_assoc. reflexivity.
  - rewrite Hs', Hs, app_assoc. reflexivity.
  - congruence.
  - destruct o; simpl in *; destruct Ho; split; congruence.
Qed.

(** The same stage run a second time, in the same world. *)
Lemma follows_twice (st st1 X st2 : App) (s : list STATES) (c : list Cmd)
      (o : Outcome) :
  follows st st1 s c o ->
  visited X = visited st1 -> spawned X = spawned st1 ->
  inputs X = inputs st1 -> error X = error st1 ->
  follows X st2 s c o -> follows st st2 (s ++ s) (c ++ c) o.
Proof.
  intros (Hv1 & Hs1 & Hi1 & Ho1) Hv Hs Hi He (Hv2 & Hs2 & Hi2 & Ho2).
  split; [| split; [| split]].
  - rewrite Hv2, Hv, Hv1, app_assoc. reflexivity.
  - rewrite Hs2, Hs, Hs1, app_assoc. reflexivity.
  - congruence.
  - destruct o; simpl in *; destruct Ho1, Ho2; split; congruence.
Qed.

Ltac follows_fields :=
  simpl;
  try match goal with
      | H : visited _ = _ |- visited _ = _ => rewrite H
      | H : spawned _ = _ |- spawned _ = _ => rewrite H
      end;
  rewrite <- ?app_assoc, ?app_nil_r; simpl;
  first [ reflexivity | assumption | unfold inputs; simpl; congruence
        | congruence ].

(** Goes on with a stage whose description is [lem], after the states
    [s1] and the children [c1] of the caller. *)
Ltac follow_on lem s1 c1 :=
  match goal with
  | |- follows ?st (snd (?f ?X)) _ _ _ =>
      first [ refine (follows_after st X _ s1 _ c1 _ _ _ _ _ _ (lem _ X _ _ _ _))
            | refine (follows_after st X _ s1 _ c1 _ _ _ _ _ _ (lem _ X _ _)) ];
      follows_fields
  end.

Ltac follows_here :=
  unfold follows, outcome_of, inputs; simpl;
  repeat match goal with
         | |- _ /\ _ => split
         | H : visited _ = _ |- visited _ ++ _ = _ => rewrite H
         | H : spawned _ = _ |- spawned _ ++ _ = _ => rewrite H
         | H : visited _ = _ |- (visited _ ++ _) ++ _ = _ => rewrite H
         end;
  rewrite <- ?app_assoc; simpl; try congruence.

Lemma runShrink_follows (w : World) (st : App) (dst : str) :
  destination st = dst ->
  follows st (run (runShrink w) st) (shrink_states w dst) [pishrinkCmd dst] Completed.
Proof.
  intros <-. unfold runShrink, shrink_states, fails_to_start. monad_simpl.
  feed_output pishrink_data_control l st2 H.
  destruct (ending (child w (pishrinkCmd (destination st)))) as [code | message errno];
    [destruct (is_zero code) |]; follows_here.
Qed.

Lemma runPishrink_follows (w : World) (st : App) (dst : str) :
  destination st = dst ->
  follows st (run (runPishrink w) st) (pishrink_states w dst)
          (shrink_commands w dst) (pishrink_outcome w).
Proof.
  intros <-.
  unfold runPishrink, pishrink_states, shrink_commands, pishrink_outcome,
    zero_exit, fails_to_start.
  monad_simpl.
  destruct (existsSync w pishrinkPath); simpl.
  - follow_on runShrink_follows [SHRINKING] (@nil Cmd).
  - destruct (ending (child w downloadCmd)) as [code | message errno];
      [destruct (is_zero code) |]; simpl.
    + follow_on runShrink_follows [SHRINKING] [downloadCmd].
    + follows_here.
    + follows_here.
Qed.

Lemma runBackup_follows (w : World) (st : App) (src dst : str) :
  source st = src -> destination st = dst ->
  follows st (run (runBackup w) st) (copy_states w src dst)
          (copy_commands w src dst) (copy_outcome w src dst).
Proof.
  intros <- <-.
  unfold runBackup, copy_states, copy_commands, copy_outcome, failed_states,
    zero_exit, fails_to_start, close_code.
  monad_simpl. feed_copy lastError st2.
  destruct (ending (child w (ddCmd w (source st) (destination st))))
    as [code | message errno]; [destruct (is_zero code) |]; simpl.
  - follow_on runPishrink_follows [BACKING_UP]
              [ddCmd w (source st) (destination st)].
  - follows_here. unfold failure_reason. now rewrite Hlast.
  - follows_here. unfold failure_reason. now rewrite Hlast.
Qed.

Lemma checkSourceAndBackup_follows (w : World) (st : App) (src dst : str) :
  source st = src -> destination st = dst ->
  follows st (run (checkSourceAndBackup w) st) (probe_states w src dst)
          (probe_commands w src dst) (probe_outcome w src dst).
Proof.
  intros <- <-.
  unfold checkSourceAndBackup, probe_states, probe_commands, probe_outcome,
    failed_states, zero_exit, fails_to_start.
  monad_simpl.
  destruct (ending (child w (probeCmd (source st)))) as [code | message errno];
    [destruct (is_zero code) |]; simpl.
  - follow_on runBackup_follows (@nil STATES) [probeCmd (source st)].
  - follows_here.
  - follows_here.
Qed.

Lemma runRestore_follows (w : World) (st : App) (src dst : str) :
  source st = src -> destination st = dst ->
  follows st (run (runRestore w) st) (restore_copy_states w src dst)
          [restoreCmd w src dst] (restore_copy_outcome w src dst).
Proof.
  intros <- <-.
  unfold runRestore, restore_copy_states, restore_copy_outcome, restoreCmd,
    failed_states, zero_exit, fails_to_start, close_code.
  monad_simpl.
  destruct (isGzipped (source st)); monad_simpl; feed_copy lastError st2;
    match goal with |- context [ending ?p] =>
      destruct (ending p) as [code | message errno]; [destruct (is_zero code) |]
    end; follows_here; unfold failure_reason; now rewrite Hlast.
Qed.

(** The device path of the validation and what became of its unmount
    child. *)
Lemma unmount_spawned_cases (w : World) (path : str) :
  (unmount_spawned w path = [] /\ unmount_fails_to_start w path = false)
  \/ exists diskName,
      unmount_spawned w path = [unmountCmd diskName]
      /\ unmount_fails_to_start w path = fails_to_start (child w (unmountCmd diskName)).
Proof.
  unfold unmount_fails_to_start, unmount_spawned.
  destruct (js_match re_disk path) as [diskMatch |]; [| now left].
  destruct (str_eqb (platform w) darwin); [| now left].
  right. exists (group 1 diskMatch). split; [reflexivity |].
  simpl. apply orb_false_r.
Qed.

(** After a successful privilege check a backup goes on with
    [checkSourceAndBackup] from a state that, whatever the unmount child
    did, differs from the one it started in only by the log, by
    VALIDATING and by the children started.  When the unmount child
    cannot be started, [checkSourceAndBackup] is run again, after one
    more line of the log, from where its first run ended. *)
Lemma validateAndBackup_unmounted (w : World) (st : App) :
  ending (child w sudoCheckCmd) = on_close (Some 0%Z) ->
  exists st1 message,
    control st1
    = (mode st, source st, destination st, VALIDATING, error st,
       visited st ++ [VALIDATING],
       spawned st ++ sudoCheckCmd :: unmount_spawned w (source st),
       unhandled st)
    /\ metrics st1 = metrics st
    /\ run (validateAndBackup w) st
       = if unmount_fails_to_start w (source st)
         then run (checkSourceAndBackup w)
                  (run (addLog message) (run (checkSourceAndBackup w) st1))
         else run (checkSourceAndBackup w) st1.
Proof.
  intros Hsudo.
  unfold validateAndBackup, unmount_fails_to_start, unmount_spawned, fails_to_start.
  monad_simpl. rewrite Hsudo. simpl.
  destruct (js_match re_disk (source st)) as [diskMatch |];
    [destruct (str_eqb (platform w) darwin) |]; simpl;
    try (eexists; exists []; refine (conj _ (conj _ _)); [| | reflexivity]; reflexivity).
  match goal with
  | |- context [each_output ?h ?os ?l0 ?st1] =>
      pose proof (each_output_keeps control h unmount_data_control os l0 st1) as Hc;
      pose proof (each_output_keeps metrics h unmount_data_metrics os l0 st1) as Hm;
      destruct (each_output h os l0 st1) as [unmountError st2]
  end.
  simpl in Hc, Hm. rewrite <- app_assoc in Hc. simpl in Hc.
  destruct (ending (child w (unmountCmd (group 1 diskMatch)))) as [code | message errno];
    [destruct (is_zero code) |]; simpl.
  - eexists; exists []; refine (conj _ (conj _ _)); [| | reflexivity];
      [exact Hc | exact Hm].
  - eexists; exists []; refine (conj _ (conj _ _)); [| | reflexivity];
      [exact Hc | exact Hm].
  - match goal with |- context [checkSourceAndBackup w ?X] => exists X end.
    exists (txt "Unmount warning: "
              ++ or_else (trim unmountError) (txt "disk may already be unmounted")).
    split; [exact Hc |]. split; [exact Hm |].
    match goal with
    | |- context [checkSourceAndBackup w ?X] =>
        destruct (checkSourceAndBackup w X); reflexivity
    end.
Qed.

Lemma validateAndRestore_unmounted (w : World) (st : App) :
  ending (child w sudoCheckCmd) = on_close (Some 0%Z) ->
  exists st1 message,
    control st1
    = (mode st, source st, destination st, VALIDATING, error st,
       visited st ++ [VALIDATING],
       spawned st ++ sudoCheckCmd :: unmount_spawned w (destination st),
       unhandled st)
    /\ metrics st1 = metrics st
    /\ run (validateAndRestore w) st
       = if unmount_fails_to_start w (destination st)
         then run (runRestore w) (run (addLog message) (run (runRestore w) st1))
         else run (runRestore w) st1.
Proof.
  intros Hsudo.
  unfold validateAndRestore, unmount_fails_to_start, unmount_spawned, fails_to_start.
  monad_simpl. rewrite Hsudo. simpl.
  destruct (js_match re_disk (destination st)) as [diskMatch |];
    [destruct (str_eqb (platform w) darwin) |]; simpl;
    try (eexists; exists []; refine (conj _ (conj _ _)); [| | reflexivity]; reflexivity).
  destruct (ending (child w (unmountCmd (group 1 diskMatch)))) as [code | message errno];
    [destruct (is_zero code) |]; simpl.
  - eexists; exists []; refine (conj _ (conj _ _)); [| | reflexivity];
      [unfold control; simpl; now rewrite <- app_assoc | reflexivity].
  - eexists; exists []; refine (conj _ (conj _ _)); [| | reflexivity];
      [unfold control; simpl; now rewrite <- app_assoc | reflexivity].
  - match goal with |- context [runRestore w ?X] => exists X end.
    exists (txt "Unmount warning: disk may already be unmounted").
    split; [unfold control; simpl; now rewrite <- app_assoc |].
    split; [reflexivity |].
    match goal with
    | |- context [runRestore w ?X] => destruct (runRestore w X); reflexivity
    end.
Qed.

Lemma follows_inputs (st st' : App) s c o :
  follows st st' s c o -> source st' = source st /\ destination st' = destination st.
Proof. intros (_ & _ & Hi & _). apply inputs_fields in Hi. tauto. Qed.

(** What comes after the privilege check, once or twice. *)
Lemma follows_unmounted (stage : M unit) (st st1 : App) (message : str)
      (again : bool) (unmounts : list Cmd) (s : list STATES) (c : list Cmd)
      (o : Outcome) :
  control st1
  = (mode st, source st, destination st, VALIDATING, error st,
     visited st ++ [VALIDATING], spawned st ++ sudoCheckCmd :: unmounts,
     unhandled st) ->
  (forall X, source X = source st -> destination X = destination st ->
             follows X (run stage X) s c o) ->
  follows st
          (if again
           then run stage (run (addLog message) (run stage st1))
           else run stage st1)
          (VALIDATING :: twice_if again s)
          (sudoCheckCmd :: unmounts ++ twice_if again c) o.
Proof.
  intros Hc Hstage. apply control_tuple in Hc.
  destruct Hc as (Hmo & Hsrc & Hdst & _ & Herr & Hv & Hsp & _).
  assert (F1 := Hstage st1 Hsrc Hdst).
  refine (follows_after st st1 _ [VALIDATING] _ (sudoCheckCmd :: unmounts) _ _
            Hv Hsp _ Herr _).
  { unfold inputs. congruence. }
  destruct again; unfold twice_if; [| exact F1].
  destruct (follows_inputs _ _ _ _ _ F1) as (Hs1 & Hd1).
  refine (follows_twice st1 (run stage st1) _ _ _ _ _ F1 _ _ _ _ (Hstage _ _ _));
    try reflexivity; simpl; congruence.
Qed.

Lemma validateAndBackup_follows (w : World) (st : App) :
  follows st (run (validateAndBackup w) st)
          (backup_states w (source st) (destination st))
          (backup_commands w (source st) (destination st))
          (backup_outcome w (source st) (destination st)).
Proof.
  unfold backup_states, backup_commands, backup_outcome.
  destruct (zero_exit (child w sudoCheckCmd)) eqn:Hz.
  - apply zero_exit_spec in Hz.
    destruct (validateAndBackup_unmounted w st Hz) as (st1 & message & Hc & _ & ->).
    apply (follows_unmounted (checkSourceAndBackup w) st st1 message _ _ _ _ _ Hc).
    intros X HX1 HX2. now apply checkSourceAndBackup_follows.
  - unfold validateAndBackup, failed_states, sudo_failure, fails_to_start.
    unfold zero_exit in Hz. monad_simpl.
    destruct (ending (child w sudoCheckCmd)) as [code | message errno];
      [rewrite Hz |]; follows_here.
Qed.

Lemma validateAndRestore_follows (w : World) (st : App) :
  follows st (run (validateAndRestore w) st)
          (restore_states w (source st) (destination st))
          (restore_commands w (source st) (destination st))
          (restore_outcome w (source st) (destination st)).
Proof.
  unfold restore_states, restore_commands, restore_outcome.
  destruct (zero_exit (child w sudoCheckCmd)) eqn:Hz.
  - apply zero_exit_spec in Hz.
    destruct (validateAndRestore_unmounted w st Hz) as (st1 & message & Hc & _ & ->).
    apply (follows_unmounted (runRestore w) st st1 message _ _ _ _ _ Hc).
    intros X HX1 HX2. now apply runRestore_follows.
  - unfold validateAndRestore, failed_states, sudo_failure, fails_to_start.
    unfold zero_exit in Hz. monad_simpl.
    destruct (ending (child w sudoCheckCmd)) as [code | message errno];
      [rewrite Hz |]; follows_here.
Qed.

Lemma in_twice_if {A : Type} (b : bool) (l : list A) (x : A) :
  In x (twice_if b l) <-> In x l.
Proof.
  unfold twice_if. destruct b; [| tauto]. rewrite in_app_iff. tauto.
Qed.

Lemma twice_if_cons {A : Type} (b : bool) (x : A) (l : list A) :
  exists rest, twice_if b (x :: l) = x :: rest.
Proof. unfold twice_if. destruct b; simpl; eauto. Qed.

(** ** The shrink stage *)

Lemma shrink_stage_fails_traces (w : World) (destination : str) :
  shrink_stage_fails w destination ->
  pishrink_outcome w = Completed
  /\ exists completes,
      pishrink_states w destination = SHRINKING :: completes
      /\ (completes = [COMPLETE] \/ completes = [COMPLETE; COMPLETE])
      /\ (completes = [COMPLETE; COMPLETE] <->
          shrink_tool_ready w
          /\ exists message errno,
              ending (child w (pishrinkCmd destination)) = on_error message errno).
Proof.
  unfold pishrink_outcome, pishrink_states, shrink_states, zero_exit, fails_to_start.
  intros [code Hready Hend Hcode | message errno Hready Hend | code Hex Hend Hcode].
  - rewrite Hend.
    assert (N : [COMPLETE] = [COMPLETE; COMPLETE] <->
                shrink_tool_ready w
                /\ exists message errno, on_close code = on_error message errno).
    { split; [discriminate | intros (_ & m & e & H); discriminate H]. }
    destruct Hready as [-> | [-> ->]]; simpl; (split; [reflexivity |]);
      exists [COMPLETE]; auto.
  - rewrite Hend.
    assert (N : [COMPLETE; COMPLETE] = [COMPLETE; COMPLETE] <->
                shrink_tool_ready w
                /\ exists m e, on_error message errno = on_error m e).
    { split; [intros _; split; [exact Hready | eauto] | reflexivity]. }
    destruct Hready as [-> | [-> ->]]; simpl; (split; [reflexivity |]);
      exists [COMPLETE; COMPLETE]; auto.
  - rewrite Hex, Hend, (is_zero_false code Hcode). split; [reflexivity |].
    exists [COMPLETE]. split; [reflexivity |]. split; [now left |].
    split; [discriminate |].
    intros ([Hr | (_ & Hr)] & _); [congruence |].
    rewrite Hend in Hr. injection Hr as ->. now contradiction Hcode.
Qed.

(** C1, as the program has it.  After a copy that exited with 0, a
    backup ends in COMPLETE when pishrink exits with a code other than
    0, when pishrink cannot be started, and when pishrink is not
    installed and its download exits with a code other than 0: the run
    goes BACKING_UP, SHRINKING, COMPLETE (COMPLETE is entered twice when
    pishrink cannot be started), never through ERROR, no error text is
    set and the destination is untouched.  But when pishrink is not
    installed and the download child cannot be started, nothing handles
    its [error] event: the run has entered BACKING_UP and SHRINKING and
    stays there, COMPLETE is never reached. *)
Theorem shrink_failure_outcomes (w : World) (st : App) :
  ending (child w (ddCmd w (source st) (destination st))) = on_close (Some 0%Z) ->
  let st' := run (runBackup w) st in
  (shrink_stage_fails w (destination st) ->
   state st' = COMPLETE
   /\ (exists completes,
          visited st' = visited st ++ BACKING_UP :: SHRINKING :: completes
          /\ (completes = [COMPLETE] \/ completes = [COMPLETE; COMPLETE])
          /\ (completes = [COMPLETE; COMPLETE] <->
              shrink_tool_ready w
              /\ exists message errno,
                  ending (child w (pishrinkCmd (destination st)))
                  = on_error message errno))
   /\ error st' = error st
   /\ destination st' = destination st)
  /\ (existsSync w pishrinkPath = false ->
      forall message errno,
        ending (child w downloadCmd) = on_error message errno ->
        state st' = SHRINKING
        /\ visited st' = visited st ++ [BACKING_UP; SHRINKING]
        /\ spawned st'
           = spawned st ++ [ddCmd w (source st) (destination st); downloadCmd]
        /\ unhandled st' = unhandled st ++ [message]).
Proof.
  intros Hdd st'. split.
  - intros Hfail.
    destruct (shrink_stage_fails_traces w _ Hfail)
      as (Ho & completes & Hs & Hc & Htwice).
    destruct (runBackup_follows w st _ _ eq_refl eq_refl) as (Hv & _ & Hi & Hout).
    apply zero_exit_spec in Hdd.
    unfold copy_states, copy_outcome in Hv, Hout. cbv zeta in Hout.
    rewrite Hdd in Hv, Hout. rewrite Ho in Hout. rewrite Hs in Hv.
    destruct Hout as (Hstate & Herr).
    apply inputs_fields in Hi. destruct Hi as (_ & _ & Hd).
    split; [exact Hstate |]. split; [| split; [exact Herr | exact Hd]].
    exists completes. split; [exact Hv |]. split; [exact Hc | exact Htwice].
  - intros Hex message errno Hdl. subst st'.
    unfold runBackup, runPishrink. monad_simpl.
    feed_copy lastError st2.
    rewrite Hdd. simpl. rewrite Hex. simpl. rewrite Hdl. simpl.
    repeat match goal with
           | |- _ /\ _ => split
           | H : visited _ = _ |- visited _ ++ _ = _ => rewrite H
           | H : spawned _ = _ |- spawned _ ++ _ = _ => rewrite H
           end; rewrite <- ?app_assoc; simpl; congruence.
Qed.

Lemma shrink_failure_outcomes_witness :
  let st := backup_of "/dev/rdisk9" "/tmp/out.img" in
  let no_launch :=
    with_child quiet_mac (pishrinkCmd (txt "/tmp/out.img"))
               (mkProcess [] (on_error (txt "spawn sudo EAGAIN") 35)) in
  let no_download :=
    with_child (without_pishrink quiet_mac) downloadCmd
               (mkProcess [] (on_error (txt "spawn sudo EAGAIN") 35)) in
  state (run (runBackup no_launch) st) = COMPLETE
  /\ state (run (runBackup no_download) st) = SHRINKING
  /\ visited (run (runBackup no_download) st) = visited st ++ [BACKING_UP; SHRINKING]
  /\ unhandled (run (runBackup no_download) st)
     = unhandled st ++ [txt "spawn sudo EAGAIN"].
Proof.
  intros st no_launch no_download.
  assert (F : shrink_stage_fails no_launch (destination st)).
  { apply shrink_fails_to_launch
      with (message := txt "spawn sudo EAGAIN") (errno := 35%positive);
      [left; reflexivity | reflexivity]. }
  destruct (proj1 (shrink_failure_outcomes no_launch st eq_refl) F) as (H1 & _).
  destruct (proj2 (shrink_failure_outcomes no_download st eq_refl) eq_refl
              (txt "spawn sudo EAGAIN") 35%positive eq_refl)
    as (H2 & H3 & _ & H4).
  exact (conj H1 (conj H2 (conj H3 H4))).
Defined.

(** ** Validation and unmounting *)

(** The pattern finds a disk identifier in a path exactly when the path
    has the word disk followed by a digit. *)
Lemma disk_identifier_spec (path : str) :
  js_match re_disk path <> None <->
  exists a d b, path = a ++ txt "disk" ++ d :: b /\ is_digit d = true.
Proof.
  assert (M : js_match re_disk path <> None <-> matches re_disk path = true).
  { unfold matches. destruct (js_match re_disk path); split; congruence. }
  rewrite M, matches_spec. split.
  - intros (a & b & c & -> & L). apply lang_disk in L.
    destruct L as (r & ds & -> & _ & Hne & Hds).
    destruct ds as [| d ds]; [contradiction |]. inversion Hds; subst.
    exists (a ++ r), d, (ds ++ c). split; [| assumption].
    rewrite <- !app_assoc. reflexivity.
  - intros (a & d & b & -> & Hd). exists a, (txt "disk" ++ [d]), b. split.
    + now rewrite <- !app_assoc.
    + apply lang_disk. exists [], [d]. split; [reflexivity |].
      split; [now left |]. split; [discriminate | now constructor].
Qed.

(** Start, in the confirmation menu, runs the pipeline of the mode. *)
Lemma start_dispatch (w : World) (st : App) :
  run (confirm_onSelect w (txt "start")) st
  = match mode st with
    | Some RESTORE => run (validateAndRestore w) st
    | _ => run (validateAndBackup w) st
    end.
Proof.
  unfold confirm_onSelect, run, bind, gets, isRestore. simpl.
  destruct (mode st) as [[|] |]; reflexivity.
Qed.

Lemma failed_states_no_shrinking (p : Process) : ~ In SHRINKING (failed_states p).
Proof.
  unfold failed_states. destruct (fails_to_start p); simpl; intros F;
    repeat (destruct F as [F | F]; [discriminate |]); exact F.
Qed.

Lemma restore_states_no_shrinking (w : World) (source destination : str) :
  ~ In SHRINKING (restore_states w source destination).
Proof.
  unfold restore_states, restore_copy_states.
  intros [F | F]; [discriminate |].
  destruct (zero_exit (child w sudoCheckCmd));
    [| now apply failed_states_no_shrinking in F].
  apply in_twice_if in F. destruct F as [F | F]; [discriminate |].
  destruct (zero_exit (child w (restoreCmd w source destination))).
  - destruct F as [F | []]. discriminate.
  - now apply failed_states_no_shrinking in F.
Qed.

(** C2. When the copy exits with 0, a backup goes from BACKING_UP to
    SHRINKING (so not straight to COMPLETE) and a restore goes from
    RESTORING to COMPLETE; and no restore, whatever happens in it, passes
    through SHRINKING. *)
Theorem copy_success_transitions (w : World) (stB stR : App) :
  ending (child w (ddCmd w (source stB) (destination stB))) = on_close (Some 0%Z) ->
  ending (child w (restoreCmd w (source stR) (destination stR))) = on_close (Some 0%Z) ->
  (exists rest,
      visited (run (runBackup w) stB) = visited stB ++ BACKING_UP :: SHRINKING :: rest)
  /\ visited (run (runRestore w) stR) = visited stR ++ [RESTORING; COMPLETE]
  /\ state (run (runRestore w) stR) = COMPLETE
  /\ (forall w' st', exists new,
         visited (run (validateAndRestore w') st') = visited st' ++ new
         /\ ~ In SHRINKING new).
Proof.
  intros HB HR. apply zero_exit_spec in HB, HR.
  destruct (runRestore_follows w stR _ _ eq_refl eq_refl) as (Hv & _ & _ & Ho).
  unfold restore_copy_states, restore_copy_outcome in Hv, Ho. cbv zeta in Ho.
  rewrite HR in Hv, Ho.
  split; [| split; [exact Hv | split; [exact (proj1 Ho) |]]].
  - destruct (runBackup_follows w stB _ _ eq_refl eq_refl) as (HvB & _).
    unfold copy_states, pishrink_states in HvB. rewrite HB in HvB. eauto.
  - intros w' st'. exists (restore_states w' (source st') (destination st')).
    split; [apply validateAndRestore_follows | apply restore_states_no_shrinking].
Qed.

Lemma copy_success_transitions_witness :
  let stB := backup_of "/dev/rdisk9" "/tmp/out.img" in
  let stR := restore_of "/tmp/in.img.gz" "/dev/rdisk9" in
  (exists rest,
      visited (run (runBackup quiet_mac) stB) = visited stB ++ BACKING_UP :: SHRINKING :: rest)
  /\ state (run (runRestore quiet_mac) stR) = COMPLETE.
Proof.
  intros stB stR.
  destruct (copy_success_transitions quiet_mac stB stR eq_refl eq_refl)
    as (H1 & _ & H3 & _).
  exact (conj H1 H3).
Defined.

Lemma unmount_never_fatal_restore (w : World) (st : App) :
  ending (child w sudoCheckCmd) = on_close (Some 0%Z) ->
  exists rest,
    visited (run (validateAndRestore w) st)
    = visited st ++ VALIDATING :: RESTORING :: rest.
Proof.
  intros Hsudo. apply zero_exit_spec in Hsudo.
  destruct (validateAndRestore_follows w st) as (Hv & _).
  unfold restore_states, restore_copy_states in Hv. rewrite Hsudo in Hv.
  match type of Hv with context [twice_if ?b (?x :: ?l)] =>
    destruct (twice_if_cons b x l) as (rest & E); rewrite E in Hv end.
  eauto.
Qed.

(** C7, as the program has it.  After a successful privilege check the
    outcome of the unmount child decides nothing: a restore always goes on
    to RESTORING; a backup goes on to the probe of its source and enters
    BACKING_UP when that probe exits with 0. *)
Theorem unmount_never_fatal (w : World) (st : App) :
  ending (child w sudoCheckCmd) = on_close (Some 0%Z) ->
  (exists rest,
      visited (run (validateAndRestore w) st)
      = visited st ++ VALIDATING :: RESTORING :: rest)
  /\ (exists rest,
         spawned (run (validateAndBackup w) st)
         = spawned st ++ sudoCheckCmd :: unmount_spawned w (source st)
             ++ probeCmd (source st) :: rest)
  /\ (ending (child w (probeCmd (source st))) = on_close (Some 0%Z) ->
      exists rest,
        visited (run (validateAndBackup w) st)
        = visited st ++ VALIDATING :: BACKING_UP :: rest).
Proof.
  intros Hsudo. split; [now apply unmount_never_fatal_restore |].
  apply zero_exit_spec in Hsudo.
  destruct (validateAndBackup_follows w st) as (Hv & Hs & _).
  unfold backup_states, backup_commands in Hv, Hs. rewrite Hsudo in Hv, Hs.
  split.
  - unfold probe_commands in Hs.
    match type of Hs with context [twice_if ?b (?x :: ?l)] =>
      destruct (twice_if_cons b x l) as (rest & E); rewrite E in Hs end.
    eauto.
  - intros Hprobe. apply zero_exit_spec in Hprobe.
    unfold probe_states, copy_states in Hv. rewrite Hprobe in Hv.
    match type of Hv with context [twice_if ?b (?x :: ?l)] =>
      destruct (twice_if_cons b x l) as (rest & E); rewrite E in Hv end.
    eauto.
Qed.

Lemma unmount_never_fatal_witness :
  let w := with_child quiet_mac (unmountCmd (txt "disk9")) (exits 1) in
  let st := backup_of "/dev/rdisk9" "/tmp/out.img" in
  exists rest,
    visited (run (validateAndBackup w) st)
    = visited st ++ VALIDATING :: BACKING_UP :: rest.
Proof.
  intros w st.
  exact (proj2 (proj2 (unmount_never_fatal w st eq_refl)) eq_refl).
Defined.

(** C7 fails as it is written: on a Mac, with the unmount child exiting
    with 0, a backup whose source probe exits with 1 stops in ERROR and
    never enters BACKING_UP. *)
Lemma unmount_then_probe_failure :
  let w := with_child quiet_mac (probeCmd (txt "/dev/rdisk9")) (exits 1) in
  let st' := run (validateAndBackup w) (backup_of "/dev/rdisk9" "/tmp/out.img") in
  spawned st' = [sudoCheckCmd; unmountCmd (txt "disk9"); probeCmd (txt "/dev/rdisk9")]
  /\ state st' = ERROR
  /\ error st' = txt "Source device not found: /dev/rdisk9"
  /\ ~ In BACKING_UP (visited st').
Proof.
  intros w st'. split; [reflexivity |]. split; [reflexivity |].
  split; [reflexivity |].
  vm_compute. intros F.
  repeat (destruct F as [F | F]; [discriminate |]). exact F.
Qed.

(** An unmount child that cannot be started has both its callbacks run:
    the restore then starts its copy twice, and a backup starts its probe
    and its copy twice. *)
Remark unmount_launch_failure_runs_twice :
  let w := with_child quiet_mac (unmountCmd (txt "disk9"))
             (mkProcess [] (on_error (txt "spawn diskutil ENOENT") 2)) in
  let stR := run (validateAndRestore w) (restore_of "/tmp/in.img" "/dev/rdisk9") in
  let stB := run (validateAndBackup w) (backup_of "/dev/rdisk9" "/tmp/out.img") in
  let copy := ddCmd w (txt "/tmp/in.img") (txt "/dev/rdisk9") in
  spawned stR = [sudoCheckCmd; unmountCmd (txt "disk9"); copy; copy]
  /\ state stR = COMPLETE
  /\ state stB = COMPLETE
  /\ length (filter (cmd_eqb (probeCmd (txt "/dev/rdisk9"))) (spawned stB)) = 2
  /\ length (filter (cmd_eqb (ddCmd w (txt "/dev/rdisk9") (txt "/tmp/out.img")))
                    (spawned stB)) = 2.
Proof. cbv zeta. repeat split. Qed.

(** ** The commands of a run *)

Lemma shrink_commands_by_sudo (w : World) (destination : str) :
  Forall by_sudo (shrink_commands w destination).
Proof.
  unfold shrink_commands.
  destruct (existsSync w pishrinkPath); [repeat constructor |].
  destruct (zero_exit (child w downloadCmd)); repeat constructor.
Qed.

Lemma copy_commands_by_sudo (w : World) (source destination : str) :
  Forall by_sudo (copy_commands w source destination).
Proof.
  unfold copy_commands. constructor; [reflexivity |].
  destruct (zero_exit (child w (ddCmd w source destination)));
    [apply shrink_commands_by_sudo | constructor].
Qed.

Lemma str_eqb_eq (a b : str) : str_eqb a b = true <-> a = b.
Proof.
  unfold str_eqb. destruct (list_eq_dec ascii_dec a b); split; congruence.
Qed.

Lemma unmount_spawned_none (w : World) (path : str) :
  js_match re_disk path = None \/ platform w <> darwin ->
  unmount_spawned w path = [].
Proof.
  unfold unmount_spawned. intros [-> | Hp]; [reflexivity |].
  destruct (js_match re_disk path); [| reflexivity].
  destruct (str_eqb (platform w) darwin) eqn:E; [| reflexivity].
  apply str_eqb_eq in E. contradiction.
Qed.

(** C8. After a successful privilege check, when no disk identifier is
    found in the device path (the source of a backup, the destination of
    a restore) or the platform is not darwin, no unmount child is started:
    a backup starts the probe of its source next and no unmount command
    after it, and a restore starts its copy next and enters RESTORING. *)
Theorem unmount_skipped (w : World) (st : App) :
  ending (child w sudoCheckCmd) = on_close (Some 0%Z) ->
  (js_match re_disk (source st) = None \/ platform w <> darwin ->
   exists rest,
     spawned (run (validateAndBackup w) st)
     = spawned st ++ sudoCheckCmd :: probeCmd (source st) :: rest
     /\ Forall (fun c => forall diskName, c <> unmountCmd diskName) rest)
  /\ (js_match re_disk (destination st) = None \/ platform w <> darwin ->
      spawned (run (validateAndRestore w) st)
      = spawned st ++ [sudoCheckCmd; restoreCmd w (source st) (destination st)]
      /\ exists rest,
          visited (run (validateAndRestore w) st)
          = visited st ++ VALIDATING :: RESTORING :: rest).
Proof.
  intros Hsudo. pose proof Hsudo as Hz. apply zero_exit_spec in Hz.
  split; intros Hskip.
  - destruct (validateAndBackup_follows w st) as (_ & Hs & _).
    unfold backup_commands, unmount_fails_to_start in Hs.
    rewrite Hz, (unmount_spawned_none w _ Hskip) in Hs. simpl in Hs.
    unfold probe_commands in Hs. eexists. split; [exact Hs |].
    eapply Forall_impl;
      [| destruct (zero_exit (child w (probeCmd (source st))));
         [apply copy_commands_by_sudo | constructor]].
    intros c Hc diskName ->. discriminate Hc.
  - split; [| apply (unmount_never_fatal_restore w st Hsudo)].
    destruct (validateAndRestore_follows w st) as (_ & Hs & _).
    unfold restore_commands, unmount_fails_to_start in Hs.
    rewrite Hz, (unmount_spawned_none w _ Hskip) in Hs. exact Hs.
Qed.

Lemma unmount_skipped_witness :
  let stB := backup_of "/dev/sdb" "/tmp/out.img" in
  let stR := restore_of "/tmp/in.img" "/dev/sdb" in
  (exists rest,
      spawned (run (validateAndBackup quiet_linux) stB)
      = spawned stB ++ sudoCheckCmd :: probeCmd (source stB) :: rest
      /\ Forall (fun c => forall diskName, c <> unmountCmd diskName) rest)
  /\ spawned (run (validateAndRestore quiet_mac) stR)
     = spawned stR ++ [sudoCheckCmd; restoreCmd quiet_mac (source stR) (destination stR)].
Proof.
  intros stB stR. split.
  - apply (proj1 (unmount_skipped quiet_linux stB eq_refl)).
    right. intros H. discriminate H.
  - apply (proj2 (unmount_skipped quiet_mac stR eq_refl)).
    left. reflexivity.
Defined.

(** ** The format of a restore *)

Lemma endsWith_spec (s suffix : str) :
  endsWith s suffix = true <-> exists stem, s = stem ++ suffix.
Proof.
  unfold endsWith. rewrite str_eqb_eq. split.
  - intros H. exists (firstn (length s - length suffix) s).
    transitivity (firstn (length s - length suffix) s
                    ++ skipn (length s - length suffix) s).
    + symmetry. apply firstn_skipn.
    + f_equal. exact H.
  - intros (stem & ->). rewrite length_app.
    replace (length stem + length suffix - length suffix) with (length stem) by lia.
    rewrite skipn_app, skipn_all, Nat.sub_diag. reflexivity.
Qed.

Lemma runRestore_spawned (w : World) (st : App) :
  spawned (run (runRestore w) st)
  = spawned st ++ [restoreCmd w (source st) (destination st)].
Proof. apply (runRestore_follows w st _ _ eq_refl eq_refl). Qed.

(** C9, as the program has it.  The copy stage of a restore starts one
    child, whatever that child then writes.  When the source path ends in
    [.gz], in these lower-case letters, the child is a shell running
    [gunzip -c] of the source piped into [dd] onto the destination; in
    every other case it is a single [dd] that reads the source file as
    it is.  The image picker offers every file whose name ends in [.gz]
    in any case of the letters: for [/tmp/pi.img.GZ], which it offers,
    the compressed bytes are copied onto the device by a single [dd]. *)
Theorem restore_copy_by_suffix (w : World) (st : App) :
  let src := source st in
  let dst := destination st in
  ((exists stem, src = stem ++ txt ".gz") ->
   spawned (run (runRestore w) st)
   = spawned st
       ++ [mkCmd (txt "sudo")
                 [txt "bash"; txt "-c";
                  txt "gunzip -c " ++ quote ++ src ++ quote ++ txt " | dd of="
                    ++ dst ++ txt " bs=4m status=progress"]])
  /\ (~ (exists stem, src = stem ++ txt ".gz") ->
      spawned (run (runRestore w) st)
      = spawned st
          ++ [mkCmd (txt "sudo")
                    (txt "dd" :: (txt "if=" ++ src) :: (txt "of=" ++ dst)
                       :: (if str_eqb (platform w) darwin
                           then [txt "bs=4m"; txt "status=progress"]
                           else [txt "bs=4M"; txt "status=progress";
                                 txt "conv=fsync"]))])
  /\ isImageName (txt "pi.img.GZ") = true
  /\ spawned (run (runRestore quiet_mac) (restore_of "/tmp/pi.img.GZ" "/dev/rdisk9"))
     = [mkCmd (txt "sudo")
              [txt "dd"; txt "if=/tmp/pi.img.GZ"; txt "of=/dev/rdisk9";
               txt "bs=4m"; txt "status=progress"]].
Proof.
  intros src dst. subst src dst.
  rewrite runRestore_spawned. unfold restoreCmd, isGzipped.
  rewrite <- (endsWith_spec (source st) (txt ".gz")).
  split; [| split; [| split; reflexivity]].
  - intros ->. reflexivity.
  - intros H. destruct (endsWith (source st) (txt ".gz")); [now destruct H |].
    unfold ddCmd, ddArgs. destruct (str_eqb (platform w) darwin); reflexivity.
Qed.

Lemma restore_copy_by_suffix_witness :
  let st := restore_of "/tmp/in.img.gz" "/dev/rdisk9" in
  spawned (run (runRestore quiet_mac) st)
  = spawned st
      ++ [mkCmd (txt "sudo")
                [txt "bash"; txt "-c";
                 txt "gunzip -c " ++ quote ++ txt "/tmp/in.img.gz" ++ quote
                   ++ txt " | dd of=/dev/rdisk9 bs=4m status=progress"]].
Proof.
  intros st.
  apply (proj1 (restore_copy_by_suffix quiet_mac st)).
  exists (txt "/tmp/in.img"). reflexivity.
Defined.

Example restore_gz_scenario :
  let st := restore_of "/tmp/in.img.gz" "/dev/rdisk9" in
  let st' := run (confirm_onSelect quiet_mac (txt "start")) st in
  state st' = COMPLETE
  /\ spawned st'
     = [sudoCheckCmd; unmountCmd (txt "disk9");
        gunzipPipeCmd (txt "/tmp/in.img.gz") (txt "/dev/rdisk9")].
Proof. split; reflexivity. Qed.

(** ** The reason of a failed copy *)

Lemma last_error_chunk_none (os : list Output) :
  last_error_chunk os = None <-> Forall not_error_chunk os.
Proof.
  induction os as [| o os IH]; simpl.
  - split; [constructor | reflexivity].
  - destruct (last_error_chunk os) as [d |].
    + split; [discriminate |]. intros H. inversion H; subst.
      now apply IH.
    + destruct IH as [IH _]. specialize (IH eq_refl).
      destruct o as [data | data]; simpl.
      * split; [now constructor | reflexivity].
      * destruct (isErrorLine data) eqn:E.
        -- split; [discriminate |]. intros H. inversion H; subst.
           simpl in *. congruence.
        -- split; [now constructor | reflexivity].
Qed.

Lemma last_error_chunk_some (os : list Output) (data : str) :
  last_error_chunk os = Some data <->
  exists before after,
    os = before ++ stderr data :: after
    /\ isErrorLine data = true /\ Forall not_error_chunk after.
Proof.
  revert data. induction os as [| o os IH]; intros data; simpl.
  - split; [discriminate |]. intros (b & a & H & _). now destruct b.
  - destruct (last_error_chunk os) as [d |] eqn:E.
    + split.
      * intros H. injection H as ->.
        destruct (proj1 (IH data) eq_refl) as (b & a & -> & Hd & Ha).
        now exists (o :: b), a.
      * intros (b & a & H & Hd & Ha). destruct b as [| o' b]; simpl in H.
        -- injection H as -> ->. apply last_error_chunk_none in Ha. congruence.
        -- injection H as -> ->.
           apply (proj2 (IH data)). now exists b, a.
    + apply last_error_chunk_none in E. split.
      * destruct o as [d | d]; [discriminate |].
        destruct (isErrorLine d) eqn:Hd; [| discriminate].
        intros H. injection H as ->. now exists [], os.
      * intros (b & a & H & Hd & Ha). destruct b as [| o' b]; simpl in H.
        -- injection H as -> ->. now rewrite Hd.
        -- injection H as -> ->. apply Forall_app in E. destruct E as [_ E].
           inversion E; subst. simpl in *. congruence.
Qed.

Lemma fold_keep_error (os : list Output) :
  forall l,
    fold_left keep_error os l
    = match last_error_chunk os with Some data => trim data | None => l end.
Proof.
  induction os as [| o os IH]; intros l; simpl; [reflexivity |].
  rewrite IH. destruct (last_error_chunk os); [reflexivity |].
  destruct o as [d | d]; simpl; [reflexivity |].
  destruct (isErrorLine d); reflexivity.
Qed.

Lemma failure_reason_reported (os : list Output) (code : option Z) :
  failure_reason os code = reported os code.
Proof.
  unfold failure_reason, reported, or_else. rewrite fold_keep_error.
  destruct (last_error_chunk os); reflexivity.
Qed.

(** C4, as the program has it.  When the copy exits with a code other
    than 0 the run ends in ERROR and the reason is a prefix ([dd failed: ]
    for a backup, [Restore failed: ] for a restore) followed by the
    trimmed text of the last [stderr] chunk classified as an error line,
    when that text is not empty, and by [exit code] and the code when
    there was no such chunk or its trimmed text is empty. *)
Theorem copy_failure_reason (w : World) (st : App) (code : option Z) :
  code <> Some 0%Z ->
  (ending (child w (ddCmd w (source st) (destination st))) = on_close code ->
   state (run (runBackup w) st) = ERROR
   /\ error (run (runBackup w) st)
      = txt "dd failed: "
          ++ reported (output (child w (ddCmd w (source st) (destination st)))) code)
  /\ (ending (child w (restoreCmd w (source st) (destination st))) = on_close code ->
      state (run (runRestore w) st) = ERROR
      /\ error (run (runRestore w) st)
         = txt "Restore failed: "
             ++ reported (output (child w (restoreCmd w (source st) (destination st)))) code).
Proof.
  intros Hcode. apply is_zero_false in Hcode. split; intros Hend.
  - destruct (runBackup_follows w st _ _ eq_refl eq_refl) as (_ & _ & _ & Ho).
    unfold copy_outcome, zero_exit, close_code in Ho. cbv zeta in Ho.
    rewrite Hend, Hcode in Ho. destruct Ho as (Hs & He).
    split; [exact Hs |]. now rewrite He, failure_reason_reported.
  - destruct (runRestore_follows w st _ _ eq_refl eq_refl) as (_ & _ & _ & Ho).
    unfold restore_copy_outcome, zero_exit, close_code in Ho. cbv zeta in Ho.
    rewrite Hend, Hcode in Ho. destruct Ho as (Hs & He).
    split; [exact Hs |]. now rewrite He, failure_reason_reported.
Qed.

Lemma copy_failure_reason_witness :
  let st := backup_of "/dev/rdisk9" "/tmp/out.img" in
  let dd := ddCmd quiet_mac (source st) (destination st) in
  let busy := mkProcess [stderr (txt "dd: /dev/rdisk9: Resource busy" ++ newline)]
                        (on_close (Some 1%Z)) in
  let silent := mkProcess [stderr (txt "0+0 records in")] (on_close (Some 1%Z)) in
  let stR := restore_of "/tmp/in.img.gz" "/dev/rdisk9" in
  let gunzip := gunzipPipeCmd (source stR) (destination stR) in
  let truncated := mkProcess [stderr (txt "gunzip: unexpected end of file" ++ newline)]
                             (on_close (Some 1%Z)) in
  error (run (runBackup (with_child quiet_mac dd busy)) st)
  = txt "dd failed: dd: /dev/rdisk9: Resource busy"
  /\ error (run (runBackup (with_child quiet_mac dd silent)) st)
     = txt "dd failed: exit code 1"
  /\ error (run (runRestore (with_child quiet_mac gunzip truncated)) stR)
     = txt "Restore failed: gunzip: unexpected end of file".
Proof.
  intros st dd busy silent stR gunzip truncated.
  assert (N : Some 1%Z <> Some 0%Z) by discriminate.
  split; [| split].
  - exact (proj2 (proj1 (copy_failure_reason (with_child quiet_mac dd busy) st
                           (Some 1%Z) N) eq_refl)).
  - exact (proj2 (proj1 (copy_failure_reason (with_child quiet_mac dd silent) st
                           (Some 1%Z) N) eq_refl)).
  - exact (proj2 (proj2 (copy_failure_reason (with_child quiet_mac gunzip truncated)
                           stR (Some 1%Z) N) eq_refl)).
Defined.

(** C4 fails as it is written.  With the one chunk of the scenario the
    reason is not that line alone: it carries the prefix.  And when a
    blank chunk follows the message, that blank chunk is the last one
    classified as an error line, yet the reason is the exit code text. *)
Lemma copy_failure_reason_differs :
  let st := backup_of "/dev/rdisk9" "/tmp/out.img" in
  let dd := ddCmd quiet_mac (source st) (destination st) in
  let line := txt "dd: /dev/rdisk9: Resource busy" in
  let one := with_child quiet_mac dd (mkProcess [stderr line] (on_close (Some 1%Z))) in
  let two := with_child quiet_mac dd
               (mkProcess [stderr line; stderr newline] (on_close (Some 1%Z))) in
  (last_error_chunk [stderr line] = Some line
   /\ state (run (runBackup one) st) = ERROR
   /\ error (run (runBackup one) st) = txt "dd failed: dd: /dev/rdisk9: Resource busy"
   /\ error (run (runBackup one) st) <> trim line)
  /\ (last_error_chunk [stderr line; stderr newline] = Some newline
      /\ state (run (runBackup two) st) = ERROR
      /\ error (run (runBackup two) st) = txt "dd failed: exit code 1"
      /\ error (run (runBackup two) st) <> trim newline).
Proof.
  intros st dd line one two.
  split; (split; [reflexivity |]; split; [reflexivity |];
          split; [reflexivity |]; vm_compute; discriminate).
Qed.

(** ** The metrics across runs *)

Lemma only_menus_metrics (st : App) :
  only_menus st -> metrics st = (txt "0", txt "0").
Proof.
  induction 1 as [| v st _ IH | p st _ IH | v st _ IH | v st _ IH | st _ IH
                  | v st _ IH | p st _ IH | w v st Hv _ IH | v st _ IH];
    try exact IH; try reflexivity.
  - unfold mainMenu_onSelect.
    destruct (str_eqb v (txt "backup")); [exact IH |].
    destruct (str_eqb v (txt "restore")); exact IH.
  - unfold sourceList_onSelect.
    destruct (str_eqb v (txt "manual")); [exact IH |].
    destruct (truthy v); exact IH.
  - unfold destList_onSelect.
    destruct (str_eqb v (txt "manual")); [exact IH |].
    destruct (truthy v); exact IH.
  - unfold confirm_onSelect.
    destruct (str_eqb v (txt "start")) eqn:E.
    + apply str_eqb_eq in E. contradiction.
    + destruct (str_eqb v (txt "back")); [exact IH |].
      destruct (str_eqb v (txt "cancel")); exact IH.
  - unfold errorMenu_onSelect.
    destruct (str_eqb v (txt "retry")); [exact IH |].
    destruct (str_eqb v (txt "menu")); exact IH.
Qed.

Lemma copy_data_metrics (o : Output) (l : str) (st : App) :
  metrics (snd (copy_data o l st)) = copy_metrics_step (metrics st) o.
Proof.
  destruct o as [data | data]; simpl.
  - unfold copy_stdout_data. destruct (truthy (trim data)); reflexivity.
  - unfold copy_stderr_data. destruct (bytes data), (rateText data); reflexivity.
Qed.

Lemma each_output_copy_metrics (os : list Output) :
  forall l st,
    metrics (snd (each_output copy_data os l st)) = copy_metrics os (metrics st).
Proof.
  induction os as [| o os IH]; intros l st; simpl; [reflexivity |].
  unfold bind. pose proof (copy_data_metrics o l st) as H.
  destruct (copy_data o l st) as [l' st1]. simpl in H.
  rewrite IH, H. reflexivity.
Qed.

Lemma copy_metrics_bytesWritten (os : list Output) :
  Forall no_byte_count os -> forall m, fst (copy_metrics os m) = fst m.
Proof.
  unfold copy_metrics.
  induction 1 as [| o os Ho _ IH]; intros m; simpl; [reflexivity |].
  rewrite IH. destruct o as [data | data]; simpl in *; [reflexivity |].
  rewrite Ho. destruct (rateText data); reflexivity.
Qed.

(** Each of the two metrics is, after the chunks of a copy, what it was
    before or a text that the chunks alone decide. *)
Lemma copy_metrics_shape (os : list Output) :
  ((forall m, fst (copy_metrics os m) = fst m)
   \/ exists v, forall m, fst (copy_metrics os m) = v)
  /\ ((forall m, snd (copy_metrics os m) = snd m)
      \/ exists v, forall m, snd (copy_metrics os m) = v).
Proof.
  unfold copy_metrics. induction os as [| o os [IH1 IH2]]; simpl.
  - split; left; reflexivity.
  - split.
    + destruct IH1 as [IH | [v IH]]; [| right; exists v; intros m; apply IH].
      destruct o as [data | data]; simpl.
      * left. intros m. apply IH.
      * destruct (bytes data) as [b |], (rateText data) as [r |];
          solve [ left; intros m; now rewrite IH
                | right; eexists; intros m; rewrite IH; simpl; reflexivity ].
    + destruct IH2 as [IH | [v IH]]; [| right; exists v; intros m; apply IH].
      destruct o as [data | data]; simpl.
      * left. intros m. apply IH.
      * destruct (bytes data) as [b |], (rateText data) as [r |];
          solve [ left; intros m; now rewrite IH
                | right; eexists; intros m; rewrite IH; simpl; reflexivity ].
Qed.

Lemma copy_metrics_twice (os : list Output) (m : str * str) :
  copy_metrics os (copy_metrics os m) = copy_metrics os m.
Proof.
  destruct (copy_metrics_shape os) as (H1 & H2).
  rewrite (surjective_pairing (copy_metrics os (copy_metrics os m))).
  rewrite (surjective_pairing (copy_metrics os m)) at 3.
  f_equal.
  - destruct H1 as [H | [v H]]; [apply H | now rewrite !H].
  - destruct H2 as [H | [v H]]; [apply H | now rewrite !H].
Qed.

Lemma runShrink_metrics (w : World) (st : App) :
  metrics (run (runShrink w) st) = metrics st.
Proof.
  unfold runShrink. monad_simpl.
  match goal with
  | |- context [each_output ?h ?os ?l0 ?st1] =>
      pose proof (each_output_keeps metrics h pishrink_data_metrics os l0 st1) as Hm;
      destruct (each_output h os l0 st1) as [u st2]
  end.
  simpl in Hm.
  destruct (ending (child w (pishrinkCmd (destination st)))) as [code | message errno];
    [destruct (is_zero code) |]; exact Hm.
Qed.

Lemma runPishrink_metrics (w : World) (st : App) :
  metrics (run (runPishrink w) st) = metrics st.
Proof.
  unfold runPishrink. monad_simpl.
  destruct (existsSync w pishrinkPath); simpl.
  - match goal with |- context [runShrink w ?X] =>
      exact (runShrink_metrics w X) end.
  - destruct (ending (child w downloadCmd)) as [code | message errno];
      [destruct (is_zero code) |]; simpl; try reflexivity.
    match goal with |- context [runShrink w ?X] =>
      exact (runShrink_metrics w X) end.
Qed.

Lemma runBackup_metrics (w : World) (st : App) :
  metrics (run (runBackup w) st)
  = copy_metrics (output (child w (ddCmd w (source st) (destination st))))
                 (metrics st).
Proof.
  unfold runBackup. monad_simpl.
  match goal with
  | |- context [each_output copy_data ?os ?l0 ?st1] =>
      pose proof (each_output_copy_metrics os l0 st1) as Hb;
      destruct (each_output copy_data os l0 st1) as [lastError st2]
  end.
  simpl in Hb.
  destruct (ending (child w (ddCmd w (source st) (destination st))))
    as [code | message errno]; [destruct (is_zero code) |]; simpl; try exact Hb.
  match goal with |- context [runPishrink w ?X] =>
    pose proof (runPishrink_metrics w X) as Hm end.
  unfold run in Hm. rewrite Hm. exact Hb.
Qed.

Lemma runRestore_metrics (w : World) (st : App) :
  metrics (run (runRestore w) st)
  = copy_metrics (output (child w (restoreCmd w (source st) (destination st))))
                 (metrics st).
Proof.
  unfold runRestore, restoreCmd. monad_simpl.
  destruct (isGzipped (source st)); monad_simpl;
    match goal with
    | |- context [each_output copy_data ?os ?l0 ?st1] =>
        pose proof (each_output_copy_metrics os l0 st1) as Hb;
        destruct (each_output copy_data os l0 st1) as [lastError st2]
    end; simpl in Hb;
    match goal with |- context [ending ?p] =>
      destruct (ending p) as [code | message errno]; [destruct (is_zero code) |]
    end; exact Hb.
Qed.

Lemma runBackup_bytesWritten (w : World) (st : App) :
  Forall no_byte_count (output (child w (ddCmd w (source st) (destination st)))) ->
  bytesWritten (run (runBackup w) st) = bytesWritten st.
Proof.
  intros Hout.
  change (fst (metrics (run (runBackup w) st)) = fst (metrics st)).
  rewrite runBackup_metrics. now apply copy_metrics_bytesWritten.
Qed.

Lemma runRestore_bytesWritten (w : World) (st : App) :
  Forall no_byte_count (output (child w (restoreCmd w (source st) (destination st)))) ->
  bytesWritten (run (runRestore w) st) = bytesWritten st.
Proof.
  intros Hout.
  change (fst (metrics (run (runRestore w) st)) = fst (metrics st)).
  rewrite runRestore_metrics. now apply copy_metrics_bytesWritten.
Qed.

(** *** Stages that do not read the metrics *)

Lemma rebase_rebase (m m' : str * str) (st : App) :
  rebase m (rebase m' st) = rebase m st.
Proof. reflexivity. Qed.

Lemma rebase_metrics (st : App) : rebase (metrics st) st = st.
Proof. destruct st; reflexivity. Qed.

Lemma metrics_rebase (m : str * str) (st : App) : metrics (rebase m st) = m.
Proof. destruct m; reflexivity. Qed.

Lemma rebase_eq (m : str * str) (a b : App) :
  rebase m a = rebase m b -> a = rebase (metrics a) b.
Proof.
  intros H. rewrite <- (rebase_metrics a) at 1.
  rewrite <- (rebase_rebase (metrics a) m a), H. apply rebase_rebase.
Qed.

Lemma blind_bind {A B : Type} (a : M A) (k : A -> M B) :
  blind a -> (forall x, blind (k x)) -> blind (bind a k).
Proof.
  intros Ha Hk m st. unfold bind. destruct (Ha m st) as (Hf & Hs).
  destruct (a (rebase m st)) as [x s1'], (a st) as [y s1]. simpl in Hf, Hs.
  subst y. apply rebase_eq in Hs. rewrite Hs.
  destruct (Hk x (metrics s1') s1) as (Kf & Ks). split; [exact Kf |].
  apply (f_equal (rebase m)) in Ks. exact Ks.
Qed.

Lemma blind_each_output {L : Type} (h : Output -> L -> M L) :
  (forall o l, blind (h o l)) -> forall os l, blind (each_output h os l).
Proof.
  intros Hh os. induction os as [| o os IH]; intros l; simpl.
  - intros m st. split; reflexivity.
  - apply blind_bind; [apply Hh | intros l'; apply IH].
Qed.

Lemma blind_on_end (p : Process) (close : option Z -> M unit)
      (error : str -> M unit) :
  (forall code, blind (close code)) -> (forall message, blind (error message)) ->
  blind (on_end p close error).
Proof.
  intros Hc He. unfold on_end. destruct (ending p) as [code | message errno].
  - apply Hc.
  - apply blind_bind; [apply He | intros _; apply Hc].
Qed.

Ltac blind_step :=
  first
    [ apply blind_bind; [| intros ?]
    | apply blind_on_end; intros ?
    | match goal with
      | |- blind (match ?x with _ => _ end) => destruct x
      | |- blind (if ?b then _ else _) => destruct b
      end
    | solve [intros ? ?; split; reflexivity] ].

Lemma blind_copy_data (o : Output) (l : str) : blind (copy_data o l).
Proof.
  destruct o as [data | data]; simpl.
  - unfold copy_stdout_data. repeat blind_step.
  - unfold copy_stderr_data. repeat blind_step.
Qed.

Lemma blind_pishrink_data (o : Output) (l : unit) : blind (pishrink_data o l).
Proof. destruct o; simpl; repeat blind_step. Qed.

Lemma blind_runShrink (w : World) : blind (runShrink w).
Proof.
  unfold runShrink.
  repeat first [apply blind_each_output; intros; apply blind_pishrink_data
               | blind_step].
Qed.

Lemma blind_runPishrink (w : World) : blind (runPishrink w).
Proof.
  unfold runPishrink. repeat first [apply blind_runShrink | blind_step].
Qed.

Lemma blind_runBackup (w : World) : blind (runBackup w).
Proof.
  unfold runBackup.
  repeat first [apply blind_each_output; intros; apply blind_copy_data
               | apply blind_runPishrink | blind_step].
Qed.

Lemma blind_runRestore (w : World) : blind (runRestore w).
Proof.
  unfold runRestore.
  repeat first [apply blind_each_output; intros; apply blind_copy_data
               | blind_step].
Qed.

(** A copy stage whose metrics were already brought up to date by the
    same chunks ends as it does from the metrics of before. *)
Lemma rebased_run (c : M unit) (os : App -> list Output) :
  blind c ->
  (forall s, metrics (run c s) = copy_metrics (os s) (metrics s)) ->
  (forall m s, os (rebase m s) = os s) ->
  forall m s,
    metrics s = copy_metrics (os s) m -> run c (rebase m s) = run c s.
Proof.
  intros Hb Hm Hos m s Hs.
  destruct (Hb m s) as (_ & H). apply rebase_eq in H. unfold run. rewrite H.
  rewrite <- (rebase_metrics (snd (c s))) at 2. f_equal.
  pose proof (Hm (rebase m s)) as H1. pose proof (Hm s) as H2.
  unfold run in H1, H2.
  rewrite H1, H2, Hos, metrics_rebase, Hs. symmetry. apply copy_metrics_twice.
Qed.

Lemma checkSourceAndBackup_probed (w : World) (st : App) :
  ending (child w (probeCmd (source st))) = on_close (Some 0%Z) ->
  exists st1,
    run (checkSourceAndBackup w) st = run (runBackup w) st1
    /\ inputs st1 = inputs st /\ metrics st1 = metrics st.
Proof.
  intros Hprobe. unfold checkSourceAndBackup. monad_simpl. rewrite Hprobe. simpl.
  eexists. split; [reflexivity |]. split; reflexivity.
Qed.

(** After the checks a run is its copy stage, begun with the inputs and
    the metrics the run was started with. *)
Lemma validateAndBackup_copy (w : World) (st : App) :
  ending (child w sudoCheckCmd) = on_close (Some 0%Z) ->
  ending (child w (probeCmd (source st))) = on_close (Some 0%Z) ->
  exists st1,
    run (validateAndBackup w) st = run (runBackup w) st1
    /\ inputs st1 = inputs st /\ metrics st1 = metrics st.
Proof.
  intros Hsudo Hprobe.
  destruct (validateAndBackup_unmounted w st Hsudo) as (st1 & message & Hc & Hm & E).
  apply control_tuple in Hc. destruct Hc as (Hmo & Hsrc & Hdst & _).
  assert (Hi1 : inputs st1 = inputs st) by (unfold inputs; congruence).
  destruct (checkSourceAndBackup_probed w st1) as (s1 & E1 & Hi & Hm1);
    [now rewrite Hsrc |].
  destruct (unmount_fails_to_start w (source st)).
  - set (Y := run (addLog message) (run (runBackup w) s1)).
    rewrite E1 in E. fold Y in E.
    assert (HiY : inputs Y = inputs st).
    { transitivity (inputs (run (runBackup w) s1)); [reflexivity |].
      rewrite (proj1 (proj2 (proj2 (runBackup_follows w s1 _ _ eq_refl eq_refl)))).
      congruence. }
    assert (HmY : metrics Y = metrics (run (runBackup w) s1)) by reflexivity.
    destruct (checkSourceAndBackup_probed w Y) as (sB & EB & HiB & HmB).
    { apply inputs_fields in HiY. destruct HiY as (_ & -> & _). exact Hprobe. }
    exists (rebase (metrics st) sB). split; [| split].
    + rewrite E, EB. symmetry.
      apply (rebased_run (runBackup w)
               (fun s => output (child w (ddCmd w (source s) (destination s))))
               (blind_runBackup w) (runBackup_metrics w)).
      * reflexivity.
      * rewrite HmB, HmY, runBackup_metrics.
        assert (Hs : inputs sB = inputs s1) by congruence.
        apply inputs_fields in Hs. destruct Hs as (_ & -> & ->). congruence.
    + transitivity (inputs sB); [reflexivity | congruence].
    + apply metrics_rebase.
  - exists s1. split; [congruence |]. split; congruence.
Qed.

Lemma validateAndRestore_copy (w : World) (st : App) :
  ending (child w sudoCheckCmd) = on_close (Some 0%Z) ->
  exists st1,
    run (validateAndRestore w) st = run (runRestore w) st1
    /\ inputs st1 = inputs st /\ metrics st1 = metrics st.
Proof.
  intros Hsudo.
  destruct (validateAndRestore_unmounted w st Hsudo) as (st1 & message & Hc & Hm & E).
  apply control_tuple in Hc. destruct Hc as (Hmo & Hsrc & Hdst & _).
  assert (Hi1 : inputs st1 = inputs st) by (unfold inputs; congruence).
  destruct (unmount_fails_to_start w (destination st)).
  - set (Y := run (addLog message) (run (runRestore w) st1)) in E.
    assert (HiY : inputs Y = inputs st1).
    { transitivity (inputs (run (runRestore w) st1)); [reflexivity |].
      apply (runRestore_follows w st1 _ _ eq_refl eq_refl). }
    assert (HmY : metrics Y = metrics (run (runRestore w) st1)) by reflexivity.
    exists (rebase (metrics st) Y). split; [| split].
    + rewrite E. symmetry.
      apply (rebased_run (runRestore w)
               (fun s => output (child w (restoreCmd w (source s) (destination s))))
               (blind_runRestore w) (runRestore_metrics w)).
      * reflexivity.
      * rewrite HmY, runRestore_metrics.
        apply inputs_fields in HiY. destruct HiY as (_ & -> & ->). congruence.
    + transitivity (inputs Y); [reflexivity | congruence].
    + apply metrics_rebase.
  - exists st1. split; [exact E |]. split; [exact Hi1 | exact Hm].
Qed.

(** C10, as the program has it.  Starting a run writes neither the inputs
    nor the metrics: after a successful privilege check (and, for a
    backup, a successful probe) the copy stage begins in a state with the
    inputs and metrics the run was started with; the copy stage changes
    [bytesWritten] only on a [stderr] chunk with a byte count; and in a
    session in which no run was started before, [bytesWritten] is the
    text 0. *)
Theorem start_keeps_metrics (w : World) (st : App) :
  ending (child w sudoCheckCmd) = on_close (Some 0%Z) ->
  ending (child w (probeCmd (source st))) = on_close (Some 0%Z) ->
  (exists st1,
      run (validateAndBackup w) st = run (runBackup w) st1
      /\ inputs st1 = inputs st /\ metrics st1 = metrics st
      /\ (Forall no_byte_count
                 (output (child w (ddCmd w (source st) (destination st)))) ->
          bytesWritten (run (validateAndBackup w) st) = bytesWritten st))
  /\ (exists st1,
         run (validateAndRestore w) st = run (runRestore w) st1
         /\ inputs st1 = inputs st /\ metrics st1 = metrics st
         /\ (Forall no_byte_count
                    (output (child w (restoreCmd w (source st) (destination st)))) ->
             bytesWritten (run (validateAndRestore w) st) = bytesWritten st))
  /\ (only_menus st -> bytesWritten st = txt "0").
Proof.
  intros Hsudo Hprobe. split; [| split].
  - destruct (validateAndBackup_copy w st Hsudo Hprobe) as (st1 & E & Hi & Hm).
    exists st1. split; [exact E |]. split; [exact Hi |]. split; [exact Hm |].
    intros Hout. rewrite E, runBackup_bytesWritten.
    + unfold metrics in Hm. congruence.
    + apply inputs_fields in Hi. destruct Hi as (_ & -> & ->). exact Hout.
  - destruct (validateAndRestore_copy w st Hsudo) as (st1 & E & Hi & Hm).
    exists st1. split; [exact E |]. split; [exact Hi |]. split; [exact Hm |].
    intros Hout. rewrite E, runRestore_bytesWritten.
    + unfold metrics in Hm. congruence.
    + apply inputs_fields in Hi. destruct Hi as (_ & -> & ->). exact Hout.
  - intros Hmenus. apply only_menus_metrics in Hmenus.
    unfold metrics in Hmenus. congruence.
Qed.

Lemma start_keeps_metrics_witness :
  let st := backup_of "/dev/rdisk9" "/tmp/out.img" in
  bytesWritten (run (validateAndBackup quiet_mac) st) = bytesWritten st
  /\ bytesWritten st = txt "0".
Proof.
  intros st.
  destruct (start_keeps_metrics quiet_mac st eq_refl eq_refl)
    as ((st1 & _ & _ & _ & H1) & _ & H3).
  split.
  - apply H1. constructor.
  - apply H3. unfold st, backup_of.
    apply (menus_file (txt "/tmp/out.img")).
    apply (menus_source (txt "/dev/rdisk9")).
    apply (menus_main (txt "backup")).
    apply menus_initial.
Defined.

(** C10 fails as it is written.  A first backup reads one progress chunk
    and then fails; the user chooses Try Again and the same device and
    file; the second run, whose copy writes nothing at all, starts and
    ends with the byte count of the first. *)
Lemma second_run_starts_with_old_metrics :
  let dd := ddCmd quiet_mac (txt "/dev/rdisk9") (txt "/tmp/out.img") in
  let first :=
    with_child quiet_mac dd
      (mkProcess [stderr (txt "1048576 bytes (1.0 MB, 1.0 MiB) copied, 1 s, 1.0 MB/s")]
                 (on_close (Some 1%Z))) in
  let st1 := run (confirm_onSelect first (txt "start"))
                 (backup_of "/dev/rdisk9" "/tmp/out.img") in
  let st2 := run (errorMenu_onSelect (txt "retry") ;;
                  sourceList_onSelect (txt "/dev/rdisk9") ;;
                  fileBrowser_onSelect (txt "/tmp/out.img")) st1 in
  let st3 := run (confirm_onSelect quiet_mac (txt "start")) st2 in
  state st1 = ERROR
  /\ state st2 = CONFIRM
  /\ bytesWritten st2 = txt "1.0 MB"
  /\ output (child quiet_mac dd) = []
  /\ visited st3 = visited st2 ++ [VALIDATING; BACKING_UP; SHRINKING; COMPLETE]
  /\ bytesWritten st3 = txt "1.0 MB"
  /\ bytesWritten st3 <> txt "0".
Proof.
  intros dd first st1 st2 st3.
  repeat (split; [reflexivity |]). vm_compute. discriminate.
Qed.

(** * Further properties *)

(** ** What every stage keeps *)

Section Keeps.

Variable P : App -> Prop.

Lemma keeps_ret {A : Type} (a : A) : keeps P (ret a).
Proof. intros st H. exact H. Qed.

Lemma keeps_gets {A : Type} (f : App -> A) : keeps P (gets f).
Proof. intros st H. exact H. Qed.

Lemma keeps_bind {A B : Type} (m : M A) (k : A -> M B) :
  keeps P m -> (forall a, keeps P (k a)) -> keeps P (bind m k).
Proof.
  intros Hm Hk st H. unfold bind. specialize (Hm st H).
  destruct (m st) as [a st1]. now apply Hk.
Qed.

Lemma keeps_each_output {L : Type} (h : Output -> L -> M L) :
  (forall o l, keeps P (h o l)) ->
  forall os l, keeps P (each_output h os l).
Proof.
  intros Hh os. induction os as [| o os IH]; intros l; simpl.
  - apply keeps_ret.
  - apply keeps_bind; [apply Hh | intros l'; apply IH].
Qed.

Lemma keeps_on_end (p : Process) (close : option Z -> M unit)
      (error : str -> M unit) :
  (forall code, keeps P (close code)) -> (forall message, keeps P (error message)) ->
  keeps P (on_end p close error).
Proof.
  intros Hc He. unfold on_end. destruct (ending p) as [code | message errno].
  - apply Hc.
  - apply keeps_bind; [apply He | intros _; apply Hc].
Qed.

Hypothesis P_setState : forall v, keeps P (setState v).
Hypothesis P_setError : forall v, keeps P (setError v).
Hypothesis P_setBytesWritten : forall v, keeps P (setBytesWritten v).
Hypothesis P_setSpeed : forall v, keeps P (setSpeed v).
Hypothesis P_setShrinkProgress : forall v, keeps P (setShrinkProgress v).
Hypothesis P_addLog : forall m, keeps P (addLog m).
Hypothesis P_spawn : forall w c, keeps P (spawn w c).
Hypothesis P_uncaught : forall m, keeps P (uncaught m).

Ltac keeps_step :=
  first
    [ apply keeps_ret | apply keeps_gets | apply P_setState | apply P_setError
    | apply P_setBytesWritten | apply P_setSpeed | apply P_setShrinkProgress
    | apply P_addLog | apply P_spawn | apply P_uncaught
    | apply keeps_bind; [| intros ?]
    | apply keeps_on_end; intros ?
    | match goal with
      | |- keeps _ (match ?x with _ => _ end) => destruct x
      | |- keeps _ (if ?b then _ else _) => destruct b
      end ].

Lemma keeps_copy_data (o : Output) (l : str) : keeps P (copy_data o l).
Proof.
  destruct o as [data | data]; simpl.
  - unfold copy_stdout_data. repeat keeps_step.
  - unfold copy_stderr_data. repeat keeps_step.
Qed.

Lemma keeps_pishrink_data (o : Output) (l : unit) : keeps P (pishrink_data o l).
Proof. destruct o; simpl; repeat keeps_step. Qed.

Lemma keeps_unmount_data (o : Output) (l : str) : keeps P (unmount_data o l).
Proof. destruct o; simpl; repeat keeps_step. Qed.

Lemma keeps_runShrink (w : World) : keeps P (runShrink w).
Proof.
  unfold runShrink.
  repeat first [apply keeps_each_output; intros; apply keeps_pishrink_data
               | keeps_step].
Qed.

Lemma keeps_runPishrink (w : World) : keeps P (runPishrink w).
Proof.
  unfold runPishrink. repeat first [apply keeps_runShrink | keeps_step].
Qed.

Lemma keeps_runBackup (w : World) : keeps P (runBackup w).
Proof.
  unfold runBackup.
  repeat first [apply keeps_each_output; intros; apply keeps_copy_data
               | apply keeps_runPishrink | keeps_step].
Qed.

Lemma keeps_checkSourceAndBackup (w : World) : keeps P (checkSourceAndBackup w).
Proof.
  unfold checkSourceAndBackup. repeat first [apply keeps_runBackup | keeps_step].
Qed.

Lemma keeps_validateAndBackup (w : World) : keeps P (validateAndBackup w).
Proof.
  unfold validateAndBackup.
  repeat first [apply keeps_each_output; intros; apply keeps_unmount_data
               | apply keeps_checkSourceAndBackup | keeps_step].
Qed.

Lemma keeps_runRestore (w : World) : keeps P (runRestore w).
Proof.
  unfold runRestore.
  repeat first [apply keeps_each_output; intros; apply keeps_copy_data
               | keeps_step].
Qed.

Lemma keeps_validateAndRestore (w : World) : keeps P (validateAndRestore w).
Proof.
  unfold validateAndRestore. repeat first [apply keeps_runRestore | keeps_step].
Qed.

End Keeps.

Lemma slice_last_length {A : Type} (n : nat) (l : list A) :
  length (slice_last n l) <= n.
Proof. unfold slice_last. rewrite length_skipn. lia. Qed.

Lemma slice_last_short {A : Type} (n : nat) (l : list A) :
  length l <= n -> slice_last n l = l.
Proof.
  unfold slice_last. intros H.
  replace (length l - n) with 0 by lia. reflexivity.
Qed.

Lemma addLog_cut_logs {A : Type} (v : STATES) (m : str) (k : M A) (st : App) :
  snd ((setState v ;; addLog m ;; k) st)
  = snd ((setState v ;; addLog m ;; k) (cut_logs st)).
Proof.
  unfold bind, setState, addLog, setLogs, cut_logs. simpl.
  rewrite (slice_last_short 5 (slice_last 5 (logs st)));
    [reflexivity | apply slice_last_length].
Qed.

Lemma validateAndBackup_cut_logs (w : World) (st : App) :
  run (validateAndBackup w) st = run (validateAndBackup w) (cut_logs st).
Proof. unfold validateAndBackup, run. apply addLog_cut_logs. Qed.

Lemma validateAndRestore_cut_logs (w : World) (st : App) :
  run (validateAndRestore w) st = run (validateAndRestore w) (cut_logs st).
Proof. unfold validateAndRestore, run. apply addLog_cut_logs. Qed.

(** X1. Whatever the log held before and whatever the children write, the
    log holds at most six lines after a backup run and after a restore
    run. *)
Theorem log_stays_bounded (w : World) (st : App) :
  length (logs (run (validateAndBackup w) st)) <= 6
  /\ length (logs (run (validateAndRestore w) st)) <= 6.
Proof.
  assert (K : forall (A : Type) (m : M A),
             (forall s, logs (snd (m s)) = logs s) ->
             keeps (fun s => length (logs s) <= 6) m).
  { intros A m Hm s Hs. now rewrite Hm. }
  assert (L : forall m, keeps (fun s => length (logs s) <= 6) (addLog m)).
  { intros m s _. unfold addLog, setLogs. simpl. rewrite length_app. simpl.
    pose proof (slice_last_length 5 (logs s)). lia. }
  assert (C : length (logs (cut_logs st)) <= 6).
  { unfold cut_logs. simpl. pose proof (slice_last_length 5 (logs st)). lia. }
  split.
  - rewrite validateAndBackup_cut_logs.
    apply (keeps_validateAndBackup (fun s => length (logs s) <= 6));
      try exact L; try exact C; intros; apply K; reflexivity.
  - rewrite validateAndRestore_cut_logs.
    apply (keeps_validateAndRestore (fun s => length (logs s) <= 6));
      try exact L; try exact C; intros; apply K; reflexivity.
Qed.

(** X2. A run never writes the inputs of the operation: mode, source and
    destination are after a backup run and after a restore run what they
    were before, in every world. *)
Theorem run_keeps_inputs (w : World) (st : App) :
  inputs (run (validateAndBackup w) st) = inputs st
  /\ inputs (run (validateAndRestore w) st) = inputs st.
Proof.
  assert (K : forall (A : Type) (m : M A),
             (forall s, inputs (snd (m s)) = inputs s) ->
             keeps (fun s => inputs s = inputs st) m).
  { intros A m Hm s Hs. now rewrite Hm. }
  split.
  - apply (keeps_validateAndBackup (fun s => inputs s = inputs st));
      try reflexivity; intros; apply K; reflexivity.
  - apply (keeps_validateAndRestore (fun s => inputs s = inputs st));
      try reflexivity; intros; apply K; reflexivity.
Qed.

(** ** The processes of a run, in order *)

Lemma validateAndBackup_commands (w : World) (st : App) :
  spawned (run (validateAndBackup w) st)
  = spawned st ++ backup_commands w (source st) (destination st).
Proof. apply validateAndBackup_follows. Qed.

Lemma validateAndRestore_commands (w : World) (st : App) :
  spawned (run (validateAndRestore w) st)
  = spawned st ++ restore_commands w (source st) (destination st).
Proof. apply validateAndRestore_follows. Qed.

Lemma not_in_unmount_spawned (w : World) (path : str) (c : Cmd) :
  by_sudo c -> ~ In c (unmount_spawned w path).
Proof.
  unfold unmount_spawned, by_sudo. intros Hc Hin.
  destruct (js_match re_disk path); [| destruct Hin].
  destruct (str_eqb (platform w) darwin); [| destruct Hin].
  destruct Hin as [<- | []]. discriminate Hc.
Qed.

(** X3. A backup starts its copy only after the privilege check and the
    probe of the source have both exited with 0: in every other world no
    [dd] is among the processes the run has started. *)
Theorem copy_only_after_checks (w : World) (st : App) (started : list Cmd) :
  spawned (run (validateAndBackup w) st) = spawned st ++ started ->
  In (ddCmd w (source st) (destination st)) started ->
  ending (child w sudoCheckCmd) = on_close (Some 0%Z)
  /\ ending (child w (probeCmd (source st))) = on_close (Some 0%Z).
Proof.
  intros Hrun Hin. rewrite validateAndBackup_commands in Hrun.
  apply app_inv_head in Hrun. subst started.
  unfold backup_commands in Hin.
  destruct Hin as [Hin | Hin]; [discriminate Hin |].
  destruct (zero_exit (child w sudoCheckCmd)) eqn:Hs; [| destruct Hin].
  split; [now apply zero_exit_spec |].
  apply in_app_or in Hin. destruct Hin as [Hin | Hin].
  - exfalso. revert Hin. now apply not_in_unmount_spawned.
  - apply in_twice_if in Hin. unfold probe_commands in Hin.
    destruct Hin as [Hin | Hin]; [discriminate Hin |].
    destruct (zero_exit (child w (probeCmd (source st)))) eqn:Hp; [| destruct Hin].
    now apply zero_exit_spec.
Qed.

Lemma copy_only_after_checks_witness :
  let st := backup_of "/dev/rdisk9" "/tmp/out.img" in
  ending (child quiet_mac sudoCheckCmd) = on_close (Some 0%Z)
  /\ ending (child quiet_mac (probeCmd (source st))) = on_close (Some 0%Z).
Proof.
  intros st.
  apply (copy_only_after_checks quiet_mac st
           [sudoCheckCmd; unmountCmd (txt "disk9"); probeCmd (source st);
            ddCmd quiet_mac (source st) (destination st);
            pishrinkCmd (destination st)]).
  - reflexivity.
  - right. right. right. left. reflexivity.
Defined.

(** X4. The shrink stage belongs to a successful copy: the download of
    pishrink and pishrink itself are among the processes a backup has
    started only when [dd] has exited with 0. *)
Theorem shrink_only_after_copy (w : World) (st : App) (started : list Cmd) (c : Cmd) :
  spawned (run (validateAndBackup w) st) = spawned st ++ started ->
  c = downloadCmd \/ c = pishrinkCmd (destination st) ->
  In c started ->
  ending (child w (ddCmd w (source st) (destination st))) = on_close (Some 0%Z).
Proof.
  intros Hrun Hc Hin. rewrite validateAndBackup_commands in Hrun.
  apply app_inv_head in Hrun. subst started.
  assert (Hsudo : by_sudo c) by (destruct Hc as [-> | ->]; reflexivity).
  assert (Hne : c <> sudoCheckCmd /\ c <> probeCmd (source st)
                /\ c <> ddCmd w (source st) (destination st)).
  { destruct Hc as [-> | ->]; repeat split; intros E; discriminate E. }
  destruct Hne as (N1 & N2 & N3).
  unfold backup_commands in Hin.
  destruct Hin as [Hin | Hin]; [now symmetry in Hin |].
  destruct (zero_exit (child w sudoCheckCmd)); [| destruct Hin].
  apply in_app_or in Hin. destruct Hin as [Hin | Hin].
  { exfalso. revert Hin. now apply not_in_unmount_spawned. }
  apply in_twice_if in Hin. unfold probe_commands, copy_commands in Hin.
  destruct Hin as [Hin | Hin]; [now symmetry in Hin |].
  destruct (zero_exit (child w (probeCmd (source st)))); [| destruct Hin].
  destruct Hin as [Hin | Hin]; [now symmetry in Hin |].
  destruct (zero_exit (child w (ddCmd w (source st) (destination st)))) eqn:Hd;
    [| destruct Hin].
  now apply zero_exit_spec.
Qed.

Lemma shrink_only_after_copy_witness :
  let st := backup_of "/dev/rdisk9" "/tmp/out.img" in
  let w := without_pishrink quiet_mac in
  ending (child w (ddCmd w (source st) (destination st))) = on_close (Some 0%Z).
Proof.
  intros st w.
  apply (shrink_only_after_copy w st
           [sudoCheckCmd; unmountCmd (txt "disk9"); probeCmd (source st);
            ddCmd w (source st) (destination st); downloadCmd;
            pishrinkCmd (destination st)] downloadCmd).
  - reflexivity.
  - left. reflexivity.
  - do 4 right. left. reflexivity.
Defined.

(** X5. A restore starts the privilege check, then (after its success) at
    most one unmount and then its copy, and nothing else.  The copy is
    started once, except when the unmount child cannot be started: both
    callbacks of that child start the copy, so it is started twice.  In
    no world does a restore download or run pishrink. *)
Theorem restore_process_sequence (w : World) (st : App) (started : list Cmd) :
  spawned (run (validateAndRestore w) st) = spawned st ++ started ->
  let copy := restoreCmd w (source st) (destination st) in
  (started = [sudoCheckCmd]
   \/ started = [sudoCheckCmd; copy]
   \/ exists diskName,
        (started = [sudoCheckCmd; unmountCmd diskName; copy]
         /\ fails_to_start (child w (unmountCmd diskName)) = false)
        \/ (started = [sudoCheckCmd; unmountCmd diskName; copy; copy]
            /\ fails_to_start (child w (unmountCmd diskName)) = true))
  /\ ~ In downloadCmd started
  /\ ~ In (pishrinkCmd (destination st)) started.
Proof.
  intros Hrun copy. rewrite validateAndRestore_commands in Hrun.
  apply app_inv_head in Hrun. subst started.
  assert (R1 : copy <> downloadCmd).
  { unfold copy, restoreCmd, gunzipPipeCmd, ddCmd, downloadCmd.
    destruct (isGzipped (source st)); intros E; injection E as E;
      discriminate E. }
  assert (R2 : copy <> pishrinkCmd (destination st)).
  { unfold copy, restoreCmd, gunzipPipeCmd, ddCmd, pishrinkCmd.
    destruct (isGzipped (source st)); intros E; injection E as E; discriminate E. }
  unfold restore_commands. fold copy.
  destruct (zero_exit (child w sudoCheckCmd)).
  - split; [| split].
    + destruct (unmount_spawned_cases w (destination st))
        as [(-> & ->) | (diskName & -> & ->)]; [now right; left |].
      right. right. exists diskName.
      destruct (fails_to_start (child w (unmountCmd diskName))); simpl; auto.
    + intros [E | Hin]; [discriminate E |].
      apply in_app_or in Hin. destruct Hin as [Hin | Hin].
      * revert Hin. now apply not_in_unmount_spawned.
      * apply in_twice_if in Hin. destruct Hin as [E | []]. now apply R1.
    + intros [E | Hin]; [discriminate E |].
      apply in_app_or in Hin. destruct Hin as [Hin | Hin].
      * revert Hin. now apply not_in_unmount_spawned.
      * apply in_twice_if in Hin. destruct Hin as [E | []]. now apply R2.
  - split; [now left |]. split; intros [E | []]; discriminate E.
Qed.

Lemma restore_process_sequence_witness :
  let st := restore_of "/tmp/in.img.gz" "/dev/rdisk9" in
  ~ In (pishrinkCmd (destination st))
       [sudoCheckCmd; unmountCmd (txt "disk9");
        gunzipPipeCmd (source st) (destination st)].
Proof.
  intros st.
  refine (proj2 (proj2 (restore_process_sequence quiet_mac st
                          [sudoCheckCmd; unmountCmd (txt "disk9");
                           gunzipPipeCmd (source st) (destination st)] _))).
  vm_compute. reflexivity.
Defined.

(** ** How a run ends *)

Ltac nonempty_text :=
  let E := fresh "E" in
  intros E;
  first [ discriminate E
        | apply app_eq_nil in E; destruct E as [E _]; discriminate E ].

Lemma backup_outcome_reason (w : World) (source destination reason : str) :
  backup_outcome w source destination = Errored reason -> reason <> [].
Proof.
  unfold backup_outcome, probe_outcome, copy_outcome, pishrink_outcome, sudo_failure.
  repeat match goal with
         | |- context [if ?b then _ else _] => destruct b
         end;
    intros E; try discriminate E; injection E as <-; nonempty_text.
Qed.

Lemma restore_outcome_reason (w : World) (source destination reason : str) :
  restore_outcome w source destination = Errored reason -> reason <> [].
Proof.
  unfold restore_outcome, restore_copy_outcome, sudo_failure.
  repeat match goal with
         | |- context [if ?b then _ else _] => destruct b
         end;
    intros E; try discriminate E; injection E as <-; nonempty_text.
Qed.

Lemma restore_outcome_ends (w : World) (source destination : str) :
  restore_outcome w source destination <> Stalled.
Proof.
  unfold restore_outcome, restore_copy_outcome.
  repeat match goal with
         | |- context [if ?b then _ else _] => destruct b
         end; discriminate.
Qed.

Lemma fails_to_start_spec (p : Process) :
  fails_to_start p = true <-> exists message errno, ending p = on_error message errno.
Proof.
  unfold fails_to_start. destruct (ending p) as [code | message errno].
  - split; [discriminate | intros (m & e & H); discriminate H].
  - split; [eauto | reflexivity].
Qed.

(** The one way a backup is left in SHRINKING. *)
Lemma backup_outcome_stalled (w : World) (source destination : str) :
  backup_outcome w source destination = Stalled <->
  ending (child w sudoCheckCmd) = on_close (Some 0%Z)
  /\ ending (child w (probeCmd source)) = on_close (Some 0%Z)
  /\ ending (child w (ddCmd w source destination)) = on_close (Some 0%Z)
  /\ existsSync w pishrinkPath = false
  /\ exists message errno, ending (child w downloadCmd) = on_error message errno.
Proof.
  rewrite <- !zero_exit_spec, <- fails_to_start_spec.
  unfold backup_outcome, probe_outcome, copy_outcome, pishrink_outcome.
  destruct (zero_exit (child w sudoCheckCmd));
    [| split; [discriminate | intros (H & _); discriminate H]].
  destruct (zero_exit (child w (probeCmd source)));
    [| split; [discriminate | intros (_ & H & _); discriminate H]].
  cbv zeta.
  destruct (zero_exit (child w (ddCmd w source destination)));
    [| split; [discriminate | intros (_ & _ & H & _); discriminate H]].
  destruct (existsSync w pishrinkPath);
    [split; [discriminate | intros (_ & _ & _ & H & _); discriminate H] |].
  destruct (fails_to_start (child w downloadCmd));
    [tauto | split; [discriminate | intros (_ & _ & _ & _ & H); discriminate H]].
Qed.

Lemma outcome_of_state (o : Outcome) (st st' : App) :
  outcome_of o st st' ->
  state st' = match o with
              | Completed => COMPLETE
              | Errored _ => ERROR
              | Stalled => SHRINKING
              end.
Proof. destruct o; intros [H _]; exact H. Qed.

(** X6. Every run comes to an end state.  A restore always ends in
    COMPLETE or in ERROR.  A backup ends in COMPLETE or in ERROR, or is
    left in SHRINKING; and it is left in SHRINKING exactly when the
    privilege check, the probe of the source and the copy have all
    exited with 0, pishrink is not installed, and the download child
    cannot be started. *)
Theorem run_ends (w : World) (st : App) :
  (state (run (validateAndRestore w) st) = COMPLETE
   \/ state (run (validateAndRestore w) st) = ERROR)
  /\ (state (run (validateAndBackup w) st) = COMPLETE
      \/ state (run (validateAndBackup w) st) = ERROR
      \/ state (run (validateAndBackup w) st) = SHRINKING)
  /\ (state (run (validateAndBackup w) st) = SHRINKING <->
      ending (child w sudoCheckCmd) = on_close (Some 0%Z)
      /\ ending (child w (probeCmd (source st))) = on_close (Some 0%Z)
      /\ ending (child w (ddCmd w (source st) (destination st))) = on_close (Some 0%Z)
      /\ existsSync w pishrinkPath = false
      /\ exists message errno,
          ending (child w downloadCmd) = on_error message errno).
Proof.
  destruct (validateAndRestore_follows w st) as (_ & _ & _ & HR).
  destruct (validateAndBackup_follows w st) as (_ & _ & _ & HB).
  apply outcome_of_state in HR, HB.
  pose proof (restore_outcome_ends w (source st) (destination st)) as NR.
  split; [| split].
  - rewrite HR. destruct (restore_outcome w (source st) (destination st));
      auto; contradiction.
  - rewrite HB. destruct (backup_outcome w (source st) (destination st)); auto.
  - rewrite <- backup_outcome_stalled, HB.
    destruct (backup_outcome w (source st) (destination st));
      split; intros H; try discriminate H; reflexivity.
Qed.

Lemma run_ends_witness :
  let st := backup_of "/dev/rdisk9" "/tmp/out.img" in
  let w := with_child (without_pishrink quiet_mac) downloadCmd
             (mkProcess [] (on_error (txt "spawn sudo EAGAIN") 35)) in
  state (run (validateAndBackup w) st) = SHRINKING.
Proof.
  intros st w.
  apply (proj2 (proj2 (run_ends w st))).
  repeat (split; [reflexivity |]).
  exists (txt "spawn sudo EAGAIN"), 35%positive. reflexivity.
Defined.

(** X7. An error is never shown without its reason, and a success never
    writes one: a run that ends in ERROR has a reason that is not empty,
    and a run that ends in COMPLETE leaves the error text as it was. *)
Theorem error_iff_reason (w : World) (st : App) :
  forall st',
    st' = run (validateAndBackup w) st \/ st' = run (validateAndRestore w) st ->
    (state st' = ERROR -> error st' <> [])
    /\ (state st' = COMPLETE -> error st' = error st).
Proof.
  intros st' [-> | ->].
  - destruct (validateAndBackup_follows w st) as (_ & _ & _ & H).
    pose proof (backup_outcome_reason w (source st) (destination st)) as R.
    destruct (backup_outcome w (source st) (destination st)) as [| reason |];
      destruct H as (H1 & H2); split; intros H; try congruence.
    rewrite H2. now apply R.
  - destruct (validateAndRestore_follows w st) as (_ & _ & _ & H).
    pose proof (restore_outcome_reason w (source st) (destination st)) as R.
    destruct (restore_outcome w (source st) (destination st)) as [| reason |];
      destruct H as (H1 & H2); split; intros H; try congruence.
    rewrite H2. now apply R.
Qed.

Lemma error_iff_reason_witness :
  let w := with_child quiet_mac (probeCmd (txt "/dev/rdisk9")) (exits 1) in
  let st := backup_of "/dev/rdisk9" "/tmp/out.img" in
  error (run (validateAndBackup w) st) <> [].
Proof.
  intros w st.
  exact (proj1 (error_iff_reason w st _ (or_introl eq_refl)) eq_refl).
Defined.

(** ** What the progress parser can show *)


Lemma copy_stderr_data_metrics (data lastError : str) (st : App) :
  let st' := run (copy_stderr_data data lastError) st in
  bytesWritten st'
  = match bytes data with
    | Some b => mebibytes_toFixed1 b ++ txt " MB"
    | None => bytesWritten st
    end
  /\ speed st'
     = match rateText data with
       | Some r => r
       | None => speed st
       end.
Proof.
  unfold copy_stderr_data. monad_simpl.
  destruct (bytes data); destruct (rateText data); simpl; split; reflexivity.
Qed.



(** X9. The rate shown always reads as a number, one blank and a unit.
    When a chunk of the copy's error stream changes the rate, the new
    text is a run of digits and dots taken from the chunk, a single blank
    (whatever white space the chunk had there, none included), and one of
    the units [B/s], [KB/s], [MB/s], [GB/s]. *)
Theorem rate_shown_shape (data lastError : str) (st : App) :
  let st' := run (copy_stderr_data data lastError) st in
  speed st' = speed st
  \/ exists d ws u,
       contains (d ++ ws ++ u) data
       /\ d <> [] /\ Forall (fun c => digit_or_dot c = true) d
       /\ Forall (fun c => is_space c = true) ws
       /\ In u [txt "B/s"; txt "KB/s"; txt "MB/s"; txt "GB/s"]
       /\ speed st' = d ++ txt " " ++ u.
Proof.
  intros st'. destruct (copy_stderr_data_metrics data lastError st) as (_ & Hr).
  fold st' in Hr. unfold rateText in Hr.
  destruct (js_match re_speed data) as [m |] eqn:E; [| now left].
  right. destruct (js_match_some _ _ _ E) as (a & c & Hs & L & _).
  apply parses_speed in L.
  destruct L as (d & ws & u & Hw & Hg & Hd & Hdd & Hws & Hu).
  exists d, ws, (u ++ txt "B/s").
  split; [exists a, c; now rewrite <- Hw |].
  split; [exact Hd |]. split; [exact Hdd |]. split; [exact Hws |].
  split.
  - destruct Hu as [-> | (x & -> & Hx)]; [now left |].
    unfold one_of in Hx. simpl in Hx.
    repeat (apply orb_true_iff in Hx; destruct Hx as [Hx | Hx]);
      try discriminate Hx; apply Ascii.eqb_eq in Hx; subst x; simpl; auto.
  - rewrite Hr. unfold group. rewrite Hg. reflexivity.
Qed.

(** ** The device list *)

(** *** Global matching *)

Lemma match_all_sound (r : regex) (s : str) :
  forall (skip : nat) (w : str),
    In w (match_all r s skip) ->
    exists a c g, s = a ++ w ++ c /\ parses r w g.
Proof.
  induction s as [| x s IH]; intros skip w; destruct skip as [| skip]; simpl.
  - destruct (exec r []) as [| [g s'] l] eqn:E; [intros [] |].
    destruct (exec_head _ _ _ _ _ E) as (a & Hs & Hc & L).
    cbn [snd]. rewrite Hc. intros [<- | []].
    exists [], s', g. split; [exact Hs | exact L].
  - intros [].
  - destruct (exec r (x :: s)) as [| [g s'] l] eqn:E.
    + intros Hin. destruct (IH _ _ Hin) as (a & c & g & -> & L).
      exists (x :: a), c, g. now split.
    + destruct (exec_head _ _ _ _ _ E) as (a & Hs & Hc & L).
      cbn [snd]. rewrite Hc. intros [<- | Hin].
      * exists [], s', g. split; [exact Hs | exact L].
      * destruct (IH _ _ Hin) as (a' & c & g' & -> & L').
        exists (x :: a'), c, g'. now split.
  - intros Hin. destruct (IH _ _ Hin) as (a & c & g & -> & L).
    exists (x :: a), c, g. now split.
Qed.

Section Scan.

Variable r : regex.

(** Two matches of [r] in one text either are the same match or the
    later one starts where the earlier one has ended. *)
Hypothesis apart :
  forall b c a' b' c',
    lang r b -> lang r b' -> b ++ c = a' ++ b' ++ c' ->
    (a' = [] /\ b = b') \/ length b <= length a'.

Lemma match_all_complete (s : str) :
  forall (skip : nat) (a b c : str),
    s = a ++ b ++ c -> lang r b -> skip <= length a ->
    In b (match_all r s skip).
Proof.
  induction s as [| x s IH]; intros skip a b c Hs Lb Hskip.
  - symmetry in Hs. apply app_eq_nil in Hs. destruct Hs as [-> Hs].
    apply app_eq_nil in Hs. destruct Hs as [-> ->].
    simpl in Hskip. assert (skip = 0) by lia. subst skip. simpl.
    destruct Lb as (g & Lb). pose proof (exec_complete _ _ _ Lb []) as Hin.
    simpl in Hin. destruct (exec r []) as [| [g' s'] l] eqn:E; [destruct Hin |].
    destruct (exec_head _ _ _ _ _ E) as (a & Ha & Hc & _).
    symmetry in Ha. apply app_eq_nil in Ha. destruct Ha as [-> ->].
    now left.
  - destruct skip as [| skip]; simpl.
    + destruct (exec r (x :: s)) as [| [g' s'] l] eqn:E.
      * destruct a as [| y a].
        -- destruct Lb as (g & Lb).
           pose proof (exec_complete _ _ _ Lb c) as Hin.
           simpl in Hs. rewrite <- Hs, E in Hin. destruct Hin.
        -- simpl in Hs. injection Hs as _ Hs.
           apply (IH 0 a b c Hs Lb). lia.
      * destruct (exec_head _ _ _ _ _ E) as (w & Hw & Hc & Lw).
        simpl. rewrite Hc.
        assert (L : lang r w) by now exists g'.
        assert (E2 : w ++ s' = a ++ b ++ c) by congruence.
        destruct (apart _ _ _ _ _ L Lb E2) as [[-> ->] | Hlen]; [now left |].
        destruct a as [| y a].
        -- simpl in Hlen. assert (w = []) by (destruct w; [reflexivity | simpl in Hlen; lia]).
           subst w. simpl in E2. simpl in Hs.
           destruct (apart _ _ [] _ _ Lb L (eq_sym E2)) as [[_ ->] | Hlen'];
             [now left |].
           simpl in Hlen'. assert (b = []) by (destruct b; [reflexivity | simpl in Hlen'; lia]).
           subst b. now left.
        -- right. simpl in Hs. injection Hs as _ Hs.
           apply (IH _ a b c Hs Lb). simpl in Hlen. lia.
    + destruct a as [| y a]; [simpl in Hskip; lia |].
      simpl in Hs. injection Hs as _ Hs.
      apply (IH skip a b c Hs Lb). simpl in Hskip. lia.
Qed.

End Scan.

(** *** The disks of the property list *)

Lemma parses_disk_number (b : str) (g : list str) :
  parses disk_number b g ->
  exists ds,
    b = txt "disk" ++ ds /\ g = []
    /\ ds <> [] /\ Forall (fun c => is_digit c = true) ds.
Proof.
  unfold disk_number. intros H.
  apply parses_Cat in H. destruct H as (a1 & ds & g1 & g2 & -> & -> & H1 & H2).
  apply parses_Lit_chars in H1. destruct H1 as (-> & ->).
  apply parses_Plus in H2. destruct H2 as (-> & Hne & Hd).
  exists ds. auto.
Qed.

Lemma parses_plist_disk (b : str) (g : list str) :
  parses re_plist_disk b g ->
  exists ds,
    b = txt "<string>" ++ (txt "disk" ++ ds) ++ txt "</string>"
    /\ ds <> [] /\ Forall (fun c => is_digit c = true) ds.
Proof.
  unfold re_plist_disk. intros H.
  apply parses_Cat in H. destruct H as (a1 & a2 & g1 & g2 & -> & -> & H1 & H2).
  apply parses_Lit_chars in H1. destruct H1 as (-> & ->).
  apply parses_Cat in H2. destruct H2 as (a3 & a4 & g3 & g4 & -> & -> & H3 & H4).
  apply parses_Group in H3. destruct H3 as (g3' & -> & H3).
  apply parses_disk_number in H3. destruct H3 as (ds & -> & -> & Hne & Hd).
  apply parses_Lit_chars in H4. destruct H4 as (-> & ->).
  exists ds. auto.
Qed.

Lemma first_disk_number (ds rest : str) :
  ds <> [] -> Forall (fun c => is_digit c = true) ds -> stops is_digit rest ->
  hd_error (exec disk_number ((txt "disk" ++ ds) ++ rest)) = Some ([], rest).
Proof.
  intros Hne Hd Hrest. rewrite <- app_assoc. unfold disk_number.
  apply (first_Cat _ _ _ (ds ++ rest) rest [] []).
  - apply first_Lit_chars.
  - now apply first_Plus.
Qed.

Lemma lang_plist_disk (ds : str) :
  ds <> [] -> Forall (fun c => is_digit c = true) ds ->
  lang re_plist_disk (txt "<string>" ++ (txt "disk" ++ ds) ++ txt "</string>").
Proof.
  intros Hne Hd. unfold re_plist_disk.
  apply lang_Cat. exists (txt "<string>"), ((txt "disk" ++ ds) ++ txt "</string>").
  split; [reflexivity |]. split; [now apply lang_Lit |].
  apply lang_Cat. exists (txt "disk" ++ ds), (txt "</string>").
  split; [reflexivity |]. split; [| now apply lang_Lit].
  apply lang_Group. unfold disk_number. apply lang_Cat.
  exists (txt "disk"), ds. split; [reflexivity |].
  split; [now apply lang_Lit | now apply lang_Plus].
Qed.

Lemma js_match_skip (r : regex) (x : ascii) (s : str) :
  exec r (x :: s) = [] -> js_match r (x :: s) = js_match r s.
Proof. simpl. now intros ->. Qed.

Lemma exec_disk_number_other (x : ascii) (s : str) :
  Ascii.eqb "d" x = false -> exec disk_number (x :: s) = [].
Proof. unfold disk_number, Lit, txt. simpl. now intros ->. Qed.

(** The identifier read back from a match of the list pattern: the
    inner [match] never returns [null]. *)
Lemma diskOf_plist_disk (ds : str) :
  ds <> [] -> Forall (fun c => is_digit c = true) ds ->
  diskOf (txt "<string>" ++ (txt "disk" ++ ds) ++ txt "</string>")
  = Some (txt "disk" ++ ds).
Proof.
  intros Hne Hd. unfold diskOf, re_disk_name.
  assert (E : js_match disk_number
                (txt "<string>" ++ (txt "disk" ++ ds) ++ txt "</string>")
              = js_match disk_number ((txt "disk" ++ ds) ++ txt "</string>")).
  { unfold txt at 1. cbn [list_ascii_of_string app].
    repeat (rewrite js_match_skip by (apply exec_disk_number_other; reflexivity)).
    reflexivity. }
  rewrite E.
  rewrite (js_match_first disk_number (txt "disk" ++ ds) (txt "</string>") []);
    [reflexivity |].
  apply first_disk_number; [exact Hne | exact Hd | reflexivity].
Qed.

Lemma no_digit_is_angle (ds : str) :
  Forall (fun c => is_digit c = true) ds -> ~ In "<"%char ds.
Proof.
  intros Hd Hin. rewrite Forall_forall in Hd. apply Hd in Hin. discriminate Hin.
Qed.

Lemma plist_disk_apart (b c a' b' c' : str) :
  lang re_plist_disk b -> lang re_plist_disk b' ->
  b ++ c = a' ++ b' ++ c' ->
  (a' = [] /\ b = b') \/ length b <= length a'.
Proof.
  intros (g & L) (g' & L') E.
  apply parses_plist_disk in L. destruct L as (ds & -> & Hne & Hd).
  apply parses_plist_disk in L'. destruct L' as (ds' & -> & Hne' & Hd').
  destruct a' as [| y a'].
  - left. split; [reflexivity |].
    change ([] ++ ?x) with x in E. rewrite <- !app_assoc in E.
    apply app_inv_head in E. apply app_inv_head in E.
    unfold txt in E. cbn [list_ascii_of_string app] in E.
    apply span_unique with (P := is_digit) in E;
      [| assumption | assumption | reflexivity | reflexivity].
    destruct E as (-> & _). reflexivity.
  - destruct (Nat.le_gt_cases
                (length (txt "<string>" ++ (txt "disk" ++ ds) ++ txt "</string>"))
                (length (y :: a'))) as [Hle | Hgt]; [now right |].
    exfalso. symmetry in E.
    destruct (cut_before _ _ _ _ E (Nat.lt_le_incl _ _ Hgt)) as (x & Hb & Hx).
    destruct x as [| x0 x].
    { rewrite app_nil_r in Hb. rewrite Hb in Hgt. lia. }
    unfold txt in Hx at 1. cbn [list_ascii_of_string app] in Hx.
    injection Hx as <- Hx.
    unfold txt in Hb at 1. cbn [list_ascii_of_string app] in Hb.
    injection Hb as <- Hb.
    assert (Hcut : (txt "string>disk" ++ ds) ++ "<"%char :: txt "/string>"
                   = a' ++ "<"%char :: x) by exact Hb.
    apply unique_cut in Hcut.
    + destruct Hcut as (_ & <-).
      unfold txt in Hx. cbn [list_ascii_of_string app] in Hx. discriminate Hx.
    + unfold txt. cbn [list_ascii_of_string app].
      intros Hin. repeat (destruct Hin as [Hin | Hin]; [discriminate Hin |]).
      revert Hin. now apply no_digit_is_angle.
    + unfold txt. cbn [list_ascii_of_string]. intros Hin.
      repeat (destruct Hin as [Hin | Hin]; [discriminate Hin |]). exact Hin.
Qed.

(** *** Sets and maps *)

Lemma existsb_str_eqb (x : str) (l : list str) :
  existsb (str_eqb x) l = true <-> In x l.
Proof.
  rewrite existsb_exists. split.
  - intros (y & Hin & E). apply str_eqb_eq in E. now subst.
  - intros Hin. exists x. split; [exact Hin | now apply str_eqb_eq].
Qed.

Lemma set_of_from (l seen : list str) :
  NoDup seen ->
  NoDup (fold_left set_add l seen)
  /\ forall x, In x (fold_left set_add l seen) <-> In x seen \/ In x l.
Proof.
  revert seen. induction l as [| y l IH]; intros seen Hnd; simpl.
  - split; [exact Hnd |]. intros x. tauto.
  - unfold set_add at 2 4. destruct (existsb (str_eqb y) seen) eqn:E.
    + apply existsb_str_eqb in E. destruct (IH seen Hnd) as (H1 & H2).
      split; [exact H1 |]. intros x. rewrite H2.
      split; [tauto |]. intros [H | [<- | H]]; auto.
    + assert (Hy : ~ In y seen).
      { intros Hin. apply existsb_str_eqb in Hin. congruence. }
      assert (Hnd' : NoDup (seen ++ [y])).
      { apply NoDup_app; [exact Hnd | repeat constructor; intros [] |].
        intros x Hx [<- | []]. contradiction. }
      destruct (IH _ Hnd') as (H1 & H2).
      split; [exact H1 |]. intros x. rewrite H2, in_app_iff. simpl. tauto.
Qed.

Lemma set_of_spec (l : list str) :
  NoDup (set_of l) /\ forall x, In x (set_of l) <-> In x l.
Proof.
  destruct (set_of_from l [] (NoDup_nil _)) as (H1 & H2).
  split; [exact H1 |]. intros x. unfold set_of. rewrite H2. simpl. tauto.
Qed.

Lemma map_throwing_total {A B : Type} (f : A -> option B) (g : A -> B)
      (l : list A) :
  (forall x, In x l -> f x = Some (g x)) ->
  map_throwing f l = Some (map g l).
Proof.
  induction l as [| x l IH]; intros H; simpl; [reflexivity |].
  rewrite (H x (or_introl eq_refl)), IH; [reflexivity |].
  intros y Hy. apply H. now right.
Qed.

Lemma map_indexed_value {A : Type} (f : A -> nat -> Item.t) (v : A -> str)
      (l : list A) :
  (forall x idx, Item.value (f x idx) = v x) ->
  forall idx, map Item.value (map_indexed f idx l) = map v l.
Proof.
  intros H. induction l as [| x l IH]; intros idx; simpl; [reflexivity |].
  now rewrite H, IH.
Qed.

Lemma map_indexed_In {A B : Type} (f : A -> nat -> B) (l : list A) (y : B) :
  forall idx,
    In y (map_indexed f idx l) -> exists x i, In x l /\ y = f x i.
Proof.
  induction l as [| x l IH]; intros idx; simpl; [intros [] |].
  intros [<- | Hin]; [now exists x, idx; auto |].
  destruct (IH _ Hin) as (x' & i & Hx & ->). exists x', i. auto.
Qed.

Lemma diskItem_fields (execSync : str -> option str) (disk : str) (idx : nat) :
  Item.value (diskItem execSync disk idx) = txt "/dev/r" ++ disk
  /\ Item.key (diskItem execSync disk idx) = Some (diskKey idx disk).
Proof.
  unfold diskItem. destruct (execSync (infoCmd disk)); split; reflexivity.
Qed.

(** The names [getDisks] gets from the output of [diskutil list]. *)
Lemma getDisks_darwin (execSync : str -> option str) (output : str) :
  execSync listCmd = Some output ->
  exists names,
    getDisks darwin execSync = map_indexed (diskItem execSync) 0 names
    /\ NoDup names
    /\ forall disk,
        In disk names <->
        exists ds,
          disk = txt "disk" ++ ds /\ ds <> []
          /\ Forall (fun c => is_digit c = true) ds
          /\ contains (txt "<string>" ++ disk ++ txt "</string>") output.
Proof.
  intros Hlist. unfold getDisks.
  assert (Hd : str_eqb darwin darwin = true) by now apply str_eqb_eq.
  rewrite Hd, Hlist.
  set (diskMatches := match_all re_plist_disk output 0).
  set (name := fun m : str => skipn 8 (firstn (length m - 9) m)).
  assert (Hm : forall m, In m diskMatches ->
             exists ds, m = txt "<string>" ++ (txt "disk" ++ ds) ++ txt "</string>"
                        /\ ds <> [] /\ Forall (fun c => is_digit c = true) ds
                        /\ contains m output).
  { intros m Hin. apply match_all_sound in Hin.
    destruct Hin as (a & c & g & Hs & L). apply parses_plist_disk in L.
    destruct L as (ds & -> & Hne & Hds). exists ds.
    split; [reflexivity |]. split; [exact Hne |]. split; [exact Hds |].
    now exists a, c. }
  assert (Hname : forall ds,
             name (txt "<string>" ++ (txt "disk" ++ ds) ++ txt "</string>")
             = txt "disk" ++ ds).
  { intros ds. unfold name.
    replace (txt "<string>" ++ (txt "disk" ++ ds) ++ txt "</string>")
      with ((txt "<string>" ++ txt "disk" ++ ds) ++ txt "</string>")
      by now rewrite <- !app_assoc.
    rewrite length_app.
    replace (length (txt "<string>" ++ txt "disk" ++ ds) + length (txt "</string>") - 9)
      with (length (txt "<string>" ++ txt "disk" ++ ds) + 0)
      by (change (length (txt "</string>")) with 9; lia).
    rewrite firstn_app_2. simpl firstn. rewrite app_nil_r. reflexivity. }
  rewrite (map_throwing_total diskOf name).
  2:{ intros m Hin. destruct (Hm m Hin) as (ds & -> & Hne & Hds & _).
      rewrite Hname. now apply diskOf_plist_disk. }
  exists (set_of (map name diskMatches)).
  destruct (set_of_spec (map name diskMatches)) as (Hnd & Hin).
  split; [reflexivity |]. split; [exact Hnd |].
  intros disk. rewrite Hin, in_map_iff. split.
  - intros (m & <- & Hmin). destruct (Hm m Hmin) as (ds & -> & Hne & Hds & Hc).
    exists ds. rewrite Hname. auto.
  - intros (ds & -> & Hne & Hds & (a & c & Hc)).
    exists (txt "<string>" ++ (txt "disk" ++ ds) ++ txt "</string>").
    split; [apply Hname |].
    apply (match_all_complete re_plist_disk plist_disk_apart output 0 a _ c).
    + rewrite Hc. now rewrite <- !app_assoc.
    + now apply lang_plist_disk.
    + lia.
Qed.

Lemma NoDup_map_app (p : str) (l : list str) :
  NoDup l -> NoDup (map (app p) l).
Proof.
  induction 1 as [| x l Hx _ IH]; simpl; constructor; [| exact IH].
  rewrite in_map_iff. intros (y & E & Hy). apply app_inv_head in E.
  now subst.
Qed.

(** X10. On darwin, when [diskutil list] answers, the devices offered
    are exactly the raw devices [/dev/rdiskN] of the identifiers [diskN]
    that stand between [<string>] and [</string>] in its output: each one
    once, however often it is listed, and whether or not [diskutil info]
    answers for it.  In particular the identifier read back from a match
    is always there, so the failure entry is never returned in this
    case. *)
Theorem darwin_disks_listed (execSync : str -> option str) (output : str) :
  execSync listCmd = Some output ->
  let values := map Item.value (getDisks darwin execSync) in
  NoDup values
  /\ forall v,
      In v values <->
      exists ds,
        v = txt "/dev/rdisk" ++ ds /\ ds <> []
        /\ Forall (fun c => is_digit c = true) ds
        /\ contains (txt "<string>disk" ++ ds ++ txt "</string>") output.
Proof.
  intros Hlist values.
  destruct (getDisks_darwin execSync output Hlist) as (names & E & Hnd & Hin).
  assert (Hv : values = map (app (txt "/dev/r")) names).
  { unfold values. rewrite E. apply map_indexed_value.
    intros x idx. apply diskItem_fields. }
  rewrite Hv. split; [now apply NoDup_map_app |].
  intros v. rewrite in_map_iff. split.
  - intros (disk & <- & Hd). apply Hin in Hd.
    destruct Hd as (ds & -> & Hne & Hds & Hc).
    exists ds. split; [reflexivity |]. split; [exact Hne |].
    split; [exact Hds |]. destruct Hc as (a & c & ->). exists a, c.
    now rewrite <- !app_assoc.
  - intros (ds & -> & Hne & Hds & Hc). exists (txt "disk" ++ ds).
    split; [reflexivity |]. apply Hin. exists ds.
    split; [reflexivity |]. split; [exact Hne |]. split; [exact Hds |].
    destruct Hc as (a & c & ->). exists a, c. now rewrite <- !app_assoc.
Qed.

Lemma darwin_disks_listed_witness :
  In (txt "/dev/rdisk4")
     (map Item.value
          (getDisks darwin
             (fun _ => Some (txt "<array><string>disk4</string></array>")))).
Proof.
  apply (proj2 (darwin_disks_listed
                  (fun _ => Some (txt "<array><string>disk4</string></array>"))
                  _ eq_refl)).
  exists (txt "4"). split; [reflexivity |]. split; [discriminate |].
  split; [repeat constructor |].
  exists (txt "<array>"), (txt "</array>"). reflexivity.
Defined.

(** *** The disk that is unmounted *)

Lemma js_match_device (r' ds rest : str) :
  r' = [] \/ r' = txt "r" ->
  ds <> [] -> Forall (fun c => is_digit c = true) ds -> stops is_digit rest ->
  js_match re_disk (txt "/dev/" ++ r' ++ (txt "disk" ++ ds) ++ rest)
  = Some (mkMatch (r' ++ txt "disk" ++ ds) [txt "disk" ++ ds]).
Proof.
  intros Hr Hne Hd Hrest.
  assert (E : js_match re_disk (txt "/dev/" ++ r' ++ (txt "disk" ++ ds) ++ rest)
              = js_match re_disk (r' ++ (txt "disk" ++ ds) ++ rest)).
  { unfold txt at 1. cbn [list_ascii_of_string app].
    rewrite js_match_skip by reflexivity.
    rewrite js_match_skip by reflexivity.
    rewrite js_match_skip by reflexivity.
    rewrite js_match_skip by reflexivity.
    rewrite js_match_skip by reflexivity.
    reflexivity. }
  rewrite E.
  replace (r' ++ (txt "disk" ++ ds) ++ rest)
    with ((r' ++ txt "disk" ++ ds) ++ rest) by now rewrite <- !app_assoc.
  apply js_match_first. rewrite <- app_assoc. unfold re_disk.
  apply (first_Cat _ _ _ ((txt "disk" ++ ds) ++ rest) rest [] [txt "disk" ++ ds]).
  - destruct Hr as [-> | ->]; reflexivity.
  - apply first_Group. now apply first_disk_number.
Qed.

Lemma unmount_spawned_device (w : World) (r' ds rest : str) :
  platform w = darwin ->
  r' = [] \/ r' = txt "r" ->
  ds <> [] -> Forall (fun c => is_digit c = true) ds -> stops is_digit rest ->
  unmount_spawned w (txt "/dev/" ++ r' ++ (txt "disk" ++ ds) ++ rest)
  = [unmountCmd (txt "disk" ++ ds)].
Proof.
  intros Hp Hr Hne Hd Hrest. unfold unmount_spawned.
  rewrite (js_match_device r' ds rest Hr Hne Hd Hrest), Hp.
  assert (E : str_eqb darwin darwin = true) by now apply str_eqb_eq.
  rewrite E. reflexivity.
Qed.

(** X11. On darwin the device [/dev/diskN] and the raw device
    [/dev/rdiskN], with or without a partition suffix, name the same disk
    to the validation: after the privilege check has succeeded, a backup
    from such a source and a restore onto such a destination start
    [diskutil unmountDisk diskN] next. *)
Theorem unmount_target (w : World) (st : App) (ds rest : str) :
  platform w = darwin ->
  ds <> [] -> Forall (fun c => is_digit c = true) ds -> stops is_digit rest ->
  ending (child w sudoCheckCmd) = on_close (Some 0%Z) ->
  let unmount :=
    mkCmd (txt "diskutil") [txt "unmountDisk"; txt "disk" ++ ds] in
  (source st = txt "/dev/rdisk" ++ ds ++ rest
   \/ source st = txt "/dev/disk" ++ ds ++ rest ->
   exists more,
     spawned (run (validateAndBackup w) st)
     = spawned st ++ sudoCheckCmd :: unmount :: more)
  /\ (destination st = txt "/dev/rdisk" ++ ds ++ rest
      \/ destination st = txt "/dev/disk" ++ ds ++ rest ->
      exists more,
        spawned (run (validateAndRestore w) st)
        = spawned st ++ sudoCheckCmd :: unmount :: more).
Proof.
  intros Hp Hne Hd Hrest Hsudo unmount. apply zero_exit_spec in Hsudo.
  assert (U : forall path,
             path = txt "/dev/rdisk" ++ ds ++ rest
             \/ path = txt "/dev/disk" ++ ds ++ rest ->
             unmount_spawned w path = [unmount]).
  { intros path [-> | ->].
    - exact (unmount_spawned_device w (txt "r") ds rest Hp
               (or_intror eq_refl) Hne Hd Hrest).
    - exact (unmount_spawned_device w [] ds rest Hp
               (or_introl eq_refl) Hne Hd Hrest). }
  split; intros Hpath.
  - rewrite validateAndBackup_commands. unfold backup_commands.
    rewrite Hsudo, (U _ Hpath). simpl. eauto.
  - rewrite validateAndRestore_commands. unfold restore_commands.
    rewrite Hsudo, (U _ Hpath). simpl. eauto.
Qed.

Lemma unmount_target_witness :
  let st := backup_of "/dev/rdisk4s1" "/tmp/out.img" in
  exists more,
    spawned (run (validateAndBackup quiet_mac) st)
    = spawned st
        ++ sudoCheckCmd
        :: mkCmd (txt "diskutil") [txt "unmountDisk"; txt "disk" ++ txt "4"]
        :: more.
Proof.
  intros st.
  refine (proj1 (unmount_target quiet_mac st (txt "4") (txt "s1")
                   eq_refl _ _ _ eq_refl) _).
  - discriminate.
  - repeat constructor.
  - reflexivity.
  - left. reflexivity.
Defined.

(** X12. From the list to the run: on darwin, a backup whose source is
    an entry of the device list starts, after the privilege check has
    succeeded, the unmount of the very disk that [diskutil list] named,
    and then the probe of the source. *)
Theorem listed_disk_is_unmounted
        (w : World) (execSync : str -> option str) (output : str)
        (d : Item.t) (st : App) :
  platform w = darwin ->
  execSync listCmd = Some output ->
  In d (getDisks (platform w) execSync) ->
  source st = Item.value d ->
  ending (child w sudoCheckCmd) = on_close (Some 0%Z) ->
  exists disk rest,
    Item.value d = txt "/dev/r" ++ disk
    /\ contains (txt "<string>" ++ disk ++ txt "</string>") output
    /\ spawned (run (validateAndBackup w) st)
       = spawned st
           ++ sudoCheckCmd :: unmountCmd disk :: probeCmd (source st) :: rest.
Proof.
  intros Hp Hlist Hin Hsrc Hsudo. rewrite Hp in Hin.
  destruct (getDisks_darwin execSync output Hlist) as (names & E & _ & Hnames).
  rewrite E in Hin. apply map_indexed_In in Hin.
  destruct Hin as (disk & idx & Hdisk & ->).
  apply Hnames in Hdisk. destruct Hdisk as (ds & -> & Hne & Hds & Hc).
  destruct (diskItem_fields execSync (txt "disk" ++ ds) idx) as (Hv & _).
  rewrite Hv in Hsrc |- *.
  assert (Hu : unmount_spawned w (source st) = [unmountCmd (txt "disk" ++ ds)]).
  { rewrite Hsrc.
    replace (txt "/dev/r" ++ txt "disk" ++ ds)
      with (txt "/dev/" ++ txt "r" ++ (txt "disk" ++ ds) ++ [])
      by now rewrite app_nil_r.
    now apply unmount_spawned_device; auto. }
  pose proof (validateAndBackup_commands w st) as Hs.
  unfold backup_commands, probe_commands in Hs.
  rewrite (proj2 (zero_exit_spec _) Hsudo), Hu in Hs.
  match type of Hs with context [twice_if ?b (?x :: ?l)] =>
    destruct (twice_if_cons b x l) as (more & Et); rewrite Et in Hs end.
  exists (txt "disk" ++ ds), more. split; [reflexivity |]. split; [exact Hc |].
  exact Hs.
Qed.

Lemma listed_disk_is_unmounted_witness :
  let execSync := fun _ : str => Some (txt "<array><string>disk4</string></array>") in
  exists disk rest,
    txt "/dev/rdisk4" = txt "/dev/r" ++ disk
    /\ contains (txt "<string>" ++ disk ++ txt "</string>")
                (txt "<array><string>disk4</string></array>")
    /\ spawned (run (validateAndBackup quiet_mac)
                    (backup_of "/dev/rdisk4" "/tmp/out.img"))
       = sudoCheckCmd :: unmountCmd disk :: probeCmd (txt "/dev/rdisk4") :: rest.
Proof.
  intros execSync.
  refine (listed_disk_is_unmounted
            quiet_mac execSync _
            (diskItem execSync (txt "disk4") 0)
            (backup_of "/dev/rdisk4" "/tmp/out.img") eq_refl eq_refl _ eq_refl eq_refl).
  vm_compute. left. reflexivity.
Defined.

(** *** The lines of [lsblk] *)

Lemma startsWith_spec (s prefix : str) :
  startsWith s prefix = true <-> exists t, s = prefix ++ t.
Proof.
  revert s. induction prefix as [| p prefix IH]; intros s.
  - split; [intros _; now exists s | destruct s; reflexivity].
  - destruct s as [| c s]; simpl.
    + split; [discriminate | intros (t & E); discriminate E].
    + rewrite andb_true_iff, Ascii.eqb_eq, IH. split.
      * intros (-> & t & ->). now exists t.
      * intros (t & E). injection E as -> ->. split; [reflexivity | now exists t].
Qed.

Lemma includes_spec (s needle : str) :
  includes s needle = true <-> contains needle s.
Proof.
  unfold contains. induction s as [| c s IH]; cbn [includes].
  - rewrite orb_false_r, startsWith_spec. split.
    + intros (t & E). now exists [], t.
    + intros (a & b & E). destruct a; [now exists b | discriminate E].
  - rewrite orb_true_iff, IH, startsWith_spec. split.
    + intros [(t & E) | (a & b & E)].
      * exists [], t. exact E.
      * exists (c :: a), b. simpl. now rewrite E.
    + intros (a & b & E). destruct a as [| x a].
      * left. now exists b.
      * right. injection E as _ E. now exists a, b.
Qed.

Lemma split_spaces_nonempty (s piece : str) (in_run : bool) :
  split_spaces s piece in_run <> [].
Proof.
  revert piece in_run. induction s as [| c s IH]; intros piece in_run; simpl.
  - discriminate.
  - destruct (is_space c); [destruct in_run |]; try apply IH. discriminate.
Qed.

Lemma last_cons {A : Type} (x d : A) (l : list A) :
  l <> [] -> last (x :: l) d = last l d.
Proof. destruct l; [contradiction | reflexivity]. Qed.

Lemma split_spaces_first (name rest : str) :
  Forall (fun c => is_space c = false) name ->
  stops (fun c => negb (is_space c)) rest ->
  forall piece,
    nth 0 (split_spaces (name ++ rest) piece false) [] = piece ++ name.
Proof.
  intros Hname Hrest. induction Hname as [| c name Hc _ IH]; intros piece.
  - rewrite app_nil_r. destruct rest as [| c rest]; [reflexivity |].
    simpl in *. apply negb_false_iff in Hrest. now rewrite Hrest.
  - simpl. rewrite Hc, IH, <- app_assoc. reflexivity.
Qed.

Lemma split_spaces_only (field : str) :
  Forall (fun c => is_space c = false) field ->
  forall piece in_run,
    last (split_spaces field piece in_run) [] = piece ++ field.
Proof.
  induction 1 as [| c field Hc _ IH]; intros piece in_run; simpl.
  - now rewrite app_nil_r.
  - rewrite Hc, IH, <- app_assoc. reflexivity.
Qed.

Lemma split_spaces_last (pre' field : str) (c : ascii) :
  is_space c = true ->
  Forall (fun c => is_space c = false) field ->
  forall piece in_run,
    last (split_spaces ((pre' ++ [c]) ++ field) piece in_run) [] = field.
Proof.
  intros Hc Hfield. induction pre' as [| y pre' IH]; intros piece in_run; simpl.
  - rewrite Hc. destruct in_run.
    + now apply split_spaces_only.
    + rewrite last_cons by apply split_spaces_nonempty.
      now apply split_spaces_only.
  - destruct (is_space y); [destruct in_run |]; try apply IH.
    rewrite last_cons by apply split_spaces_nonempty. apply IH.
Qed.

Lemma first_field_exists (s : str) :
  exists name rest,
    s = name ++ rest /\ Forall (fun c => is_space c = false) name
    /\ stops (fun c => negb (is_space c)) rest.
Proof.
  induction s as [| c s (name & rest & -> & Hname & Hrest)].
  - exists [], []. repeat split. constructor.
  - destruct (is_space c) eqn:Hc.
    + exists [], (c :: name ++ rest). split; [reflexivity |].
      split; [constructor | simpl; now rewrite Hc].
    + exists (c :: name), rest. split; [reflexivity |].
      split; [now constructor | exact Hrest].
Qed.

Lemma last_field_exists (s : str) :
  exists field, last_field field s.
Proof.
  unfold last_field.
  induction s as [| c s (field & Hfield & pre & -> & Hpre)] using rev_ind.
  - exists []. split; [constructor |]. exists []. auto.
  - destruct (is_space c) eqn:Hc.
    + exists []. split; [constructor |]. exists ((pre ++ field) ++ [c]).
      split; [now rewrite app_nil_r |]. right. now exists (pre ++ field), c.
    + exists (field ++ [c]). split.
      * apply Forall_app. split; [exact Hfield | now repeat constructor].
      * exists pre. split; [now rewrite app_assoc | exact Hpre].
Qed.

Lemma last_field_split (field line : str) :
  last_field field line ->
  last (split_spaces line [] false) [] = field.
Proof.
  intros (Hfield & pre & -> & [-> | (pre' & c & -> & Hc)]).
  - now apply split_spaces_only.
  - now apply split_spaces_last.
Qed.

Lemma trimStart_head (s t : str) (c : ascii) :
  trimStart s = c :: t -> is_space c = false.
Proof.
  induction s as [| x s IH]; simpl; [discriminate |].
  destruct (is_space x) eqn:Hx; [exact IH |].
  intros E. injection E as <- _. exact Hx.
Qed.

Lemma trimStart_keeps_last (l : str) (c : ascii) :
  is_space c = false -> exists t, trimStart (l ++ [c]) = t ++ [c].
Proof.
  intros Hc. induction l as [| x l (t & IH)]; simpl.
  - rewrite Hc. now exists [].
  - destruct (is_space x); [now exists t |]. now exists (x :: l).
Qed.

Lemma trim_head (s t : str) (c : ascii) :
  trim s = c :: t -> is_space c = false.
Proof.
  unfold trim, trimEnd. destruct (trimStart s) as [| x u] eqn:E.
  - discriminate.
  - pose proof (trimStart_head _ _ _ E) as Hx. simpl rev.
    destruct (trimStart_keeps_last (rev u) x Hx) as (t' & ->).
    rewrite rev_app_distr. simpl. intros H. injection H as <- _. exact Hx.
Qed.

Lemma first_field_trim (line : str) :
  trim line <> [] -> exists name, first_field name (trim line).
Proof.
  intros Hne. destruct (first_field_exists (trim line))
    as (name & rest & E & Hname & Hrest).
  exists name. split; [| split; [exact Hname | now exists rest]].
  intros ->. simpl in E. destruct rest as [| c rest]; [contradiction |].
  simpl in Hrest. apply negb_false_iff in Hrest.
  pose proof (trim_head _ _ _ E). congruence.
Qed.

Lemma first_field_split (name line : str) :
  first_field name line -> nth 0 (split_spaces line [] false) [] = name.
Proof.
  intros (_ & Hname & rest & -> & Hrest).
  now rewrite split_spaces_first.
Qed.

Lemma map_indexed_In_intro {A B : Type} (f : A -> nat -> B) (l : list A) (x : A) :
  In x l -> forall idx, exists i, In (f x i) (map_indexed f idx l).
Proof.
  induction l as [| y l IH]; [intros [] |].
  intros [-> | Hin] idx; simpl.
  - exists idx. now left.
  - destruct (IH Hin (S idx)) as (i & Hi). exists i. now right.
Qed.

Lemma keepItem_lsblkItem (line : str) (idx : nat) :
  let parts := split_spaces (trim line) [] false in
  keepItem (lsblkItem line idx)
  = str_eqb (last parts []) (txt "1")
    || includes (nth 0 parts []) (txt "mmcblk")
    || includes (nth 0 parts []) (txt "sd").
Proof.
  unfold keepItem, lsblkItem. cbn [Item.removable Item.value].
  destruct (str_eqb _ (txt "1")); reflexivity.
Qed.

(** X13. Off darwin, when [lsblk] answers, the devices offered are
    [/dev/] followed by the first field of a line that is not blank,
    for exactly the lines whose last field is [1] (the removable flag)
    or whose first field contains [mmcblk] or [sd]. *)
Theorem lsblk_disks_listed
        (platform : str) (execSync : str -> option str) (output : str) :
  platform <> darwin ->
  execSync lsblkCmd = Some output ->
  forall v,
    In v (map Item.value (getDisks platform execSync)) <->
    exists line name,
      In line (split_on (ascii_of_nat 10) (trim output))
      /\ first_field name (trim line)
      /\ v = txt "/dev/" ++ name
      /\ (last_field (txt "1") (trim line)
          \/ contains (txt "mmcblk") name \/ contains (txt "sd") name).
Proof.
  intros Hp Hls v. unfold getDisks.
  assert (E : str_eqb platform darwin = false).
  { destruct (str_eqb platform darwin) eqn:E; [| reflexivity].
    apply str_eqb_eq in E. contradiction. }
  rewrite E, Hls. rewrite in_map_iff. split.
  - intros (d & <- & Hd). apply filter_In in Hd. destruct Hd as (Hd & Hkeep).
    apply map_indexed_In in Hd. destruct Hd as (line & idx & Hline & ->).
    apply filter_In in Hline. destruct Hline as (Hline & Hnb).
    assert (Hne : trim line <> []) by (intros Ht; now rewrite Ht in Hnb).
    destruct (first_field_trim line Hne) as (name & Hname).
    rewrite keepItem_lsblkItem in Hkeep. cbv zeta in Hkeep.
    rewrite (first_field_split _ _ Hname) in Hkeep.
    exists line, name. split; [exact Hline |]. split; [exact Hname |].
    split.
    + unfold lsblkItem. cbn [Item.value].
      now rewrite (first_field_split _ _ Hname).
    + apply orb_true_iff in Hkeep. destruct Hkeep as [Hkeep | Hkeep];
        [apply orb_true_iff in Hkeep; destruct Hkeep as [Hkeep | Hkeep] |].
      * left. destruct (last_field_exists (trim line)) as (field & Hfield).
        rewrite (last_field_split _ _ Hfield) in Hkeep.
        apply str_eqb_eq in Hkeep. now subst.
      * right. left. now apply includes_spec.
      * right. right. now apply includes_spec.
  - intros (line & name & Hline & Hname & -> & Hkeep).
    assert (Hin : In line (filter (fun line => truthy (trim line))
                             (split_on (ascii_of_nat 10) (trim output)))).
    { apply filter_In. split; [exact Hline |].
      destruct Hname as (Hne & _ & rest & -> & _).
      destruct name; [contradiction | reflexivity]. }
    destruct (map_indexed_In_intro lsblkItem _ _ Hin 0) as (i & Hi).
    exists (lsblkItem line i). split.
    + unfold lsblkItem. cbn [Item.value].
      now rewrite (first_field_split _ _ Hname).
    + apply filter_In. split; [exact Hi |].
      rewrite keepItem_lsblkItem. cbv zeta.
      rewrite (first_field_split _ _ Hname).
      destruct Hkeep as [Hkeep | [Hkeep | Hkeep]].
      * rewrite (last_field_split _ _ Hkeep).
        assert (H1 : str_eqb (txt "1") (txt "1") = true) by now apply str_eqb_eq.
        now rewrite H1.
      * apply includes_spec in Hkeep. rewrite Hkeep.
        now rewrite orb_true_r.
      * apply includes_spec in Hkeep. rewrite Hkeep. apply orb_true_r.
Qed.

Lemma lsblk_disks_listed_witness :
  In (txt "/dev/mmcblk0")
     (map Item.value
          (getDisks (txt "linux") (fun _ => Some (txt "mmcblk0 29.7G 0")))).
Proof.
  apply (proj2 (lsblk_disks_listed
                  (txt "linux") (fun _ => Some (txt "mmcblk0 29.7G 0"))
                  (txt "mmcblk0 29.7G 0") ltac:(discriminate) eq_refl _)).
  exists (txt "mmcblk0 29.7G 0"), (txt "mmcblk0").
  split; [now left |]. split.
  - split; [discriminate |]. split; [repeat constructor |].
    exists (txt " 29.7G 0"). split; reflexivity.
  - split; [reflexivity |]. right. left. exists [], (txt "0"). reflexivity.
Defined.

(** X14. When the command that lists the devices cannot be run,
    [getDisks] returns the one entry that reports the failure, whose
    value is empty; chosen in either device list, that entry changes
    nothing. *)
Theorem detection_failure_entry
        (platform : str) (execSync : str -> option str) (st : App) :
  execSync (if str_eqb platform darwin then listCmd else lsblkCmd) = None ->
  getDisks platform execSync = [detectionFailed]
  /\ forall d,
      In d (getDisks platform execSync) ->
      run (sourceList_onSelect (Item.value d)) st = st
      /\ run (destList_onSelect (Item.value d)) st = st.
Proof.
  intros Hfail.
  assert (E : getDisks platform execSync = [detectionFailed]).
  { unfold getDisks. destruct (str_eqb platform darwin); now rewrite Hfail. }
  split; [exact E |]. rewrite E. intros d [<- | []]. split; reflexivity.
Qed.

Lemma detection_failure_entry_witness :
  getDisks darwin (fun _ => None) = [detectionFailed].
Proof.
  exact (proj1 (detection_failure_entry darwin (fun _ => None) initialApp eq_refl)).
Defined.

(** ** The session *)

Lemma validateAndBackup_inputs (w : World) (st : App) :
  inputs (run (validateAndBackup w) st) = inputs st.
Proof.
  apply (keeps_validateAndBackup (fun s => inputs s = inputs st));
    try reflexivity; intros; intros s Hs; rewrite <- Hs; reflexivity.
Qed.

Lemma validateAndRestore_inputs (w : World) (st : App) :
  inputs (run (validateAndRestore w) st) = inputs st.
Proof.
  apply (keeps_validateAndRestore (fun s => inputs s = inputs st));
    try reflexivity; intros; intros s Hs; rewrite <- Hs; reflexivity.
Qed.

(** What a run started from the confirmation menu leaves: the inputs as
    they were, and a state that is none of the menus'. *)
Lemma start_outcome (w : World) (st : App) :
  let st' := run (confirm_onSelect w (txt "start")) st in
  inputs st' = inputs st
  /\ (state st' = COMPLETE \/ state st' = ERROR \/ state st' = SHRINKING).
Proof.
  cbv zeta. rewrite start_dispatch.
  destruct (mode st) as [[|] |].
  - split; [apply validateAndBackup_inputs |].
    destruct (validateAndBackup_follows w st) as (_ & _ & _ & H).
    apply outcome_of_state in H. rewrite H.
    destruct (backup_outcome w (source st) (destination st)); auto.
  - split; [apply validateAndRestore_inputs |].
    destruct (validateAndRestore_follows w st) as (_ & _ & _ & H).
    apply outcome_of_state in H. rewrite H.
    destruct (restore_outcome w (source st) (destination st)); auto.
  - split; [apply validateAndBackup_inputs |].
    destruct (validateAndBackup_follows w st) as (_ & _ & _ & H).
    apply outcome_of_state in H. rewrite H.
    destruct (backup_outcome w (source st) (destination st)); auto.
Qed.

Lemma confirm_cases (w : World) (value : str) (st : App) :
  let st' := run (confirm_onSelect w value) st in
  st' = run (confirm_onSelect w (txt "start")) st
  \/ st' = run (setState SELECT_SOURCE) st
  \/ st' = run exit st
  \/ st' = st.
Proof.
  unfold confirm_onSelect at 1.
  destruct (str_eqb value (txt "start")) eqn:E1.
  - left. apply str_eqb_eq in E1. now subst.
  - destruct (str_eqb value (txt "back")); [right; now left |].
    destruct (str_eqb value (txt "cancel")); right; right; [now left | now right].
Qed.

Ltac session_close I1 :=
  unfold session_invariant, run; simpl; repeat split; intros;
  try discriminate; try tauto; try congruence;
  try (exfalso;
       match goal with
       | H : mode _ = None |- _ => apply (proj2 I1) in H; congruence
       end).

Lemma session_invariant_step (w : World) (disks : list Item.t) (st st' : App) :
  session_invariant disks st -> step w disks st st' ->
  session_invariant disks st'.
Proof.
  intros (I1 & I2 & I3 & I4) Hstep.
  destruct Hstep as [v Hs _ | path Hs Hm | text Hs Hm Hshow | Hs Hm Hshow
                     | item Hs Hm Hshow Hin | item Hs Hm Hin | path Hs Hm
                     | v Hs _ | v Hs _ |].
  - (* main menu *)
    destruct (I2 Hs) as (Hsrc & Hdst & Herr).
    unfold mainMenu_onSelect.
    destruct (str_eqb v (txt "backup")); [| destruct (str_eqb v (txt "restore"))];
      session_close I1; auto.
  - (* image picker *)
    session_close I1.
  - (* manual text typed *)
    session_close I1.
  - (* manual text submitted *)
    session_close I1.
  - (* source list *)
    unfold sourceList_onSelect.
    destruct (str_eqb (Item.value item) (txt "manual"));
      [| destruct (truthy (Item.value item))]; session_close I1.
  - (* target list *)
    unfold destList_onSelect.
    destruct (str_eqb (Item.value item) (txt "manual")) eqn:Eman;
      [| destruct (truthy (Item.value item)) eqn:Etr]; session_close I1.
    + right. split; [| split].
      * intros E. now rewrite E in Etr.
      * intros E. apply str_eqb_eq in E. congruence.
      * now exists item.
    + intros E. now rewrite E in Etr.
  - (* file browser *)
    session_close I1.
  - (* confirmation *)
    destruct (confirm_cases w v st) as [E | [E | [E | E]]]; rewrite E.
    + destruct (start_outcome w st) as (Hi & Hq).
      apply inputs_fields in Hi. destruct Hi as (Hmode & Hsrc & Hdst).
      unfold session_invariant. rewrite Hmode, Hdst.
      split; [| split; [| split]].
      * split; [intros H; rewrite H in Hq; now destruct Hq as [? | [? | ?]] |].
        intros H. apply I1 in H. congruence.
      * intros H. rewrite H in Hq. now destruct Hq as [? | [? | ?]].
      * exact I3.
      * intros H _ _. apply I4; [exact H | congruence | congruence].
    + session_close I1.
    + session_close I1.
    + repeat split; tauto.
  - (* error menu *)
    unfold errorMenu_onSelect.
    destruct (str_eqb v (txt "retry")); [| destruct (str_eqb v (txt "menu"))];
      session_close I1.
  - (* quit *)
    session_close I1.
Qed.

Lemma session_invariant_reachable (w : World) (disks : list Item.t) (st : App) :
  reachable w disks st -> session_invariant disks st.
Proof.
  induction 1 as [| st st' _ IH _ Hstep].
  - unfold session_invariant. simpl.
    repeat split; try discriminate; try tauto; try (now left).
  - exact (session_invariant_step w disks st st' IH Hstep).
Qed.

(** X15. A restore only ever targets a device of the list.  In every
    state of a session in which the mode is restore and the target menu
    has been passed (confirmation, the run, its end), the destination is
    the value of an entry of the device list, not empty and not the
    manual entry: the target of a restore cannot be typed. *)
Theorem restore_target_is_listed (w : World) (disks : list Item.t) (st : App) :
  reachable w disks st ->
  mode st = Some RESTORE ->
  state st <> SELECT_SOURCE -> state st <> SELECT_DEST ->
  listed disks (destination st).
Proof.
  intros Hreach Hmode Hss Hsd.
  destruct (session_invariant_reachable w disks st Hreach) as (_ & _ & I3 & I4).
  destruct (I3 Hmode) as [Hempty | Hlisted]; [| exact Hlisted].
  exfalso. exact (I4 Hmode Hss Hsd Hempty).
Qed.

Lemma restore_target_is_listed_witness :
  let card := Item.mk (Some (txt "disk-0-disk9")) (txt "disk9")
                      (txt "/dev/rdisk9") None in
  listed [card; manualEntry]
         (destination (restore_of "/tmp/in.img" "/dev/rdisk9")).
Proof.
  intros card.
  set (disks := [card; manualEntry]).
  set (s1 := run (mainMenu_onSelect (txt "restore")) initialApp).
  set (s2 := run (imagePicker_onSelect (txt "/tmp/in.img")) s1).
  assert (R1 : reachable quiet_mac disks s1).
  { apply (reach_step _ _ initialApp); [constructor | reflexivity |].
    exact (step_main _ _ initialApp (txt "restore") eq_refl
             (or_intror (or_introl eq_refl))). }
  assert (R2 : reachable quiet_mac disks s2).
  { apply (reach_step _ _ s1); [exact R1 | reflexivity |].
    exact (step_image _ _ s1 (txt "/tmp/in.img") eq_refl eq_refl). }
  assert (R3 : reachable quiet_mac disks (restore_of "/tmp/in.img" "/dev/rdisk9")).
  { apply (reach_step _ _ s2); [exact R2 | reflexivity |].
    refine (step_dest quiet_mac disks s2 card eq_refl eq_refl _). now left. }
  apply (restore_target_is_listed quiet_mac disks _ R3);
    [reflexivity | discriminate | discriminate].
Defined.

(** X16. Without a detected device no restore can be started: when
    every entry that [getDisks] returns has an empty value (the failure
    entry, or no entry at all), a session in restore mode stays in the
    menus of the image and of the target. *)
Theorem no_restore_without_devices
        (w : World) (platform : str) (execSync : str -> option str) (st : App) :
  (forall d, In d (getDisks platform execSync) -> Item.value d = []) ->
  reachable w (loadDisks platform execSync) st ->
  mode st = Some RESTORE ->
  state st = SELECT_SOURCE \/ state st = SELECT_DEST.
Proof.
  intros Hnone Hreach Hmode.
  destruct (session_invariant_reachable _ _ _ Hreach) as (I1 & _ & I3 & I4).
  assert (Hno : ~ listed (loadDisks platform execSync) (destination st)).
  { intros (Hne & Hman & d & Hin & Hv). unfold loadDisks in Hin.
    apply in_app_or in Hin. destruct Hin as [Hin | [<- | []]].
    - destruct (length (getDisks platform execSync) =? 0)%nat.
      + apply in_app_or in Hin. destruct Hin as [Hin | [<- | []]].
        * apply Hnone in Hin. congruence.
        * now apply Hne.
      + apply Hnone in Hin. congruence.
    - now apply Hman. }
  assert (Hdst : destination st = []).
  { destruct (I3 Hmode) as [H | H]; [exact H | contradiction]. }
  destruct (state st) eqn:Hs; auto; exfalso;
    (apply (I4 Hmode); [discriminate | discriminate | exact Hdst]).
Qed.

Lemma no_restore_without_devices_witness :
  let st := run (mainMenu_onSelect (txt "restore")) initialApp in
  state st = SELECT_SOURCE \/ state st = SELECT_DEST.
Proof.
  intros st.
  apply (no_restore_without_devices quiet_mac darwin (fun _ => None) st).
  - intros d [<- | []]. reflexivity.
  - apply (reach_step _ _ initialApp); [constructor | reflexivity |].
    exact (step_main _ _ initialApp (txt "restore") eq_refl
             (or_intror (or_introl eq_refl))).
  - reflexivity.
Defined.

(** X17. The main menu is a clean start.  In every state of a session
    the main menu is shown exactly when no mode is chosen, and then the
    source, the destination and the error text are empty: nothing of an
    earlier operation is carried into the next one through the main
    menu. *)
Theorem main_menu_is_clean (w : World) (disks : list Item.t) (st : App) :
  reachable w disks st ->
  (state st = MAIN_MENU <-> mode st = None)
  /\ (state st = MAIN_MENU ->
      source st = [] /\ destination st = [] /\ error st = []).
Proof.
  intros Hreach.
  destruct (session_invariant_reachable w disks st Hreach) as (I1 & I2 & _).
  now split.
Qed.

Lemma main_menu_is_clean_witness :
  let w := with_child quiet_mac sudoCheckCmd (exits 1) in
  let failed := run (confirm_onSelect w (txt "start"))
                    (backup_of "/dev/rdisk9" "/tmp/out.img") in
  let st := run (errorMenu_onSelect (txt "menu")) failed in
  source st = [] /\ destination st = [] /\ error st = [].
Proof.
  intros w failed st.
  set (card := Item.mk None [] (txt "/dev/rdisk9") None).
  set (disks := [card; manualEntry]).
  set (s1 := run (mainMenu_onSelect (txt "backup")) initialApp).
  set (s2 := run (sourceList_onSelect (txt "/dev/rdisk9")) s1).
  set (s3 := backup_of "/dev/rdisk9" "/tmp/out.img").
  assert (R1 : reachable w disks s1).
  { apply (reach_step _ _ initialApp); [constructor | reflexivity |].
    exact (step_main _ _ initialApp (txt "backup") eq_refl (or_introl eq_refl)). }
  assert (R2 : reachable w disks s2).
  { apply (reach_step _ _ s1); [exact R1 | reflexivity |].
    refine (step_source w disks s1 card eq_refl _ eq_refl _);
      [discriminate | now left]. }
  assert (R3 : reachable w disks s3).
  { apply (reach_step _ _ s2); [exact R2 | reflexivity |].
    refine (step_file _ _ s2 (txt "/tmp/out.img") eq_refl _). discriminate. }
  assert (R4 : reachable w disks failed).
  { apply (reach_step _ _ s3); [exact R3 | reflexivity |].
    exact (step_confirm _ _ s3 (txt "start") eq_refl (or_introl eq_refl)). }
  assert (R5 : reachable w disks st).
  { apply (reach_step _ _ failed); [exact R4 | vm_compute; reflexivity |].
    refine (step_error _ _ failed (txt "menu") _ (or_intror (or_introl eq_refl))).
    vm_compute. reflexivity. }
  apply (main_menu_is_clean _ _ st R5). vm_compute. reflexivity.
Defined.

(** *** The list that is loaded *)

Lemma getDisks_values (platform : str) (execSync : str -> option str) (d : Item.t) :
  In d (getDisks platform execSync) ->
  d = detectionFailed
  \/ exists name, name <> [] /\ Item.value d = txt "/dev/" ++ name.
Proof.
  unfold getDisks. destruct (str_eqb platform darwin) eqn:Ep.
  - destruct (execSync listCmd) as [output |] eqn:Hlist;
      [| intros [<- | []]; now left].
    destruct (getDisks_darwin execSync output Hlist) as (names & E & _ & _).
    unfold getDisks in E.
    assert (Hd : str_eqb darwin darwin = true) by now apply str_eqb_eq.
    rewrite Hd, Hlist in E. rewrite E. intros Hin.
    apply map_indexed_In in Hin. destruct Hin as (disk & idx & _ & ->).
    right. exists (txt "r" ++ disk). split; [discriminate |].
    apply diskItem_fields.
  - destruct (execSync lsblkCmd) as [output |]; [| intros [<- | []]; now left].
    intros Hin. apply filter_In in Hin. destruct Hin as (Hin & _).
    apply map_indexed_In in Hin. destruct Hin as (line & idx & Hline & ->).
    apply filter_In in Hline. destruct Hline as (_ & Hnb).
    assert (Hne : trim line <> []) by (intros Ht; now rewrite Ht in Hnb).
    destruct (first_field_trim line Hne) as (name & Hname).
    right. exists name. split; [apply Hname |].
    unfold lsblkItem. cbn [Item.value].
    now rewrite (first_field_split _ _ Hname).
Qed.

(** X18. The device list that the application loads is never empty, it
    ends with the manual entry, and the value of every entry is empty,
    or [manual], or a path that begins with [/dev/] and goes on; on
    every platform and whatever the commands print or fail with. *)
Theorem loaded_list_shape (platform : str) (execSync : str -> option str) :
  (exists entries,
      entries <> []
      /\ loadDisks platform execSync = entries ++ [manualEntry])
  /\ forall d,
      In d (loadDisks platform execSync) ->
      Item.value d = []
      \/ Item.value d = txt "manual"
      \/ exists name, name <> [] /\ Item.value d = txt "/dev/" ++ name.
Proof.
  unfold loadDisks. split.
  - destruct (getDisks platform execSync) as [| d l] eqn:E; simpl.
    + exists [noDisks]. split; [discriminate | reflexivity].
    + exists (d :: l). split; [discriminate | reflexivity].
  - intros d Hin. apply in_app_or in Hin. destruct Hin as [Hin | [<- | []]].
    + assert (H : In d (getDisks platform execSync) \/ d = noDisks).
      { destruct (length (getDisks platform execSync) =? 0)%nat; [| now left].
        apply in_app_or in Hin. destruct Hin as [Hin | [<- | []]]; auto. }
      destruct H as [H | ->]; [| now left].
      apply getDisks_values in H. destruct H as [-> | H]; [now left |].
      right. now right.
    + right. now left.
Qed.

(** X19. No process without confirmation.  In a session a callback
    starts child processes only when it is Start in the confirmation
    menu: every other step leaves the list of started commands as it
    was. *)
Theorem processes_need_confirmation
        (w : World) (disks : list Item.t) (st st' : App) :
  step w disks st st' ->
  spawned st' <> spawned st ->
  state st = CONFIRM /\ st' = run (confirm_onSelect w (txt "start")) st.
Proof.
  intros Hstep Hsp.
  destruct Hstep as [v Hs _ | path Hs Hm | text Hs Hm Hshow | Hs Hm Hshow
                     | item Hs Hm Hshow Hin | item Hs Hm Hin | path Hs Hm
                     | v Hs _ | v Hs _ |];
    try (exfalso; apply Hsp; reflexivity).
  - exfalso. apply Hsp. unfold mainMenu_onSelect.
    destruct (str_eqb v (txt "backup")); [| destruct (str_eqb v (txt "restore"))];
      reflexivity.
  - exfalso. apply Hsp. unfold sourceList_onSelect.
    destruct (str_eqb (Item.value item) (txt "manual"));
      [| destruct (truthy (Item.value item))]; reflexivity.
  - exfalso. apply Hsp. unfold destList_onSelect.
    destruct (str_eqb (Item.value item) (txt "manual"));
      [| destruct (truthy (Item.value item))]; reflexivity.
  - split; [exact Hs |].
    destruct (confirm_cases w v st) as [E | [E | [E | E]]];
      [exact E | | |]; exfalso; apply Hsp; rewrite E; reflexivity.
  - exfalso. apply Hsp. unfold errorMenu_onSelect.
    destruct (str_eqb v (txt "retry")); [| destruct (str_eqb v (txt "menu"))];
      reflexivity.
Qed.

Lemma processes_need_confirmation_witness :
  let st := backup_of "/dev/rdisk9" "/tmp/out.img" in
  state st = CONFIRM
  /\ run (confirm_onSelect quiet_mac (txt "start")) st
     = run (confirm_onSelect quiet_mac (txt "start")) st.
Proof.
  intros st.
  refine (processes_need_confirmation quiet_mac [manualEntry] st
            (run (confirm_onSelect quiet_mac (txt "start")) st)
            (step_confirm quiet_mac [manualEntry] st (txt "start") eq_refl
               (or_introl eq_refl)) _).
  vm_compute. discriminate.
Defined.

(** ** The image picker *)

Lemma test_to_end_spec (r : regex) (s : str) :
  test_to_end r s = true <-> exists a b, s = a ++ b /\ lang r b.
Proof.
  induction s as [| x s IH]; cbn [test_to_end];
    rewrite orb_true_iff, existsb_exists.
  - split.
    + intros [([g s'] & Hin & Hend) | H]; [| discriminate H].
      destruct s'; [| discriminate Hend].
      apply exec_sound in Hin. destruct Hin as (a & Ha & L).
      exists [], a. rewrite app_nil_r in Ha. split; [exact Ha | now exists g].
    + intros (a & b & E & g & L). left.
      symmetry in E. apply app_eq_nil in E. destruct E as [-> ->].
      exists (g, []). split; [| reflexivity].
      exact (exec_complete _ _ _ L []).
  - rewrite IH. split.
    + intros [([g s'] & Hin & Hend) | (a & b & -> & L)].
      * destruct s'; [| discriminate Hend].
        apply exec_sound in Hin. destruct Hin as (a & Ha & L).
        exists [], a. rewrite app_nil_r in Ha. split; [exact Ha | now exists g].
      * exists (x :: a), b. now split.
    + intros (a & b & E & g & L). destruct a as [| y a].
      * left. exists (g, []). split; [| reflexivity].
        simpl in E. rewrite E.
        pose proof (exec_complete _ _ _ L []) as Hin.
        now rewrite app_nil_r in Hin.
      * right. injection E as _ E. exists a, b. split; [exact E | now exists g].
Qed.

Lemma lang_Chr_i (c : ascii) (a : str) :
  lang (Chr_i c) a <-> exists x, a = [x] /\ upper x = upper c.
Proof.
  unfold Chr_i. rewrite lang_Class. split.
  - intros (x & -> & Hx). apply Ascii.eqb_eq in Hx. now exists x.
  - intros (x & -> & Hx). exists x. split; [reflexivity |].
    now apply Ascii.eqb_eq.
Qed.

Lemma lang_Lit_chars_i (s a : str) :
  lang (Lit_chars_i s) a <-> map upper a = map upper s.
Proof.
  revert a. induction s as [| c s IH]; intros a; simpl.
  - split.
    + intros (g & H). inversion H; subst. reflexivity.
    + intros H. destruct a; [| discriminate H]. exists []. constructor.
  - rewrite lang_Cat. split.
    + intros (a1 & a2 & -> & H1 & H2). apply lang_Chr_i in H1.
      destruct H1 as (x & -> & Hx). apply IH in H2. simpl. now rewrite Hx, H2.
    + intros H. destruct a as [| x a]; [discriminate H |].
      simpl in H. injection H as Hx Ha.
      exists [x], a. split; [reflexivity |].
      split; [apply lang_Chr_i; now exists x | now apply IH].
Qed.

Lemma upper_dot (c : ascii) : upper c = "."%char <-> c = "."%char.
Proof.
  split; [| now intros ->].
  destruct c as [[] [] [] [] [] [] [] []]; vm_compute; intros H;
    try discriminate H; reflexivity.
Qed.

Lemma lang_image_name (b : str) :
  lang re_image_name b <->
  exists ext, b = txt "." ++ ext /\ In (map upper ext) imageExtensions.
Proof.
  unfold re_image_name. rewrite lang_Cat. split.
  - intros (a1 & ext & -> & H1 & H2).
    apply lang_Chr_i in H1. destruct H1 as (x & -> & Hx).
    change (upper ".") with "."%char in Hx.
    apply (proj1 (upper_dot x)) in Hx. subst x. exists ext. split; [reflexivity |].
    apply -> lang_Group in H2. apply lang_Alt in H2.
    destruct H2 as [H | H]; [apply lang_Lit_chars_i in H; now left |].
    apply lang_Alt in H. destruct H as [H | H].
    + apply lang_Cat in H. destruct H as (e1 & e' & -> & H1 & H).
      apply lang_Lit_chars_i in H1.
      apply lang_Cat in H. destruct H as (d & e2 & -> & Hd & H2).
      apply lang_Chr_i in Hd. destruct Hd as (x & -> & Hx).
      apply lang_Lit_chars_i in H2.
      right. left. rewrite !map_app, H1, H2. simpl. now rewrite Hx.
    + apply lang_Alt in H. destruct H as [H | H]; apply lang_Lit_chars_i in H.
      * right. right. now left.
      * right. right. right. now left.
  - intros (ext & -> & Hext). exists (txt "."), ext. split; [reflexivity |].
    split; [apply lang_Chr_i; now exists "."%char |].
    apply <- lang_Group. apply lang_Alt.
    destruct Hext as [H | [H | [H | [H | []]]]]; symmetry in H.
    + left. now apply lang_Lit_chars_i.
    + right. apply lang_Alt. left.
      destruct ext as [| c1 [| c2 [| c3 [| c4 [| c5 [| c6 [| c7 ext]]]]]]];
        try discriminate H.
      injection H as H1 H2 H3 H4 H5 H6.
      apply (proj1 (upper_dot c4)) in H4. subst c4.
      apply lang_Cat. exists [c1; c2; c3], [".";  c5; c6]%char.
      split; [reflexivity |]. split.
      * apply lang_Lit_chars_i. simpl. now rewrite H1, H2, H3.
      * apply lang_Cat. exists ["."%char], [c5; c6]. split; [reflexivity |].
        split; [apply lang_Chr_i; now exists "."%char |].
        apply lang_Lit_chars_i. simpl. now rewrite H5, H6.
    + right. apply lang_Alt. right. apply lang_Alt. left.
      now apply lang_Lit_chars_i.
    + right. apply lang_Alt. right. apply lang_Alt. right.
      now apply lang_Lit_chars_i.
Qed.

(** X20. The image picker lists a file exactly when its name ends with
    a dot and one of the extensions [img], [img.gz], [iso], [dmg], in
    any mix of upper and lower case. *)
Theorem image_names_listed (name : str) :
  isImageName name = true <->
  exists stem ext,
    name = stem ++ txt "." ++ ext /\ In (map upper ext) imageExtensions.
Proof.
  unfold isImageName. rewrite test_to_end_spec. split.
  - intros (a & b & -> & L). apply lang_image_name in L.
    destruct L as (ext & -> & Hext). now exists a, ext.
  - intros (stem & ext & -> & Hext). exists stem, (txt "." ++ ext).
    split; [reflexivity |]. apply lang_image_name. now exists ext.
Qed.

(** X21. From the picker to the copy: the picker takes the extension in
    any case, the restore looks for [.gz] in lower case only.  So an
    image whose extension reads [img.gz] in some other case than all
    lower in its last two letters is listed by the picker, and for every
    source path that ends with its name the copy stage of the restore
    starts one child, a plain [dd] that reads the compressed file as it
    is, without [gunzip]. *)
Theorem other_case_gz_copied_raw (w : World) (st : App) (dir stem ext : str) :
  map upper ext = txt "IMG.GZ" ->
  ~ (exists e, ext = e ++ txt "gz") ->
  let name := stem ++ txt "." ++ ext in
  source st = dir ++ name ->
  isImageName name = true
  /\ spawned (run (runRestore w) st)
     = spawned st
         ++ [mkCmd (txt "sudo")
                   (txt "dd" :: (txt "if=" ++ source st)
                      :: (txt "of=" ++ destination st)
                      :: (if str_eqb (platform w) darwin
                          then [txt "bs=4m"; txt "status=progress"]
                          else [txt "bs=4M"; txt "status=progress";
                                txt "conv=fsync"]))].
Proof.
  intros Hext Hgz name Hsrc. split.
  - unfold isImageName. apply test_to_end_spec.
    exists stem, (txt "." ++ ext). split; [reflexivity |].
    apply lang_image_name. exists ext. split; [reflexivity |].
    rewrite Hext. right. now left.
  - rewrite runRestore_spawned. unfold restoreCmd, isGzipped.
    destruct (endsWith (source st) (txt ".gz")) eqn:E.
    + exfalso. apply endsWith_spec in E. destruct E as (s & E).
      rewrite Hsrc in E.
      destruct ext as [| c1 [| c2 [| c3 [| c4 [| c5 [| c6 [| c7 ext]]]]]]];
        try discriminate Hext.
      apply Hgz. exists [c1; c2; c3; c4].
      unfold name in E.
      assert (E' : (dir ++ stem ++ txt "." ++ [c1; c2; c3; c4]) ++ [c5; c6]
                   = (s ++ txt ".") ++ txt "gz").
      { rewrite <- !app_assoc. exact E. }
      change [c5; c6] with ([c5] ++ [c6]) in E'.
      change (txt "gz") with (["g"%char] ++ ["z"%char]) in E'.
      rewrite !app_assoc in E'.
      apply app_inj_tail in E'. destruct E' as (E' & ->).
      apply app_inj_tail in E'. destruct E' as (_ & ->). reflexivity.
    + unfold ddCmd, ddArgs. destruct (str_eqb (platform w) darwin); reflexivity.
Qed.

Lemma other_case_gz_copied_raw_witness :
  let st := restore_of "/tmp/pi.img.GZ" "/dev/rdisk9" in
  isImageName (txt "pi" ++ txt "." ++ txt "img.GZ") = true
  /\ spawned (run (runRestore quiet_mac) st)
     = spawned st
         ++ [mkCmd (txt "sudo")
                   [txt "dd"; txt "if=" ++ source st; txt "of=" ++ destination st;
                    txt "bs=4m"; txt "status=progress"]].
Proof.
  intros st.
  refine (other_case_gz_copied_raw quiet_mac st (txt "/tmp/") (txt "pi")
            (txt "img.GZ") eq_refl _ eq_refl).
  intros (e & E).
  change (txt "img.GZ") with (txt "img." ++ [ "G"%char ] ++ [ "Z"%char ]) in E.
  change (txt "gz") with ([ "g"%char ] ++ [ "z"%char ]) in E.
  rewrite !app_assoc in E. apply app_inj_tail in E. destruct E as (_ & E).
  discriminate E.
Defined.
